(** * The multi-agent coordination core of rclaw: a shallow embedding

    The development follows the TypeScript modules of [src/multi-agent]:
    - [Protocol]: the record types of [protocol.ts];
    - [WorkTracker]: the task state machine and the indices of
      [work-tracker.ts];
    - [RoleManager]: role definitions and assignments of [role-manager.ts];
    - [Router]: dedup, TTL, hop count, delivery and forwarding of
      [message-router.ts];
    - [Crypto]: HMAC-SHA256 and base64 as [security.ts] calls them;
    - [Security]: policies, rate limiter, audit log, signing and
      authorization of [security.ts];
    - [Orchestrator]: agent selection and task submission of
      [orchestrator.ts];
    - [WorkTrackerQueries], [RoleManagerExport], [SecurityExport]: the
      listing, summary and export functions of the tracker, the role manager
      and the security manager.

    The embedding comes first, then the vocabulary of the statements and the
    data of the examples, then the theorems.

    Conventions.  A JavaScript [Map] whose iteration order is not observable
    in the modelled operations is a [gmap]; a [Set] of task ids is a [gset].
    Where insertion order is observable (the router's peers and its dedup
    set) the container is a list.  JavaScript numbers that hold timestamps
    and counters are integers of [Z].  [Date.now()] is an explicit argument
    [now] of every operation that reads the clock.  An optional field
    [f?: T] is an [option T]; JavaScript truthiness of an optional string
    (absent or empty is falsy) is [truthy]. *)

From Stdlib Require Import ZArith Lia Ascii String.
From Stdlib Require Import Qcanon.
From Stdlib Require Import Sorted.
From stdpp Require Import gmap strings list fin_maps pretty.

(** [if (s)] for an optional string: absent and the empty string are falsy. *)
Definition truthy (o : option string) : option string :=
  match o with
  | Some s => if String.eqb s EmptyString then None else Some s
  | None => None
  end.

(** ** JavaScript values and [JSON.stringify]

    Payloads are typed [unknown] where they are signed, and the router reads
    only their [type] property; both see them as plain JavaScript values.  An
    object is the list of its own enumerable properties in insertion order
    (keys distinct, none of them an array index).  Numbers are integers.  A
    string is the sequence of the bytes of its UTF-8 encoding, which is what
    [hmac.update] hashes; well-formed strings only. *)
Module Js.

#[warnings="-register-all"] Inductive value :=
| Undefined
| Null
| Bool (b : bool)
| Num (n : Z)
| Str (s : string)
| Arr (xs : list value)
| Obj (props : list (string * value)).

Fixpoint assoc (k : string) (ps : list (string * value)) : value :=
  match ps with
  | [] => Undefined
  | (k', v) :: ps' => if String.eqb k' k then v else assoc k ps'
  end.

(** Property read [o.k] on an object. *)
Definition get (o : value) (k : string) : value :=
  match o with
  | Obj ps => assoc k ps
  | _ => Undefined
  end.

Definition hex_digit (n : N) : ascii :=
  match n with
  | 0 => "0" | 1 => "1" | 2 => "2" | 3 => "3" | 4 => "4" | 5 => "5"
  | 6 => "6" | 7 => "7" | 8 => "8" | 9 => "9" | 10 => "a" | 11 => "b"
  | 12 => "c" | 13 => "d" | 14 => "e" | _ => "f"
  end%N%char.

(** The quotation mark, code 34. *)
Definition dquote : ascii := ascii_of_N 34.

(** One code unit of [QuoteJSONString]: the quote and the backslash are
    escaped, the control characters have their short escapes or \u00XX, and
    everything from the space on is copied. *)
Definition quote_char (c : ascii) : string :=
  let n := N_of_ascii c in
  if (n =? 34)%N then String "\" (String dquote EmptyString)
  else if (n =? 92)%N then String "\" (String "\" EmptyString)
  else if (n =? 8)%N then String "\" (String "b" EmptyString)
  else if (n =? 12)%N then String "\" (String "f" EmptyString)
  else if (n =? 10)%N then String "\" (String "n" EmptyString)
  else if (n =? 13)%N then String "\" (String "r" EmptyString)
  else if (n =? 9)%N then String "\" (String "t" EmptyString)
  else if (n <? 32)%N then
    String "\" (String "u" (String "0" (String "0"
      (String (hex_digit (n / 16)) (String (hex_digit (n mod 16)) EmptyString)))))
  else String c EmptyString.

Fixpoint quote_body (s : string) : string :=
  match s with
  | EmptyString => EmptyString
  | String c s' => quote_char c +:+ quote_body s'
  end.

Definition quote (s : string) : string :=
  String dquote (quote_body s +:+ String dquote EmptyString).

Fixpoint join (sep : string) (l : list string) : string :=
  match l with
  | [] => EmptyString
  | [x] => x
  | x :: l' => x +:+ sep +:+ join sep l'
  end.

(** [SerializeJSONProperty]: [None] is the result [undefined].  An array
    element that serializes to [undefined] is written [null]; an object
    property that serializes to [undefined] is skipped. *)
Fixpoint stringify (v : value) : option string :=
  match v with
  | Undefined => None
  | Null => Some "null"
  | Bool b => Some (if b then "true" else "false")
  | Num n => Some (pretty n)
  | Str s => Some (quote s)
  | Arr xs =>
    Some ("[" +:+ join "," (map (λ x, default "null" (stringify x)) xs) +:+ "]")
  | Obj ps =>
    let fix members (ps : list (string * value)) : list string :=
      match ps with
      | [] => []
      | (k, x) :: ps' =>
        match stringify x with
        | Some s => (quote k +:+ ":" +:+ s) :: members ps'
        | None => members ps'
        end
      end in
    Some ("{" +:+ join "," (members ps) +:+ "}")
  end.

End Js.

(** ** protocol.ts *)
Module Protocol.

Module Role.
Record AgentRole := {
  roleId : string;
  name : string;
  description : option string;
  systemPromptFragment : option string;
  allowedTools : option (list string);
  deniedTools : option (list string);
  maxConcurrent : option Z;
  priority : option Z;
}.
End Role.

Module Identity.
Record MultiAgentIdentity := {
  agentInstanceId : string;
  agentConfigId : string;
  gatewayId : string;
  roleId : option string;
  displayName : option string;
  capabilities : option (list string);
}.
End Identity.

(** [TaskResultPayload].  [status] is declared as a union of four literals
    but is an unchecked string at run time, so it stays a string here.  The
    fields [structuredOutput] and [usage] are stored with the result and
    never read by the tracker; they are left out. *)
Module TaskResult.
Record TaskResultPayload := {
  status : string;
  result : option string;
  error : option string;
  durationMs : option Z;
  workflowStepId : option string;
}.
End TaskResult.

Inductive MessageDirection := request | response | broadcast | event.

#[global] Instance MessageDirection_eq_dec : EqDecision MessageDirection.
Proof. solve_decision. Defined.

(** [MessageEnvelope]; [protocolVersion] is the literal "1.0". *)
Record MessageEnvelope := {
  messageId : string;
  correlationId : string;
  timestamp : string;
  from : Identity.MultiAgentIdentity;
  to : option Identity.MultiAgentIdentity;
  direction : MessageDirection;
  protocolVersion : string;
  signature : option string;
  ttlSeconds : option Z;
  hopCount : option Z;
}.

Record MultiAgentMessage := {
  envelope : MessageEnvelope;
  payload : Js.value;
}.

End Protocol.

(** ** work-tracker.ts *)
Module WorkTracker.
Import Protocol.Identity.
Local Open Scope Z_scope.

Inductive TaskStatus :=
| pending | assigned | in_progress | completed | failed | timeout | cancelled.

#[global] Instance TaskStatus_eq_dec : EqDecision TaskStatus.
Proof. solve_decision. Defined.

Record TrackedTask := {
  taskId : string;
  correlationId : string;
  task : string;
  status : TaskStatus;
  assignedTo : option MultiAgentIdentity;
  requestedBy : option MultiAgentIdentity;
  workflowStepId : option string;
  workflowPlanId : option string;
  priority : Z;
  createdAt : Z;
  assignedAt : option Z;
  startedAt : option Z;
  completedAt : option Z;
  deadline : option Z;
  progressPercent : option Z;
  statusLine : option string;
  result : option Protocol.TaskResult.TaskResultPayload;
  retryCount : Z;
  maxRetries : Z;
  tags : list string;
}.

(** The four private maps of the class. *)
Record State := {
  tasks : gmap string TrackedTask;
  agentTaskIndex : gmap string (gset string);
  workflowTaskIndex : gmap string (gset string);
  stepIndex : gmap string string;
}.

Definition empty : State :=
  {| tasks := ∅; agentTaskIndex := ∅; workflowTaskIndex := ∅; stepIndex := ∅ |}.

Record CreateOpts := {
  o_taskId : string;
  o_correlationId : string;
  o_task : string;
  o_requestedBy : option MultiAgentIdentity;
  o_workflowStepId : option string;
  o_workflowPlanId : option string;
  o_priority : option Z;
  o_deadline : option Z;
  o_maxRetries : option Z;
  o_tags : option (list string);
}.

(** [let set = idx.get(k); if (!set) { set = new Set(); idx.set(k, set) };
    set.add(id)] *)
Definition index_add (k id : string) (idx : gmap string (gset string))
  : gmap string (gset string) :=
  <[k := default ∅ (idx !! k) ∪ {[id]}]> idx.

(** [idx.get(k)?.delete(id)] *)
Definition index_remove (k id : string) (idx : gmap string (gset string))
  : gmap string (gset string) :=
  alter (λ s, s ∖ {[id]}) k idx.

Definition createTask (opts : CreateOpts) (now : Z) (st : State)
  : TrackedTask * State :=
  let tracked :=
    {| taskId := o_taskId opts;
       correlationId := o_correlationId opts;
       task := o_task opts;
       status := pending;
       assignedTo := None;
       requestedBy := o_requestedBy opts;
       workflowStepId := o_workflowStepId opts;
       workflowPlanId := o_workflowPlanId opts;
       priority := default 50 (o_priority opts);
       createdAt := now;
       assignedAt := None;
       startedAt := None;
       completedAt := None;
       deadline := None;
       progressPercent := None;
       statusLine := None;
       result := None;
       retryCount := 0;
       maxRetries := default 2 (o_maxRetries opts);
       tags := default [] (o_tags opts) |} in
  (tracked,
   {| tasks := <[taskId tracked := tracked]> (tasks st);
      agentTaskIndex := agentTaskIndex st;
      workflowTaskIndex :=
        match truthy (o_workflowPlanId opts) with
        | Some p => index_add p (taskId tracked) (workflowTaskIndex st)
        | None => workflowTaskIndex st
        end;
      stepIndex :=
        match truthy (o_workflowStepId opts) with
        | Some s => <[s := taskId tracked]> (stepIndex st)
        | None => stepIndex st
        end |}).

Definition assignTask (id : string) (agent : MultiAgentIdentity) (now : Z)
    (st : State) : bool * State :=
  match tasks st !! id with
  | None => (false, st)
  | Some t =>
    if negb (bool_decide (status t = pending))
       && negb (bool_decide (status t = failed))
    then (false, st)
    else
      let t' :=
        {| taskId := taskId t; correlationId := correlationId t;
           task := task t;
           status := assigned;
           assignedTo := Some agent;
           requestedBy := requestedBy t;
           workflowStepId := workflowStepId t;
           workflowPlanId := workflowPlanId t;
           priority := priority t; createdAt := createdAt t;
           assignedAt := Some now;
           startedAt := startedAt t; completedAt := completedAt t;
           deadline := deadline t; progressPercent := progressPercent t;
           statusLine := statusLine t; result := result t;
           retryCount := retryCount t; maxRetries := maxRetries t;
           tags := tags t |} in
      (true,
       {| tasks := <[id := t']> (tasks st);
          agentTaskIndex :=
            index_add (agentInstanceId agent) id (agentTaskIndex st);
          workflowTaskIndex := workflowTaskIndex st;
          stepIndex := stepIndex st |})
  end.

Definition startTask (id : string) (now : Z) (st : State) : bool * State :=
  match tasks st !! id with
  | None => (false, st)
  | Some t =>
    if negb (bool_decide (status t = assigned)) then (false, st)
    else
      let t' :=
        {| taskId := taskId t; correlationId := correlationId t;
           task := task t;
           status := in_progress;
           assignedTo := assignedTo t; requestedBy := requestedBy t;
           workflowStepId := workflowStepId t;
           workflowPlanId := workflowPlanId t;
           priority := priority t; createdAt := createdAt t;
           assignedAt := assignedAt t;
           startedAt := Some now;
           completedAt := completedAt t;
           deadline := deadline t; progressPercent := progressPercent t;
           statusLine := statusLine t; result := result t;
           retryCount := retryCount t; maxRetries := maxRetries t;
           tags := tags t |} in
      (true,
       {| tasks := <[id := t']> (tasks st);
          agentTaskIndex := agentTaskIndex st;
          workflowTaskIndex := workflowTaskIndex st;
          stepIndex := stepIndex st |})
  end.

(** [percent != null] and [statusLine != null] are tests for presence. *)
Definition updateProgress (id : string) (percent : option Z)
    (line : option string) (st : State) : bool * State :=
  match tasks st !! id with
  | None => (false, st)
  | Some t =>
    let t' :=
      {| taskId := taskId t; correlationId := correlationId t;
         task := task t; status := status t;
         assignedTo := assignedTo t; requestedBy := requestedBy t;
         workflowStepId := workflowStepId t;
         workflowPlanId := workflowPlanId t;
         priority := priority t; createdAt := createdAt t;
         assignedAt := assignedAt t; startedAt := startedAt t;
         completedAt := completedAt t; deadline := deadline t;
         progressPercent :=
           match percent with Some p => Some p | None => progressPercent t end;
         statusLine :=
           match line with Some l => Some l | None => statusLine t end;
         result := result t;
         retryCount := retryCount t; maxRetries := maxRetries t;
         tags := tags t |} in
    (true,
     {| tasks := <[id := t']> (tasks st);
        agentTaskIndex := agentTaskIndex st;
        workflowTaskIndex := workflowTaskIndex st;
        stepIndex := stepIndex st |})
  end.

(** The status a result maps to: the [if]/[else if]/[else] of
    [completeTask]. *)
Definition result_status (r : Protocol.TaskResult.TaskResultPayload)
  : TaskStatus :=
  let s := Protocol.TaskResult.status r in
  if String.eqb s "success" || String.eqb s "partial" then completed
  else if String.eqb s "timeout" then timeout
  else failed.

Definition completeTask (id : string)
    (r : Protocol.TaskResult.TaskResultPayload) (now : Z) (st : State)
  : bool * State :=
  match tasks st !! id with
  | None => (false, st)
  | Some t =>
    let t' :=
      {| taskId := taskId t; correlationId := correlationId t;
         task := task t;
         status := result_status r;
         assignedTo := assignedTo t; requestedBy := requestedBy t;
         workflowStepId := workflowStepId t;
         workflowPlanId := workflowPlanId t;
         priority := priority t; createdAt := createdAt t;
         assignedAt := assignedAt t; startedAt := startedAt t;
         completedAt := Some now;
         deadline := deadline t;
         progressPercent := Some 100;
         statusLine := statusLine t;
         result := Some r;
         retryCount := retryCount t; maxRetries := maxRetries t;
         tags := tags t |} in
    (true,
     {| tasks := <[id := t']> (tasks st);
        agentTaskIndex := agentTaskIndex st;
        workflowTaskIndex := workflowTaskIndex st;
        stepIndex := stepIndex st |})
  end.

Definition cancelTask (id : string) (now : Z) (st : State) : bool * State :=
  match tasks st !! id with
  | None => (false, st)
  | Some t =>
    if bool_decide (status t = completed)
       || bool_decide (status t = cancelled)
    then (false, st)
    else
      let t' :=
        {| taskId := taskId t; correlationId := correlationId t;
           task := task t;
           status := cancelled;
           assignedTo := assignedTo t; requestedBy := requestedBy t;
           workflowStepId := workflowStepId t;
           workflowPlanId := workflowPlanId t;
           priority := priority t; createdAt := createdAt t;
           assignedAt := assignedAt t; startedAt := startedAt t;
           completedAt := Some now;
           deadline := deadline t; progressPercent := progressPercent t;
           statusLine := statusLine t; result := result t;
           retryCount := retryCount t; maxRetries := maxRetries t;
           tags := tags t |} in
      (true,
       {| tasks := <[id := t']> (tasks st);
          agentTaskIndex := agentTaskIndex st;
          workflowTaskIndex := workflowTaskIndex st;
          stepIndex := stepIndex st |})
  end.

Definition retryTask (id : string) (st : State) : bool * State :=
  match tasks st !! id with
  | None => (false, st)
  | Some t =>
    if negb (bool_decide (status t = failed))
       && negb (bool_decide (status t = timeout))
    then (false, st)
    else if maxRetries t <=? retryCount t then (false, st)
    else
      let t' :=
        {| taskId := taskId t; correlationId := correlationId t;
           task := task t;
           status := pending;
           assignedTo := None;
           requestedBy := requestedBy t;
           workflowStepId := workflowStepId t;
           workflowPlanId := workflowPlanId t;
           priority := priority t; createdAt := createdAt t;
           assignedAt := None; startedAt := None; completedAt := None;
           deadline := deadline t;
           progressPercent := None; statusLine := None; result := None;
           retryCount := retryCount t + 1;
           maxRetries := maxRetries t;
           tags := tags t |} in
      (true,
       {| tasks := <[id := t']> (tasks st);
          agentTaskIndex := agentTaskIndex st;
          workflowTaskIndex := workflowTaskIndex st;
          stepIndex := stepIndex st |})
  end.

Definition getTask (id : string) (st : State) : option TrackedTask :=
  tasks st !! id.

(** The condition of the [if] in the loop of [cleanup]:
    [(completed || cancelled || failed) && (completedAt ?? createdAt) < cutoff]. *)
Definition removable (cutoff : Z) (t : TrackedTask) : bool :=
  (bool_decide (status t = completed)
   || bool_decide (status t = cancelled)
   || bool_decide (status t = failed))
  && (default (createdAt t) (completedAt t) <? cutoff).

(** One iteration of the loop [for (const [taskId, task] of this.tasks)];
    the accumulator is the tracker and the counter [removed]. *)
Definition cleanup_body (cutoff : Z) (acc : State * Z)
    (kv : string * TrackedTask) : State * Z :=
  if removable cutoff kv.2 then
    ({| tasks := delete kv.1 (tasks acc.1);
        agentTaskIndex :=
          match assignedTo kv.2 with
          | Some a => index_remove (agentInstanceId a) kv.1 (agentTaskIndex acc.1)
          | None => agentTaskIndex acc.1
          end;
        workflowTaskIndex :=
          match truthy (workflowPlanId kv.2) with
          | Some p => index_remove p kv.1 (workflowTaskIndex acc.1)
          | None => workflowTaskIndex acc.1
          end;
        stepIndex :=
          match truthy (workflowStepId kv.2) with
          | Some s => delete s (stepIndex acc.1)
          | None => stepIndex acc.1
          end |},
     acc.2 + 1)
  else acc.

(** [cleanup(maxAgeMs)].  The loop deletes only the entry it is visiting, so
    it visits exactly the entries present when it starts; every iteration
    only deletes, so the order of the visits does not show in the result. *)
Definition cleanup (maxAgeMs : Z) (now : Z) (st : State) : Z * State :=
  let cutoff := now - maxAgeMs in
  let r := foldl (cleanup_body cutoff) (st, 0) (map_to_list (tasks st)) in
  (r.2, r.1).

(** The default argument: [24 * 60 * 60 * 1000]. *)
Definition cleanup_default_maxAgeMs : Z := 24 * 60 * 60 * 1000.

End WorkTracker.

(** ** role-manager.ts *)
Module RoleManager.
Import Protocol.Role.
Local Open Scope Z_scope.

Record RoleAssignment := {
  agentInstanceId : string;
  agentConfigId : string;
  gatewayId : string;
  role : AgentRole;
  assignedAt : Z;
  assignedBy : string;
}.

Record State := {
  roles : gmap string AgentRole;
  assignments : gmap string RoleAssignment;
}.

Definition BUILT_IN_ROLES : list AgentRole :=
  [ {| roleId := "orchestrator";
       name := "Orchestrator";
       description := Some
         "Coordinates work across agents. Decomposes goals into tasks, assigns them, monitors progress, and synthesizes results.";
       systemPromptFragment := Some
"You are the orchestrator. Your job is to:
1. Break down the user's goal into discrete tasks
2. Assign each task to the most appropriate agent based on their role and capabilities
3. Monitor progress and handle failures (retry, reassign, or escalate)
4. Synthesize results from all agents into a coherent response
5. Never perform tasks directly — always delegate to specialist agents";
       allowedTools := Some [];
       deniedTools := None;
       maxConcurrent := Some 2;
       priority := Some 100 |};
    {| roleId := "researcher";
       name := "Researcher";
       description := Some
         "Gathers information from tools, APIs, and knowledge bases. Does not make changes to systems.";
       systemPromptFragment := Some
"You are a researcher. Your job is to:
1. Search for and gather relevant information
2. Analyze and summarize findings
3. Provide well-sourced answers with references
4. Flag when information is uncertain or conflicting
You must NOT modify files, execute commands that change state, or make decisions — only inform.";
       allowedTools := None;
       deniedTools := Some ["exec"; "fs_write"; "fs_delete"; "fs_move"; "apply_patch"];
       maxConcurrent := None;
       priority := Some 50 |};
    {| roleId := "coder";
       name := "Coder";
       description := Some
         "Writes, modifies, and reviews code. Has access to filesystem and execution tools within sandboxed environments.";
       systemPromptFragment := Some
"You are a coder. Your job is to:
1. Write clean, well-tested, idiomatic code
2. Follow the project's coding standards and patterns
3. Run tests after making changes
4. Report results clearly with file paths and line numbers";
       allowedTools := None;
       deniedTools := None;
       maxConcurrent := None;
       priority := Some 60 |};
    {| roleId := "reviewer";
       name := "Reviewer";
       description := Some
         "Reviews work products from other agents. Checks for correctness, security, and adherence to standards.";
       systemPromptFragment := Some
"You are a reviewer. Your job is to:
1. Review code, documents, or other artifacts for quality
2. Check for security vulnerabilities, bugs, and anti-patterns
3. Verify adherence to project standards
4. Provide specific, actionable feedback
You must NOT make changes directly — only review and report findings.";
       allowedTools := None;
       deniedTools := Some ["exec"; "fs_write"; "fs_delete"; "fs_move"; "apply_patch"];
       maxConcurrent := None;
       priority := Some 70 |};
    {| roleId := "monitor";
       name := "Monitor";
       description := Some
         "Observes system health, tracks task progress, and raises alerts on anomalies or deadline risks.";
       systemPromptFragment := Some
"You are a monitor. Your job is to:
1. Track the status of all active tasks and agents
2. Detect anomalies (stalled tasks, high error rates, resource exhaustion)
3. Report progress summaries periodically
4. Alert the orchestrator about deadline risks or failures";
       allowedTools := None;
       deniedTools := Some ["exec"; "fs_write"; "fs_delete"; "fs_move"; "apply_patch"];
       maxConcurrent := Some 1;
       priority := Some 80 |};
    {| roleId := "executor";
       name := "Executor";
       description := Some
         "Executes approved commands and scripts. Only acts on explicit, pre-approved instructions.";
       systemPromptFragment := Some
"You are an executor. Your job is to:
1. Execute commands that have been explicitly approved
2. Report execution results faithfully
3. Stop immediately if a command fails and report the error
4. Never improvise or execute unapproved actions";
       allowedTools := None;
       deniedTools := None;
       maxConcurrent := Some 4;
       priority := Some 40 |} ].

(** The constructor: both maps empty, then the built-in roles seeded. *)
Definition new : State :=
  {| roles := foldl (λ m r, <[roleId r := r]> m) ∅ BUILT_IN_ROLES;
     assignments := ∅ |}.

Definition defineRole (r : AgentRole) (st : State) : State :=
  {| roles := <[roleId r := r]> (roles st); assignments := assignments st |}.

(** [Map.delete] returns whether the key was present. *)
Definition removeRole (rid : string) (st : State) : bool * State :=
  (bool_decide (is_Some (roles st !! rid)),
   {| roles := delete rid (roles st); assignments := assignments st |}).

Definition getRole (rid : string) (st : State) : option AgentRole :=
  roles st !! rid.

(** [let count = 0; for (const a of assignments.values()) if (...) count++] *)
Definition countAgentsWithRole (rid : string) (st : State) : Z :=
  map_fold (λ _ a count,
              if String.eqb (roleId (role a)) rid then count + 1 else count)
           0 (assignments st).

(** [currentAssignment?.role.roleId === roleId] *)
Definition alreadyHasRole (agentInstance rid : string) (st : State) : bool :=
  match assignments st !! agentInstance with
  | Some cur => String.eqb (roleId (role cur)) rid
  | None => false
  end.

Definition assignRole (agent : Protocol.Identity.MultiAgentIdentity)
    (rid : string) (by_ : string) (now : Z) (st : State)
  : option RoleAssignment * State :=
  match roles st !! rid with
  | None => (None, st)
  | Some r =>
    let blocked :=
      match maxConcurrent r with
      | Some k =>
        negb (alreadyHasRole (Protocol.Identity.agentInstanceId agent) rid st)
        && (k <=? countAgentsWithRole rid st)
      | None => false
      end in
    if blocked then (None, st)
    else
      let a :=
        {| agentInstanceId := Protocol.Identity.agentInstanceId agent;
           agentConfigId := Protocol.Identity.agentConfigId agent;
           gatewayId := Protocol.Identity.gatewayId agent;
           role := r;
           assignedAt := now;
           assignedBy := by_ |} in
      (Some a,
       {| roles := roles st;
          assignments := <[agentInstanceId a := a]> (assignments st) |})
  end.

Definition unassignRole (agentInstance : string) (st : State) : bool * State :=
  (bool_decide (is_Some (assignments st !! agentInstance)),
   {| roles := roles st;
      assignments := delete agentInstance (assignments st) |}).

Definition getAssignment (agentInstance : string) (st : State)
  : option RoleAssignment :=
  assignments st !! agentInstance.

(** [getAgentsWithRole]: the assignments with that role id.  They come in
    the order of the [gmap], not in insertion order; the orchestrator uses
    the result as a set of agent ids. *)
Definition getAgentsWithRole (rid : string) (st : State)
  : list RoleAssignment :=
  filter (λ a, roleId (role a) = rid) (map_to_list (assignments st)).*2.

(** [importState]: both maps cleared, then every element set in order (a
    later element with the same key wins). *)
Definition importState (rs : list AgentRole) (asg : list RoleAssignment)
  : State :=
  {| roles := foldl (λ m r, <[roleId r := r]> m) ∅ rs;
     assignments := foldl (λ m a, <[agentInstanceId a := a]> m) ∅ asg |}.

(** The operations of the claim as data, to speak of sequences of them. *)
Inductive Op :=
| OpDefineRole (r : AgentRole)
| OpRemoveRole (rid : string)
| OpAssignRole (agent : Protocol.Identity.MultiAgentIdentity)
               (rid : string) (by_ : string) (now : Z)
| OpUnassignRole (agentInstance : string)
| OpImportState (rs : list AgentRole) (asg : list RoleAssignment).

Definition apply (st : State) (op : Op) : State :=
  match op with
  | OpDefineRole r => defineRole r st
  | OpRemoveRole rid => (removeRole rid st).2
  | OpAssignRole agent rid by_ now => (assignRole agent rid by_ now st).2
  | OpUnassignRole i => (unassignRole i st).2
  | OpImportState rs asg => importState rs asg
  end.

Definition run (ops : list Op) (st : State) : State := foldl apply st ops.

(** The operations that install roles or assignments without consulting the
    quota. *)
Definition unchecked (op : Op) : bool :=
  match op with
  | OpDefineRole _ | OpImportState _ _ => true
  | _ => false
  end.

End RoleManager.

(** ** message-router.ts *)
Module Router.
Import Protocol.
Local Open Scope Z_scope.

Inductive PeerStatus := connected | connecting | disconnected.

#[global] Instance PeerStatus_eq_dec : EqDecision PeerStatus.
Proof. solve_decision. Defined.

Record PeerGateway := {
  gatewayId : string;
  endpoint : string;
  publicKey : option string;
  lastSeen : Z;
  status : PeerStatus;
}.

(** A handler is a JavaScript function with effects of its own; the router
    only calls it.  It is named by a number, and a call is recorded as an
    effect of [route]. *)
Record Subscription := {
  payloadType : option string;
  fromAgentConfigId : option string;
  fromRoleId : option string;
  handler : nat;
}.

Definition MAX_HOP_COUNT : Z := 16.
Definition maxSeenSize : Z := 10000.

(** [peerGateways] and [localAgents] are [Map]s and [seenMessages] is a
    [Set]; all three are iterated, so they keep their insertion order. *)
Record State := {
  localGatewayId : string;
  subscriptions : list Subscription;
  peerGateways : list (string * PeerGateway);
  localAgents : list (string * Identity.MultiAgentIdentity);
  seenMessages : list string;
}.

Definition new (gatewayId : string) : State :=
  {| localGatewayId := gatewayId; subscriptions := []; peerGateways := [];
     localAgents := []; seenMessages := [] |}.

(** What [route] does to the outside: a handler called with a message, or
    [sendToPeer] called with a peer and a message. *)
Inductive Effect :=
| Delivered (sub : Subscription) (m : MultiAgentMessage)
| SentToPeer (peer : PeerGateway) (m : MultiAgentMessage).

Definition is_delivery (e : Effect) : bool :=
  match e with Delivered _ _ => true | SentToPeer _ _ => false end.

Definition is_forward (e : Effect) : bool :=
  match e with Delivered _ _ => false | SentToPeer _ _ => true end.

(** [Map.prototype.set]: an existing key keeps its place. *)
Fixpoint map_set {V} (k : string) (v : V) (m : list (string * V))
  : list (string * V) :=
  match m with
  | [] => [(k, v)]
  | (k', v') :: m' =>
    if String.eqb k' k then (k, v) :: m' else (k', v') :: map_set k v m'
  end.

Fixpoint map_delete {V} (k : string) (m : list (string * V))
  : list (string * V) :=
  match m with
  | [] => []
  | (k', v') :: m' =>
    if String.eqb k' k then m' else (k', v') :: map_delete k m'
  end.

(** [Set.prototype.has] and [Set.prototype.add]. *)
Fixpoint set_has (x : string) (s : list string) : bool :=
  match s with
  | [] => false
  | y :: s' => String.eqb y x || set_has x s'
  end.

Definition set_add (x : string) (s : list string) : list string :=
  if set_has x s then s else s ++ [x].

Definition registerLocalAgent (a : Identity.MultiAgentIdentity) (st : State)
  : State :=
  {| localGatewayId := localGatewayId st; subscriptions := subscriptions st;
     peerGateways := peerGateways st;
     localAgents := map_set (Identity.agentInstanceId a) a (localAgents st);
     seenMessages := seenMessages st |}.

Definition unregisterLocalAgent (id : string) (st : State) : State :=
  {| localGatewayId := localGatewayId st; subscriptions := subscriptions st;
     peerGateways := peerGateways st;
     localAgents := map_delete id (localAgents st);
     seenMessages := seenMessages st |}.

Definition registerPeer (p : PeerGateway) (st : State) : State :=
  {| localGatewayId := localGatewayId st; subscriptions := subscriptions st;
     peerGateways := map_set (gatewayId p) p (peerGateways st);
     localAgents := localAgents st; seenMessages := seenMessages st |}.

Definition removePeer (id : string) (st : State) : State :=
  {| localGatewayId := localGatewayId st; subscriptions := subscriptions st;
     peerGateways := map_delete id (peerGateways st);
     localAgents := localAgents st; seenMessages := seenMessages st |}.

Definition subscribe (sub : Subscription) (st : State) : State :=
  {| localGatewayId := localGatewayId st;
     subscriptions := subscriptions st ++ [sub];
     peerGateways := peerGateways st;
     localAgents := localAgents st; seenMessages := seenMessages st |}.

(** [trackSeen]: add, and past [maxSeenSize] delete the first
    [size - floor(maxSeenSize * 0.8)] ids the iterator yields, which are the
    oldest.  [floor(10000 * 0.8)] is 8000. *)
Definition trackSeen (id : string) (seen : list string) : list string :=
  let seen' := set_add id seen in
  let size := Z.of_nat (length seen') in
  if maxSeenSize <? size
  then drop (Z.to_nat (size - 8000)) seen'
  else seen'.

(** A subscription filter [f] lets a value through unless
    [f && f !== actual]. *)
Definition filter_rejects (f : option string) (actual : option string) : bool :=
  match truthy f with
  | Some s =>
    match actual with
    | Some a => negb (String.eqb s a)
    | None => true
    end
  | None => false
  end.

(** [message.payload.type] where it is a string. *)
Definition payload_type (p : Js.value) : option string :=
  match Js.get p "type" with
  | Js.Str s => Some s
  | _ => None
  end.

Definition sub_matches (m : MultiAgentMessage) (sub : Subscription) : bool :=
  negb (filter_rejects (payloadType sub) (payload_type (payload m)))
  && negb (filter_rejects (fromAgentConfigId sub)
             (Some (Identity.agentConfigId (from (envelope m)))))
  && negb (filter_rejects (fromRoleId sub)
             (Identity.roleId (from (envelope m)))).

(** [deliverLocally]: the handlers of the matching subscriptions, in
    subscription order.  What a handler throws or rejects is caught and
    logged. *)
Fixpoint deliverLocally (m : MultiAgentMessage) (subs : list Subscription)
  : list Effect :=
  match subs with
  | [] => []
  | sub :: subs' =>
    if sub_matches m sub
    then Delivered sub m :: deliverLocally m subs'
    else deliverLocally m subs'
  end.

(** The copy of the message that is forwarded: [hopCount] one higher. *)
Definition bump (m : MultiAgentMessage) : MultiAgentMessage :=
  let e := envelope m in
  {| envelope :=
       {| messageId := messageId e; correlationId := correlationId e;
          timestamp := timestamp e; from := from e; to := to e;
          direction := direction e; protocolVersion := protocolVersion e;
          signature := signature e; ttlSeconds := ttlSeconds e;
          hopCount := Some (default 0 (hopCount e) + 1) |};
     payload := payload m |}.

Fixpoint forward_loop (bumped : MultiAgentMessage)
    (peers : list (string * PeerGateway)) : list Effect :=
  match peers with
  | [] => []
  | (_, peer) :: peers' =>
    if negb (bool_decide (status peer = connected))
    then forward_loop bumped peers'
    else
      match to (envelope bumped) with
      | Some t =>
        if negb (String.eqb (Identity.gatewayId t) (gatewayId peer))
        then forward_loop bumped peers'
        else SentToPeer peer bumped :: forward_loop bumped peers'
      | None => SentToPeer peer bumped :: forward_loop bumped peers'
      end
  end.

Definition forwardToRemote (m : MultiAgentMessage)
    (peers : list (string * PeerGateway)) : list Effect :=
  forward_loop (bump m) peers.

Section WithClock.

(** [new Date(s).getTime()]: the milliseconds of an ISO-8601 string, [None]
    where JavaScript has [NaN]. *)
Variable Date_getTime : string → option Z.

(** [ttlSeconds != null] and [(Date.now() - t) / 1000 > ttlSeconds]; with
    [NaN] the comparison is false. *)
Definition expired (now : Z) (e : MessageEnvelope) : bool :=
  match ttlSeconds e with
  | Some ttl =>
    match Date_getTime (timestamp e) with
    | Some t => ttl * 1000 <? now - t
    | None => false
    end
  | None => false
  end.

Definition with_seen (seen : list string) (st : State) : State :=
  {| localGatewayId := localGatewayId st; subscriptions := subscriptions st;
     peerGateways := peerGateways st; localAgents := localAgents st;
     seenMessages := seen |}.

Definition route (now : Z) (m : MultiAgentMessage) (st : State)
  : State * list Effect :=
  let e := envelope m in
  if set_has (messageId e) (seenMessages st) then (st, [])
  else
    let st' := with_seen (trackSeen (messageId e) (seenMessages st)) st in
    if expired now e then (st', [])
    else if MAX_HOP_COUNT <=? default 0 (hopCount e) then (st', [])
    else
      let isLocalTarget :=
        match to e with
        | None => true
        | Some t => String.eqb (Identity.gatewayId t) (localGatewayId st)
        end in
      let isRemoteTarget :=
        match to e with
        | None => false
        | Some t => negb (String.eqb (Identity.gatewayId t) (localGatewayId st))
        end in
      let isBroadcast := bool_decide (direction e = broadcast) in
      (st',
       (if isLocalTarget || isBroadcast
        then deliverLocally m (subscriptions st') else [])
       ++
       (if isRemoteTarget || isBroadcast
        then forwardToRemote m (peerGateways st') else [])).

(** [send]: the two [randomUUID()] results and the ISO string of the current
    time are arguments. *)
Definition send (from_ : Identity.MultiAgentIdentity)
    (to_ : option Identity.MultiAgentIdentity) (p : Js.value)
    (o_correlationId : option string) (o_direction : option MessageDirection)
    (o_ttlSeconds : option Z)
    (uuid1 uuid2 iso : string) (now : Z) (st : State)
  : MessageEnvelope * (State * list Effect) :=
  let e :=
    {| messageId := uuid1;
       correlationId := default uuid2 o_correlationId;
       timestamp := iso;
       from := from_;
       to := to_;
       direction :=
         default (match to_ with Some _ => request | None => broadcast end)
                 o_direction;
       protocolVersion := "1.0";
       signature := None;
       ttlSeconds := o_ttlSeconds;
       hopCount := Some 0 |} in
  (e, route now {| envelope := e; payload := p |} st).

(** A run of [route] calls, each with its reading of the clock; the effects
    of the calls are collected call by call. *)
Fixpoint route_all (calls : list (Z * MultiAgentMessage)) (st : State)
  : State * list (list Effect) :=
  match calls with
  | [] => (st, [])
  | (now, m) :: calls' =>
    let r := route now m st in
    let r' := route_all calls' r.1 in
    (r'.1, r.2 :: r'.2)
  end.

End WithClock.

End Router.

(** ** node:crypto and Buffer: the functions [security.ts] calls

    [createHmac("sha256", key).update(data).digest("base64")],
    [Buffer.from(s, "base64")] and [timingSafeEqual] are library functions;
    they are written out here (FIPS 180-4, RFC 2104, RFC 4648) so that the
    signing code runs.  A byte is an integer in [0, 256), a word one in
    [0, 2^32). *)
Module Crypto.
Local Open Scope Z_scope.

(** The UTF-8 bytes of a string ([Buffer.from(s, "utf8")]). *)
Definition bytes_of_string (s : string) : list Z :=
  map (λ c, Z.of_N (N_of_ascii c)) (list_ascii_of_string s).

Definition mask32 : Z := 0xffffffff.
Definition w32 (x : Z) : Z := Z.land x mask32.
Definition add32 (x y : Z) : Z := w32 (x + y).
Definition rotr (n x : Z) : Z :=
  Z.lor (Z.shiftr x n) (w32 (Z.shiftl x (32 - n))).
Definition not32 (x : Z) : Z := Z.lxor x mask32.

Definition Ch (x y z : Z) : Z := Z.lxor (Z.land x y) (Z.land (not32 x) z).
Definition Maj (x y z : Z) : Z :=
  Z.lxor (Z.lxor (Z.land x y) (Z.land x z)) (Z.land y z).
Definition Sigma0 (x : Z) : Z := Z.lxor (Z.lxor (rotr 2 x) (rotr 13 x)) (rotr 22 x).
Definition Sigma1 (x : Z) : Z := Z.lxor (Z.lxor (rotr 6 x) (rotr 11 x)) (rotr 25 x).
Definition sigma0 (x : Z) : Z := Z.lxor (Z.lxor (rotr 7 x) (rotr 18 x)) (Z.shiftr x 3).
Definition sigma1 (x : Z) : Z := Z.lxor (Z.lxor (rotr 17 x) (rotr 19 x)) (Z.shiftr x 10).

(** The constants of FIPS 180-4 are defined from the first primes: the
    round constants are the first 32 bits of the fractional parts of the
    cube roots of the first 64 primes, the initial hash value those of the
    square roots of the first 8. *)
Definition is_prime (p : Z) : bool :=
  (1 <? p) && forallb (λ d, negb (p mod d =? 0)) (seqZ 2 (p - 2)).

Definition primes64 : list Z := List.filter is_prime (seqZ 2 310).

(** The integer cube root, bit by bit from the top. *)
Fixpoint icbrt_bits (bits : nat) (n r : Z) : Z :=
  match bits with
  | O => r
  | S bits' =>
    let r' := r + 2 ^ Z.of_nat bits' in
    icbrt_bits bits' n (if r' * r' * r' <=? n then r' else r)
  end.

Definition icbrt (n : Z) : Z := icbrt_bits 40 n 0.

Definition frac_cbrt32 (p : Z) : Z := icbrt (p * 2 ^ 96) mod 2 ^ 32.
Definition frac_sqrt32 (p : Z) : Z := Z.sqrt (p * 2 ^ 64) mod 2 ^ 32.

Definition K256 : list Z := frac_cbrt32 <$> primes64.

(** The eight working variables, and the hash value between blocks. *)
Record Regs := {
  ra : Z; rb : Z; rc : Z; rd : Z; re : Z; rf : Z; rg : Z; rh : Z;
}.

Definition H0 : Regs :=
  {| ra := frac_sqrt32 2; rb := frac_sqrt32 3; rc := frac_sqrt32 5;
     rd := frac_sqrt32 7; re := frac_sqrt32 11; rf := frac_sqrt32 13;
     rg := frac_sqrt32 17; rh := frac_sqrt32 19 |}.

(** The message schedule, from a window of the last sixteen words. *)
Definition next_word (w : list Z) : Z :=
  add32 (add32 (add32 (sigma1 (nth 14 w 0)) (nth 9 w 0)) (sigma0 (nth 1 w 0)))
        (nth 0 w 0).

Fixpoint schedule (n : nat) (w : list Z) : list Z :=
  match n with
  | O => []
  | S n' => nth 0 w 0 :: schedule n' (tail w ++ [next_word w])
  end.

Definition round (r : Regs) (kw : Z * Z) : Regs :=
  let t1 :=
    add32 (add32 (add32 (add32 (rh r) (Sigma1 (re r))) (Ch (re r) (rf r) (rg r)))
                 kw.1) kw.2 in
  let t2 := add32 (Sigma0 (ra r)) (Maj (ra r) (rb r) (rc r)) in
  {| ra := add32 t1 t2; rb := ra r; rc := rb r; rd := rc r;
     re := add32 (rd r) t1; rf := re r; rg := rf r; rh := rg r |}.

Definition be32 (b0 b1 b2 b3 : Z) : Z :=
  Z.lor (Z.lor (Z.shiftl b0 24) (Z.shiftl b1 16)) (Z.lor (Z.shiftl b2 8) b3).

Fixpoint words (bs : list Z) : list Z :=
  match bs with
  | b0 :: b1 :: b2 :: b3 :: bs' => be32 b0 b1 b2 b3 :: words bs'
  | _ => []
  end.

Definition compress (h : Regs) (block : list Z) : Regs :=
  let r := foldl round h (zip K256 (schedule 64 (words block))) in
  {| ra := add32 (ra h) (ra r); rb := add32 (rb h) (rb r);
     rc := add32 (rc h) (rc r); rd := add32 (rd h) (rd r);
     re := add32 (re h) (re r); rf := add32 (rf h) (rf r);
     rg := add32 (rg h) (rg r); rh := add32 (rh h) (rh r) |}.

Fixpoint blocks (n : nat) (bs : list Z) : list (list Z) :=
  match n with
  | O => []
  | S n' => take 64 bs :: blocks n' (drop 64 bs)
  end.

Definition byte_of (x shift : Z) : Z := Z.land (Z.shiftr x shift) 255.

Definition be_bytes32 (x : Z) : list Z :=
  [byte_of x 24; byte_of x 16; byte_of x 8; byte_of x 0].

Definition be_bytes64 (x : Z) : list Z :=
  [byte_of x 56; byte_of x 48; byte_of x 40; byte_of x 32;
   byte_of x 24; byte_of x 16; byte_of x 8; byte_of x 0].

(** The message, the byte 0x80, zeros up to 56 modulo 64, and the length in
    bits on eight bytes. *)
Definition pad (msg : list Z) : list Z :=
  let l := Z.of_nat (length msg) in
  msg ++ [128] ++ replicate (Z.to_nat ((55 - l) mod 64)) 0 ++ be_bytes64 (8 * l).

Definition digest_bytes (h : Regs) : list Z :=
  be_bytes32 (ra h) ++ be_bytes32 (rb h) ++ be_bytes32 (rc h)
  ++ be_bytes32 (rd h) ++ be_bytes32 (re h) ++ be_bytes32 (rf h)
  ++ be_bytes32 (rg h) ++ be_bytes32 (rh h).

Definition sha256 (msg : list Z) : list Z :=
  let p := pad msg in
  digest_bytes (foldl compress H0 (blocks (length p / 64) p)).

(** HMAC with a block of 64 bytes: a longer key is hashed first. *)
Definition hmac_key (key : list Z) : list Z :=
  let k := if (64 <? Z.of_nat (length key)) then sha256 key else key in
  k ++ replicate (64 - length k) 0.

Definition hmac_sha256 (key msg : list Z) : list Z :=
  let k := hmac_key key in
  sha256 (map (Z.lxor 0x5c) k ++ sha256 (map (Z.lxor 0x36) k ++ msg)).

(** *** base64 *)

Definition alphabet : list ascii :=
  list_ascii_of_string
    "ABCDEFGHIJKLMNOPQRSTUVWXYZabcdefghijklmnopqrstuvwxyz0123456789+/".

Definition b64_char (sextet : Z) : ascii :=
  nth (Z.to_nat sextet) alphabet "A"%char.

Definition pad_char : ascii := "="%char.

(** [digest("base64")]: three bytes give four characters; one or two bytes
    left over give two or three characters and padding. *)
Fixpoint base64_encode (bs : list Z) : string :=
  match bs with
  | [] => EmptyString
  | [b0] =>
    String (b64_char (b0 / 4))
      (String (b64_char (b0 mod 4 * 16))
         (String pad_char (String pad_char EmptyString)))
  | [b0; b1] =>
    String (b64_char (b0 / 4))
      (String (b64_char (b0 mod 4 * 16 + b1 / 16))
         (String (b64_char (b1 mod 16 * 4))
            (String pad_char EmptyString)))
  | b0 :: b1 :: b2 :: bs' =>
    String (b64_char (b0 / 4))
      (String (b64_char (b0 mod 4 * 16 + b1 / 16))
         (String (b64_char (b1 mod 16 * 4 + b2 / 64))
            (String (b64_char (b2 mod 64)) (base64_encode bs'))))
  end.

(** The value of a character in either base64 alphabet. *)
Definition unbase64 (c : ascii) : option Z :=
  let n := Z.of_N (N_of_ascii c) in
  if (65 <=? n) && (n <=? 90) then Some (n - 65)
  else if (97 <=? n) && (n <=? 122) then Some (n - 71)
  else if (48 <=? n) && (n <=? 57) then Some (n + 4)
  else if (n =? 43) || (n =? 45) then Some 62
  else if (n =? 47) || (n =? 95) then Some 63
  else None.

(** The decoder of [Buffer.from(s, "base64")] skips the characters outside
    the alphabets and stops at the first padding character. *)
Fixpoint sextets (s : string) : list Z :=
  match s with
  | EmptyString => []
  | String c s' =>
    if Ascii.eqb c pad_char then []
    else
      match unbase64 c with
      | Some v => v :: sextets s'
      | None => sextets s'
      end
  end.

Fixpoint decode_groups (l : list Z) : list Z :=
  match l with
  | s0 :: s1 :: s2 :: s3 :: l' =>
    (s0 * 4 + s1 / 16) :: (s1 mod 16 * 16 + s2 / 4) :: (s2 mod 4 * 64 + s3)
    :: decode_groups l'
  | [s0; s1; s2] => [s0 * 4 + s1 / 16; s1 mod 16 * 16 + s2 / 4]
  | [s0; s1] => [s0 * 4 + s1 / 16]
  | _ => []
  end.

Definition base64_decode (s : string) : list Z := decode_groups (sextets s).

Fixpoint bytes_eqb (a b : list Z) : bool :=
  match a, b with
  | [], [] => true
  | x :: a', y :: b' => (x =? y) && bytes_eqb a' b'
  | _, _ => false
  end.

(** [timingSafeEqual(a, b)] throws a [RangeError] when the lengths differ
    ([None]) and compares the bytes otherwise. *)
Definition timingSafeEqual (a b : list Z) : option bool :=
  if (length a =? length b)%nat then Some (bytes_eqb a b) else None.

Fixpoint hex (bs : list Z) : string :=
  match bs with
  | [] => EmptyString
  | b :: bs' =>
    String (Js.hex_digit (Z.to_N (b / 16)))
      (String (Js.hex_digit (Z.to_N (b mod 16))) (hex bs'))
  end.

End Crypto.

(** ** security.ts *)
Module Security.
Import Protocol.
Local Open Scope Z_scope.

Inductive AgentPermission :=
| task_assign | task_cancel | role_assign | role_manage
| agent_register | agent_unregister | workflow_create | workflow_abort
| config_read | config_write | report_read | report_export.

#[global] Instance AgentPermission_eq_dec : EqDecision AgentPermission.
Proof. solve_decision. Defined.

Definition permission_name (p : AgentPermission) : string :=
  match p with
  | task_assign => "task.assign" | task_cancel => "task.cancel"
  | role_assign => "role.assign" | role_manage => "role.manage"
  | agent_register => "agent.register" | agent_unregister => "agent.unregister"
  | workflow_create => "workflow.create" | workflow_abort => "workflow.abort"
  | config_read => "config.read" | config_write => "config.write"
  | report_read => "report.read" | report_export => "report.export"
  end.

Module Policy.
Record AgentSecurityPolicy := {
  agentId : string;
  permissions : list AgentPermission;
  networkAllowlist : list string;
  maxConcurrentTasks : Z;
  maxMessagesPerMinute : Z;
  allowCrossGateway : bool;
}.
End Policy.
Import Policy.

Module Audit.
Record SecurityAuditEntry := {
  timestamp : Z;
  agentId : string;
  action : string;
  allowed : bool;
  reason : option string;
  sourceIp : option string;
}.
End Audit.

(** A value of the [rateLimiter] map. *)
Record RateEntry := {
  count : Z;
  windowStart : Z;
}.

Record State := {
  policies : gmap string AgentSecurityPolicy;
  sharedSecret : list Z;
  auditLog : list Audit.SecurityAuditEntry;
  auditTrimPending : bool;
  rateLimiter : gmap string RateEntry;
}.

Definition DEFAULT_PERMISSIONS : list AgentPermission :=
  [task_assign; report_read; config_read].

Definition maxAuditEntries : Z := 10000.

(** The constructor; [random] stands for [randomBytes(32)]. *)
Definition new (secret : option string) (random : list Z) : State :=
  {| policies := ∅;
     sharedSecret :=
       match truthy secret with
       | Some s => Crypto.bytes_of_string s
       | None => random
       end;
     auditLog := [];
     auditTrimPending := false;
     rateLimiter := ∅ |}.

Definition setPolicy (p : AgentSecurityPolicy) (st : State) : State :=
  {| policies := <[Policy.agentId p := p]> (policies st);
     sharedSecret := sharedSecret st; auditLog := auditLog st;
     auditTrimPending := auditTrimPending st; rateLimiter := rateLimiter st |}.

Definition removePolicy (id : string) (st : State) : State :=
  {| policies := delete id (policies st);
     sharedSecret := sharedSecret st; auditLog := auditLog st;
     auditTrimPending := auditTrimPending st; rateLimiter := rateLimiter st |}.

Definition getPolicy (id : string) (st : State) : AgentSecurityPolicy :=
  default
    {| Policy.agentId := id;
       permissions := DEFAULT_PERMISSIONS;
       networkAllowlist := [];
       maxConcurrentTasks := 8;
       maxMessagesPerMinute := 120;
       allowCrossGateway := false |}
    (policies st !! id).

(** [logAudit]: push; past [maxAuditEntries] with no trim pending, set the
    flag and queue the trim as a microtask.  The microtask runs after the
    caller has returned; it is the operation [auditTrim]. *)
Definition logAudit (e : Audit.SecurityAuditEntry) (st : State) : State :=
  let log := auditLog st ++ [e] in
  {| policies := policies st; sharedSecret := sharedSecret st;
     auditLog := log;
     auditTrimPending :=
       if (maxAuditEntries <? Z.of_nat (length log))
          && negb (auditTrimPending st)
       then true else auditTrimPending st;
     rateLimiter := rateLimiter st |}.

(** The queued microtask; [floor(maxAuditEntries * 0.2)] is 2000. *)
Definition auditTrim (st : State) : State :=
  {| policies := policies st; sharedSecret := sharedSecret st;
     auditLog :=
       if maxAuditEntries <? Z.of_nat (length (auditLog st))
       then drop 2000 (auditLog st) else auditLog st;
     auditTrimPending := false;
     rateLimiter := rateLimiter st |}.

Definition hasPermission (id : string) (perm : AgentPermission) (now : Z)
    (st : State) : bool * State :=
  let policy := getPolicy id st in
  let allowed := bool_decide (perm ∈ permissions policy) in
  (allowed,
   logAudit
     {| Audit.timestamp := now;
        Audit.agentId := id;
        Audit.action := "permission.check:" +:+ permission_name perm;
        Audit.allowed := allowed;
        Audit.reason :=
          if allowed then None
          else Some ("missing permission: " +:+ permission_name perm);
        Audit.sourceIp := None |}
     st).

Definition windowMs : Z := 60000.

(** The entry the call counts in: the stored one, or a fresh one when there
    is none or its window began more than [windowMs] ago. *)
Definition current_entry (id : string) (now : Z) (st : State) : RateEntry :=
  match rateLimiter st !! id with
  | Some e =>
    if windowMs <? now - windowStart e
    then {| count := 0; windowStart := now |}
    else e
  | None => {| count := 0; windowStart := now |}
  end.

Definition checkRateLimit (id : string) (now : Z) (st : State)
  : bool * State :=
  let policy := getPolicy id st in
  let entry := current_entry id now st in
  let entry' := {| count := count entry + 1; windowStart := windowStart entry |} in
  let allowed := count entry' <=? maxMessagesPerMinute policy in
  let st' :=
    {| policies := policies st; sharedSecret := sharedSecret st;
       auditLog := auditLog st; auditTrimPending := auditTrimPending st;
       rateLimiter := <[id := entry']> (rateLimiter st) |} in
  if allowed then (true, st')
  else
    (false,
     logAudit
       {| Audit.timestamp := now;
          Audit.agentId := id;
          Audit.action := "rate-limit.exceeded";
          Audit.allowed := false;
          Audit.reason :=
            Some (pretty (count entry') +:+ "/"
                  +:+ pretty (maxMessagesPerMinute policy) +:+ " msgs/min");
          Audit.sourceIp := None |}
       st').

(** [signMessage]: the HMAC of [JSON.stringify({ messageId, payload })], in
    base64.  An object always serializes, so the [default] is never used. *)
Definition signed_data (messageId : string) (p : Js.value) : string :=
  default EmptyString
    (Js.stringify (Js.Obj [("messageId", Js.Str messageId); ("payload", p)])).

Definition signMessage (e : MessageEnvelope) (p : Js.value) (st : State)
  : string :=
  Crypto.base64_encode
    (Crypto.hmac_sha256 (sharedSecret st)
       (Crypto.bytes_of_string (signed_data (messageId e) p))).

(** [verifySignature]: false without a signature; the [catch] turns the
    [RangeError] of [timingSafeEqual] into false. *)
Definition verifySignature (e : MessageEnvelope) (p : Js.value) (st : State)
  : bool :=
  match truthy (signature e) with
  | None => false
  | Some sig =>
    let expected := signMessage e p st in
    default false
      (Crypto.timingSafeEqual (Crypto.base64_decode sig)
                              (Crypto.base64_decode expected))
  end.

Definition payloadToPermission (payloadType : option string)
  : option AgentPermission :=
  match payloadType with
  | Some t =>
    if String.eqb t "task.assign" then Some task_assign
    else if String.eqb t "role.assign" then Some role_assign
    else if String.eqb t "agent.discovery" then Some agent_register
    else None
  | None => None
  end.

(** [authorizeMessage]; the readings of the clock within the call are taken
    to be the same [now]. *)
Definition authorizeMessage (m : MultiAgentMessage) (now : Z) (st : State)
  : (bool * option string) * State :=
  let fromId := Identity.agentConfigId (from (envelope m)) in
  let policy := getPolicy fromId st in
  let rl := checkRateLimit fromId now st in
  if negb rl.1 then ((false, Some "rate limit exceeded"), rl.2)
  else
    let isCrossGateway :=
      match to (envelope m) with
      | Some t =>
        negb (String.eqb (Identity.gatewayId (from (envelope m)))
                         (Identity.gatewayId t))
      | None => true
      end in
    if isCrossGateway && negb (allowCrossGateway policy) then
      ((false, Some "cross-gateway communication not allowed"),
       logAudit
         {| Audit.timestamp := now; Audit.agentId := fromId;
            Audit.action := "cross-gateway.denied"; Audit.allowed := false;
            Audit.reason := Some "cross-gateway communication not allowed";
            Audit.sourceIp := None |}
         rl.2)
    else if match truthy (signature (envelope m)) with
            | Some _ => negb (verifySignature (envelope m) (payload m) rl.2)
            | None => false
            end
    then
      ((false, Some "invalid message signature"),
       logAudit
         {| Audit.timestamp := now; Audit.agentId := fromId;
            Audit.action := "signature.invalid"; Audit.allowed := false;
            Audit.reason := None; Audit.sourceIp := None |}
         rl.2)
    else
      match payloadToPermission
              (match Js.get (payload m) "type" with
               | Js.Str t => Some t
               | _ => None
               end) with
      | Some perm =>
        if negb (bool_decide (perm ∈ permissions policy))
        then ((false, Some ("missing permission: " +:+ permission_name perm)),
              rl.2)
        else ((true, None), rl.2)
      | None => ((true, None), rl.2)
      end.

(** [Array.prototype.slice(start)]: a negative [start] counts from the end,
    and either way it is clamped to the array. *)
Definition slice_from {A} (start : Z) (l : list A) : list A :=
  let len := Z.of_nat (length l) in
  let k := if start <? 0 then Z.max (len + start) 0 else Z.min start len in
  drop (Z.to_nat k) l.

(** [getAuditLog(limit)] is [auditLog.slice(-limit)]. *)
Definition getAuditLog (limit : Z) (st : State) : list Audit.SecurityAuditEntry :=
  slice_from (- limit) (auditLog st).

Definition getAuditLog_default_limit : Z := 100.

(** [getAgentAuditLog(agentId, limit)]: filter, then the same slice. *)
Definition getAgentAuditLog (id : string) (limit : Z) (st : State)
  : list Audit.SecurityAuditEntry :=
  slice_from (- limit) (filter (λ e, Audit.agentId e = id) (auditLog st)).

(** [importPolicies]: the map cleared, then every policy set in order. *)
Definition importPolicies (ps : list AgentSecurityPolicy) (st : State) : State :=
  {| policies := foldl (λ m p, <[Policy.agentId p := p]> m) ∅ ps;
     sharedSecret := sharedSecret st; auditLog := auditLog st;
     auditTrimPending := auditTrimPending st; rateLimiter := rateLimiter st |}.

(** A run of [checkRateLimit] calls, each an agent and a reading of the
    clock.  Every call is recorded with its agent, its time, the start of the
    window it was counted in, and its answer. *)
Record Checked := {
  c_agent : string;
  c_time : Z;
  c_window : Z;
  c_allowed : bool;
}.

Fixpoint checkAll (calls : list (string * Z)) (st : State)
  : list Checked * State :=
  match calls with
  | [] => ([], st)
  | (id, now) :: calls' =>
    let r := checkRateLimit id now st in
    let w := windowStart (current_entry id now st) in
    let rest := checkAll calls' r.2 in
    ({| c_agent := id; c_time := now; c_window := w; c_allowed := r.1 |}
       :: rest.1,
     rest.2)
  end.

(** The calls of agent [id] that were allowed and counted in the window that
    began at [w]. *)
Definition allowed_in_window (id : string) (w : Z) (l : list Checked) : Z :=
  Z.of_nat (length (filter (λ c, c_agent c = id ∧ c_window c = w ∧ c_allowed c = true) l)).

(** The calls of agent [id] that were allowed at a time in
    [[from, from + 60000)]: sixty seconds of wall-clock time. *)
Definition allowed_between (id : string) (from : Z) (l : list Checked) : Z :=
  Z.of_nat (length (filter (λ c, c_agent c = id
                               ∧ from ≤ c_time c < from + windowMs
                               ∧ c_allowed c = true) l)).

End Security.

(** ** orchestrator.ts *)
Module Orchestrator.
Import Protocol.
Local Open Scope Z_scope.

(** The configuration with its defaults filled in. *)
Record Config := {
  gatewayId : string;
  heartbeatIntervalMs : Z;
  cleanupIntervalMs : Z;
  taskMaxAgeMs : Z;
}.

Record OrchestratorConfig := {
  c_gatewayId : string;
  c_heartbeatIntervalMs : option Z;
  c_cleanupIntervalMs : option Z;
  c_taskMaxAgeMs : option Z;
}.

(** A value of [agentHeartbeats]: the heartbeat payload and [receivedAt].
    A load is a finite number; loads are only compared and subtracted for
    their sign, which on finite doubles agrees with the rationals. *)
Record HeartbeatRecord := {
  load : option Qc;
  activeTasks : option Z;
  uptimeMs : option Z;
  receivedAt : Z;
}.

Inductive OrchestratorEvent :=
| AgentJoined (agent : Identity.MultiAgentIdentity)
| AgentLeft (agentInstanceId : string)
| RoleAssigned (agentInstanceId roleId : string)
| TaskCreated (taskId : string)
| TaskAssigned (taskId agentInstanceId : string)
| TaskProgress (taskId : string) (percent : option Z)
| TaskCompleted (taskId : string) (status : string)
| WorkflowCompleted (workflowPlanId : string).

(** What an operation does to the outside, in order: an event given to the
    listeners, or an effect of the router. *)
Inductive Output :=
| Emitted (e : OrchestratorEvent)
| Routed (e : Router.Effect).

Record State := {
  config : Config;
  roleManager : RoleManager.State;
  router : Router.State;
  workTracker : WorkTracker.State;
  securityManager : Security.State;
  agentHeartbeats : gmap string HeartbeatRecord;
}.

(** The handlers subscribed by the constructor, by number. *)
Definition on_task_result : nat := 0.
Definition on_task_progress : nat := 1.
Definition on_heartbeat : nat := 2.
Definition on_agent_discovery : nat := 3.

Definition builtin_subscription (t : string) (h : nat) : Router.Subscription :=
  {| Router.payloadType := Some t; Router.fromAgentConfigId := None;
     Router.fromRoleId := None; Router.handler := h |}.

(** The constructor; [random] stands for the [randomBytes(32)] of the
    security manager. *)
Definition new (c : OrchestratorConfig) (random : list Z) : State :=
  {| config :=
       {| gatewayId := c_gatewayId c;
          heartbeatIntervalMs := default 30000 (c_heartbeatIntervalMs c);
          cleanupIntervalMs := default 3600000 (c_cleanupIntervalMs c);
          taskMaxAgeMs := default 86400000 (c_taskMaxAgeMs c) |};
     roleManager := RoleManager.new;
     router :=
       Router.subscribe (builtin_subscription "agent.discovery" on_agent_discovery)
         (Router.subscribe (builtin_subscription "heartbeat" on_heartbeat)
            (Router.subscribe (builtin_subscription "task.progress" on_task_progress)
               (Router.subscribe (builtin_subscription "task.result" on_task_result)
                  (Router.new (c_gatewayId c)))));
     workTracker := WorkTracker.empty;
     securityManager := Security.new None random;
     agentHeartbeats := ∅ |}.

(** [router.getLocalAgents()]: the values of the map, in insertion order. *)
Definition getLocalAgents (r : Router.State) : list Identity.MultiAgentIdentity :=
  (Router.localAgents r).*2.

Definition getOrchestratorIdentity (st : State) : Identity.MultiAgentIdentity :=
  {| Identity.agentInstanceId := "00000000-0000-0000-0000-000000000000";
     Identity.agentConfigId := "__orchestrator__";
     Identity.gatewayId := gatewayId (config st);
     Identity.roleId := Some "orchestrator";
     Identity.displayName := Some "Orchestrator";
     Identity.capabilities := None |}.

(** [agents.find((a) => a.agentInstanceId === id)] *)
Fixpoint find_agent (id : string) (agents : list Identity.MultiAgentIdentity)
  : option Identity.MultiAgentIdentity :=
  match agents with
  | [] => None
  | a :: agents' =>
    if String.eqb (Identity.agentInstanceId a) id then Some a
    else find_agent id agents'
  end.

(** An element of [withLoad]. *)
Record Scored := {
  s_agent : Identity.MultiAgentIdentity;
  s_load : Qc;
  s_priority : Z;
}.

Definition score (st : State) (a : Identity.MultiAgentIdentity) : Scored :=
  {| s_agent := a;
     s_load :=
       default 0%Qc
         (agentHeartbeats st !! Identity.agentInstanceId a ≫= load);
     s_priority :=
       default 50
         (RoleManager.getAssignment (Identity.agentInstanceId a)
            (roleManager st)
          ≫= λ asg, Role.priority (RoleManager.role asg)) |}.

(** The comparison function given to [sort]: the difference of the loads
    when they differ, else the difference of the priorities, reversed. *)
Definition compareScored (a b : Scored) : Qc :=
  if decide (s_load a ≠ s_load b) then (s_load a - s_load b)%Qc
  else Qc_of_Z (s_priority b - s_priority a).

(** [Array.prototype.sort] is stable; with a comparison function that is
    consistent, as this one is, its result is that of a stable insertion
    sort. *)
Fixpoint insert_sorted (x : Scored) (l : list Scored) : list Scored :=
  match l with
  | [] => [x]
  | y :: l' =>
    if decide (compareScored x y ≤ 0)%Qc then x :: y :: l'
    else y :: insert_sorted x l'
  end.

Definition sort (l : list Scored) : list Scored := foldr insert_sorted [] l.

Definition selectAgent (targetRoleId targetAgentInstanceId : option string)
    (st : State) : option Identity.MultiAgentIdentity :=
  let agents := getLocalAgents (router st) in
  match agents with
  | [] => None
  | _ =>
    match truthy targetAgentInstanceId with
    | Some id => find_agent id agents
    | None =>
      let candidates :=
        match truthy targetRoleId with
        | Some rid =>
          let assignedIds : gset string :=
            list_to_set (RoleManager.agentInstanceId
                           <$> RoleManager.getAgentsWithRole rid (roleManager st)) in
          filter (λ a, Identity.agentInstanceId a ∈ assignedIds) agents
        | None => agents
        end in
      match candidates with
      | [] => None
      | _ => s_agent <$> head (sort (score st <$> candidates))
      end
    end
  end.

Record SubmitOpts := {
  o_task : string;
  o_requestedBy : option Identity.MultiAgentIdentity;
  o_targetRoleId : option string;
  o_targetAgentInstanceId : option string;
  o_priority : option Z;
  o_deadline : option Z;
  o_workflowStepId : option string;
  o_workflowPlanId : option string;
  o_timeoutMs : option Z;
  o_tags : option (list string);
}.

Definition js_opt_num (o : option Z) : Js.value :=
  match o with Some n => Js.Num n | None => Js.Undefined end.

Definition js_opt_str (o : option string) : Js.value :=
  match o with Some s => Js.Str s | None => Js.Undefined end.

(** The [TaskAssignmentPayload] of [submitTask]. *)
Definition task_assign_payload (opts : SubmitOpts) : Js.value :=
  Js.Obj [ ("type", Js.Str "task.assign");
           ("task", Js.Str (o_task opts));
           ("priority", js_opt_num (o_priority opts));
           ("timeoutMs", js_opt_num (o_timeoutMs opts));
           ("workflowStepId", js_opt_str (o_workflowStepId opts)) ].

Definition with_roleManager (rm : RoleManager.State) (st : State) : State :=
  {| config := config st; roleManager := rm; router := router st;
     workTracker := workTracker st; securityManager := securityManager st;
     agentHeartbeats := agentHeartbeats st |}.

Definition with_router (r : Router.State) (st : State) : State :=
  {| config := config st; roleManager := roleManager st; router := r;
     workTracker := workTracker st; securityManager := securityManager st;
     agentHeartbeats := agentHeartbeats st |}.

Definition with_workTracker (wt : WorkTracker.State) (st : State) : State :=
  {| config := config st; roleManager := roleManager st; router := router st;
     workTracker := wt; securityManager := securityManager st;
     agentHeartbeats := agentHeartbeats st |}.

Definition with_agentHeartbeats (hb : gmap string HeartbeatRecord) (st : State)
  : State :=
  {| config := config st; roleManager := roleManager st; router := router st;
     workTracker := workTracker st; securityManager := securityManager st;
     agentHeartbeats := hb |}.

Section WithClock.

Variable Date_getTime : string → option Z.

(** [submitTask].  [uuid_task], [uuid_corr] and [uuid_msg] stand for the
    results of [randomUUID()], [iso] for the ISO string of the current time.
    The value returned is the tracked task object, which the tracker goes on
    to mutate: what the caller holds is the task as stored when the call
    returns.  The handlers that the router calls are recorded, not run. *)
Definition submitTask (opts : SubmitOpts) (uuid_task uuid_corr uuid_msg iso : string)
    (now : Z) (st : State)
  : option WorkTracker.TrackedTask * State * list Output :=
  let corr := default uuid_corr (o_workflowPlanId opts) in
  let created :=
    WorkTracker.createTask
      {| WorkTracker.o_taskId := uuid_task;
         WorkTracker.o_correlationId := corr;
         WorkTracker.o_task := o_task opts;
         WorkTracker.o_requestedBy := o_requestedBy opts;
         WorkTracker.o_workflowStepId := o_workflowStepId opts;
         WorkTracker.o_workflowPlanId := o_workflowPlanId opts;
         WorkTracker.o_priority := o_priority opts;
         WorkTracker.o_deadline := o_deadline opts;
         WorkTracker.o_maxRetries := None;
         WorkTracker.o_tags := o_tags opts |}
      now (workTracker st) in
  let st1 := with_workTracker created.2 st in
  match selectAgent (o_targetRoleId opts) (o_targetAgentInstanceId opts) st1 with
  | None =>
    (WorkTracker.getTask uuid_task (workTracker st1), st1,
     [Emitted (TaskCreated uuid_task)])
  | Some target =>
    let wt2 := (WorkTracker.assignTask uuid_task target now (workTracker st1)).2 in
    let wt3 := (WorkTracker.startTask uuid_task now wt2).2 in
    let sent :=
      Router.send Date_getTime
        (default (getOrchestratorIdentity st1) (o_requestedBy opts))
        (Some target) (task_assign_payload opts)
        (Some (WorkTracker.correlationId created.1)) (Some request) None
        uuid_msg uuid_corr iso now (router st1) in
    let st3 := with_router sent.2.1 (with_workTracker wt3 st1) in
    (WorkTracker.getTask uuid_task (workTracker st3), st3,
     [Emitted (TaskCreated uuid_task)]
     ++ (Routed <$> sent.2.2)
     ++ [Emitted (TaskAssigned uuid_task (Identity.agentInstanceId target))])
  end.

End WithClock.

End Orchestrator.

(** ** work-tracker.ts: the queries *)
Module WorkTrackerQueries.
Import Protocol.Identity WorkTracker.
Local Open Scope Z_scope.

(** The argument of [listTasks]; an absent filter is the one with no
    field. *)
Record ListFilter := {
  f_status : option TaskStatus;
  f_agentInstanceId : option string;
  f_workflowPlanId : option string;
  f_tag : option string;
}.

(** The generator over the ids of an index: the tasks still tracked.  A
    [Set] yields its elements in insertion order, which a [gset] does not
    keep: the order of the tasks listed is that of the [gset] and, without an
    index, of the [gmap].  It shows in the result only among tasks of the
    same priority. *)
Definition from_index (ids : gset string) (tasks : gmap string TrackedTask)
  : list TrackedTask :=
  omap (λ id, tasks !! id) (elements ids).

(** The two [continue] tests of the loop, negated. *)
Definition passes (f : ListFilter) (t : TrackedTask) : bool :=
  match f_status f with
  | Some s => bool_decide (status t = s)
  | None => true
  end
  && match truthy (f_tag f) with
     | Some tag => bool_decide (tag ∈ tags t)
     | None => true
     end.

(** [results.sort((a, b) => b.priority - a.priority)]: the sort is stable, so
    it is an insertion sort that puts an element before the first one whose
    priority is not higher. *)
Fixpoint insert_by_priority (x : TrackedTask) (l : list TrackedTask)
  : list TrackedTask :=
  match l with
  | [] => [x]
  | y :: l' =>
    if priority y - priority x <=? 0 then x :: y :: l'
    else y :: insert_by_priority x l'
  end.

Definition sort_by_priority (l : list TrackedTask) : list TrackedTask :=
  foldr insert_by_priority [] l.

Definition collect (f : ListFilter) (source : list TrackedTask)
  : list TrackedTask :=
  sort_by_priority (filter (λ t, passes f t = true) source).

Definition listTasks (f : ListFilter) (st : State) : list TrackedTask :=
  match truthy (f_agentInstanceId f) with
  | Some a =>
    match agentTaskIndex st !! a with
    | Some ids =>
      if decide (size ids = 0%nat) then []
      else collect f (from_index ids (tasks st))
    | None => []
    end
  | None =>
    match truthy (f_workflowPlanId f) with
    | Some p =>
      match workflowTaskIndex st !! p with
      | Some ids =>
        if decide (size ids = 0%nat) then []
        else collect f (from_index ids (tasks st))
      | None => []
      end
    | None => collect f (map_to_list (tasks st)).*2
    end
  end.

Record WorkSummary := {
  total : Z;
  n_pending : Z;
  n_assigned : Z;
  n_inProgress : Z;
  n_completed : Z;
  n_failed : Z;
  n_timeout : Z;
  n_cancelled : Z;
  averageDurationMs : option Qc;
  atRiskCount : Z;
}.

(** The variables of the loop of [getSummary]. *)
Record Tally := {
  c_pending : Z;
  c_assigned : Z;
  c_inProgress : Z;
  c_completed : Z;
  c_failed : Z;
  c_timeout : Z;
  c_cancelled : Z;
  durationSum : Z;
  durationCount : Z;
  c_atRisk : Z;
}.

Definition tally0 : Tally :=
  {| c_pending := 0; c_assigned := 0; c_inProgress := 0; c_completed := 0;
     c_failed := 0; c_timeout := 0; c_cancelled := 0;
     durationSum := 0; durationCount := 0; c_atRisk := 0 |}.

(** [if (n)] for an optional number: absent and 0 are falsy. *)
Definition truthy_num (o : option Z) : option Z :=
  match o with
  | Some n => if n =? 0 then None else Some n
  | None => None
  end.

(** [t.deadline && status !== "completed" && status !== "cancelled"], and then
    [remaining > 0 && total > 0 && remaining / total < 0.2].  On timestamps
    the quotient is below 0.2 exactly when five times [remaining] is below
    [total]. *)
Definition at_risk (now : Z) (t : TrackedTask) : bool :=
  match truthy_num (deadline t) with
  | Some d =>
    negb (bool_decide (status t = completed))
    && negb (bool_decide (status t = cancelled))
    && (0 <? d - now) && (0 <? d - createdAt t)
    && (5 * (d - now) <? d - createdAt t)
  | None => false
  end.

(** The duration a completed task adds to the average. *)
Definition duration (t : TrackedTask) : option Z :=
  match truthy_num (startedAt t), truthy_num (completedAt t) with
  | Some s, Some c => Some (c - s)
  | _, _ => None
  end.

(** One iteration of the loop: the [switch], then the at-risk test. *)
Definition summary_body (now : Z) (t : TrackedTask) (c : Tally) : Tally :=
  let bump (s : TaskStatus) (n : Z) : Z :=
    if bool_decide (status t = s) then n + 1 else n in
  let timed :=
    if bool_decide (status t = completed) then duration t else None in
  {| c_pending := bump pending (c_pending c);
     c_assigned := bump assigned (c_assigned c);
     c_inProgress := bump in_progress (c_inProgress c);
     c_completed := bump completed (c_completed c);
     c_failed := bump failed (c_failed c);
     c_timeout := bump timeout (c_timeout c);
     c_cancelled := bump cancelled (c_cancelled c);
     durationSum := durationSum c + default 0 timed;
     durationCount :=
       match timed with Some _ => durationCount c + 1 | None => durationCount c end;
     c_atRisk := if at_risk now t then c_atRisk c + 1 else c_atRisk c |}.

Definition getSummary (now : Z) (st : State) : WorkSummary :=
  let c := map_fold (λ _ t c, summary_body now t c) tally0 (tasks st) in
  {| total := c_pending c + c_assigned c + c_inProgress c + c_completed c
              + c_failed c + c_timeout c + c_cancelled c;
     n_pending := c_pending c;
     n_assigned := c_assigned c;
     n_inProgress := c_inProgress c;
     n_completed := c_completed c;
     n_failed := c_failed c;
     n_timeout := c_timeout c;
     n_cancelled := c_cancelled c;
     averageDurationMs :=
       if 0 <? durationCount c
       then Some (Qc_of_Z (durationSum c) / Qc_of_Z (durationCount c))%Qc
       else None;
     atRiskCount := c_atRisk c |}.

End WorkTrackerQueries.

(** ** role-manager.ts: listing and export *)
Module RoleManagerExport.
Import Protocol.Role RoleManager.
Local Open Scope Z_scope.

(** [[...roles.values()]] and [[...assignments.values()]].  A [Map] yields
    its values in insertion order, which a [gmap] does not keep; what is
    proved of these lists holds of each of their permutations. *)
Definition listRoles (st : State) : list AgentRole :=
  (map_to_list (roles st)).*2.

Definition listAssignments (st : State) : list RoleAssignment :=
  (map_to_list (assignments st)).*2.

Definition exportState (st : State) : list AgentRole * list RoleAssignment :=
  (listRoles st, listAssignments st).

End RoleManagerExport.

(** ** security.ts: export *)
Module SecurityExport.
Import Security Security.Policy.

(** [exportPolicies]: [[...policies.values()]], here in the order of the
    [gmap]; what is proved of the list holds of each of its permutations. *)
Definition exportPolicies (st : State) : list AgentSecurityPolicy :=
  (map_to_list (policies st)).*2.

End SecurityExport.

(** * The vocabulary of the statements, and the data of the examples *)

(** ** Work tracker *)
Module WorkTrackerSpec.
Import Protocol.Identity WorkTracker.
Local Open Scope Z_scope.

Definition terminal (s : TaskStatus) : Prop := s = completed ∨ s = cancelled.

Definition status_of (id : string) (st : State) : option TaskStatus :=
  status <$> tasks st !! id.

(** The loop of [cleanup] over a list of entries. *)
Definition loop (cutoff : Z) (l : list (string * TrackedTask))
    (acc : State * Z) : State * Z :=
  foldl (cleanup_body cutoff) acc l.

(** The entry [kv] is one the loop removes, and it is the task [id]. *)
Definition removes (cutoff : Z) (id : string) (kv : string * TrackedTask)
  : Prop :=
  kv.1 = id ∧ removable cutoff kv.2 = true.

Definition removes_for_agent (cutoff : Z) (a id : string)
    (kv : string * TrackedTask) : Prop :=
  removes cutoff id kv ∧ agentInstanceId <$> assignedTo kv.2 = Some a.

Definition removes_for_plan (cutoff : Z) (p id : string)
    (kv : string * TrackedTask) : Prop :=
  removes cutoff id kv ∧ truthy (workflowPlanId kv.2) = Some p.

Definition removes_step (cutoff : Z) (s : string) (kv : string * TrackedTask)
  : Prop :=
  removable cutoff kv.2 = true ∧ truthy (workflowStepId kv.2) = Some s.

(** The test of the loop, as a proposition. *)
Definition old_finished (cutoff : Z) (t : TrackedTask) : Prop :=
  (status t = completed ∨ status t = cancelled ∨ status t = failed)
  ∧ default (createdAt t) (completedAt t) < cutoff.

Definition opts (id : string) (step : option string) : CreateOpts :=
  {| o_taskId := id; o_correlationId := "c1"; o_task := "write code";
     o_requestedBy := None; o_workflowStepId := step;
     o_workflowPlanId := None; o_priority := None; o_deadline := None;
     o_maxRetries := None; o_tags := None |}.

Definition agent_a1 : MultiAgentIdentity :=
  {| agentInstanceId := "a1"; agentConfigId := "test-agent";
     gatewayId := "gw-1"; roleId := None; displayName := None;
     capabilities := None |}.

Definition outcome (s : string) : Protocol.TaskResult.TaskResultPayload :=
  {| Protocol.TaskResult.status := s;
     Protocol.TaskResult.result := None;
     Protocol.TaskResult.error := None;
     Protocol.TaskResult.durationMs := None;
     Protocol.TaskResult.workflowStepId := Some "s1" |}.

(** Two tasks run to the end at time 30: "t1" fails, "t2" times out. *)
Definition two_finished : State :=
  let st := (createTask (opts "t1" None) 0 empty).2 in
  let st := (createTask (opts "t2" None) 0 st).2 in
  let st := (assignTask "t1" agent_a1 10 st).2 in
  let st := (assignTask "t2" agent_a1 10 st).2 in
  let st := (startTask "t1" 20 st).2 in
  let st := (startTask "t2" 20 st).2 in
  let st := (completeTask "t1" (outcome "failure") 30 st).2 in
  (completeTask "t2" (outcome "timeout") 30 st).2.

(** Two tasks of the same workflow step: "t1" is completed at time 30, "t2"
    is still pending. *)
Definition shared_step : State :=
  let st := (createTask (opts "t1" (Some "s1")) 0 empty).2 in
  let st := (createTask (opts "t2" (Some "s1")) 0 st).2 in
  let st := (assignTask "t1" agent_a1 10 st).2 in
  let st := (startTask "t1" 20 st).2 in
  (completeTask "t1" (outcome "success") 30 st).2.

End WorkTrackerSpec.

(** ** Reading JSON strings *)
Module JsRead.
Import Js.

(** The value of a hexadecimal digit in lower case. *)
Definition hex_value (c : ascii) : option N :=
  (if Ascii.eqb c "0" then Some 0 else if Ascii.eqb c "1" then Some 1
   else if Ascii.eqb c "2" then Some 2 else if Ascii.eqb c "3" then Some 3
   else if Ascii.eqb c "4" then Some 4 else if Ascii.eqb c "5" then Some 5
   else if Ascii.eqb c "6" then Some 6 else if Ascii.eqb c "7" then Some 7
   else if Ascii.eqb c "8" then Some 8 else if Ascii.eqb c "9" then Some 9
   else if Ascii.eqb c "a" then Some 10 else if Ascii.eqb c "b" then Some 11
   else if Ascii.eqb c "c" then Some 12 else if Ascii.eqb c "d" then Some 13
   else if Ascii.eqb c "e" then Some 14 else if Ascii.eqb c "f" then Some 15
   else None)%N.

Definition read_more (c : ascii) (r : option (string * string))
  : option (string * string) :=
  match r with
  | Some (s, rest) => Some (String c s, rest)
  | None => None
  end.

(** Reading back what [quote_body] writes: the code units up to the first
    quotation mark that is not escaped, and what follows that mark. *)
Fixpoint read_body (s : string) : option (string * string) :=
  match s with
  | EmptyString => None
  | String c s1 =>
    if Ascii.eqb c dquote then Some (EmptyString, s1)
    else if Ascii.eqb c "\" then
      match s1 with
      | EmptyString => None
      | String d s2 =>
        if Ascii.eqb d dquote then read_more dquote (read_body s2)
        else if Ascii.eqb d "\" then read_more "\" (read_body s2)
        else if Ascii.eqb d "b" then read_more (ascii_of_N 8) (read_body s2)
        else if Ascii.eqb d "f" then read_more (ascii_of_N 12) (read_body s2)
        else if Ascii.eqb d "n" then read_more (ascii_of_N 10) (read_body s2)
        else if Ascii.eqb d "r" then read_more (ascii_of_N 13) (read_body s2)
        else if Ascii.eqb d "t" then read_more (ascii_of_N 9) (read_body s2)
        else if Ascii.eqb d "u" then
          match s2 with
          | String _ (String _ (String h (String l s3))) =>
            match hex_value h, hex_value l with
            | Some a, Some b => read_more (ascii_of_N (16 * a + b)) (read_body s3)
            | _, _ => None
            end
          | _ => None
          end
        else None
      end
    else read_more c (read_body s1)
  end.

End JsRead.

(** ** Security manager *)
Module SecuritySpec.
Import Protocol Security Security.Policy.
Local Open Scope Z_scope.

Definition limit (id : string) (st : State) : Z :=
  maxMessagesPerMinute (getPolicy id st).

(** What the calls still to come can add to the window that began at [w]:
    nothing if [w] is before the current window, the rest of the allowance
    if [w] is the current window, a whole allowance if [w] is yet to begin. *)
Definition allowance (id : string) (w : Z) (st : State) : Z :=
  match rateLimiter st !! id with
  | Some e =>
    if w <? windowStart e then 0
    else if w =? windowStart e then Z.max 0 (limit id st - count e)
    else Z.max 0 (limit id st)
  | None => Z.max 0 (limit id st)
  end.

(** The window a call at time [now] is counted in, as the limiter is
    described: the current window of the agent, which began at [w], unless
    there is none or the call comes more than 60 000 ms after [w]; then a
    window begins with the call. *)
Definition window_of_call (current : option Z) (now : Z) : Z :=
  match current with
  | Some w => if 60000 <? now - w then now else w
  | None => now
  end.

(** The windows of a run of calls, from the start of the current window of
    every agent that has one. *)
Fixpoint windows_of_calls (current : gmap string Z) (calls : list (string * Z))
  : list Z :=
  match calls with
  | [] => []
  | (id, now) :: calls' =>
    let w := window_of_call (current !! id) now in
    w :: windows_of_calls (<[id := w]> current) calls'
  end.

Definition fast_policy : AgentSecurityPolicy :=
  {| agentId := "fast-agent"; permissions := []; networkAllowlist := [];
     maxConcurrentTasks := 1; maxMessagesPerMinute := 3;
     allowCrossGateway := false |}.

Definition fast_manager : State :=
  setPolicy fast_policy (new (Some "test-secret-key") []).

(** One call opens a window at time 0; two calls come just before it lapses
    and three just after. *)
Definition burst : list (string * Z) :=
  [ ("fast-agent", 0); ("fast-agent", 59999); ("fast-agent", 59999);
    ("fast-agent", 60001); ("fast-agent", 60001); ("fast-agent", 60001) ].

Definition four_at_once : list (string * Z) :=
  [ ("fast-agent", 1000); ("fast-agent", 1000);
    ("fast-agent", 1000); ("fast-agent", 1000) ].

Definition is_byte (b : Z) : Prop := 0 ≤ b < 256.

(** The digest [signMessage] encodes. *)
Definition mac (messageId : string) (p : Js.value) (st : State) : list Z :=
  Crypto.hmac_sha256 (sharedSecret st)
    (Crypto.bytes_of_string (signed_data messageId p)).

(** HMAC-SHA256 under the shared secret tells the two strings apart: it
    does not take the same value on them unless they are the same string. *)
Definition hmac_tells_apart (st : State) (s s' : string) : Prop :=
  Crypto.hmac_sha256 (sharedSecret st) (Crypto.bytes_of_string s)
  = Crypto.hmac_sha256 (sharedSecret st) (Crypto.bytes_of_string s')
  → s = s'.

(** The envelope as it arrives: a message id, and a signature. *)
Definition resigned (e : MessageEnvelope) (mid : string) (sig : string)
  : MessageEnvelope :=
  {| messageId := mid; correlationId := correlationId e;
     timestamp := timestamp e; from := from e; to := to e;
     direction := direction e; protocolVersion := protocolVersion e;
     signature := Some sig; ttlSeconds := ttlSeconds e;
     hopCount := hopCount e |}.

Definition agent_on (i gw : string) : Identity.MultiAgentIdentity :=
  {| Identity.agentInstanceId := i; Identity.agentConfigId := "test-agent";
     Identity.gatewayId := gw; Identity.roleId := None;
     Identity.displayName := None; Identity.capabilities := None |}.

Definition envelope1 : MessageEnvelope :=
  {| messageId := "0b8f7a52-6f0e-4d0c-9a56-2f1b0c3d4e5f";
     correlationId := "7c9e6679-7425-40de-944b-e07fc1f90ae7";
     timestamp := "2026-01-01T00:00:00.000Z";
     from := agent_on "a1" "gw-1";
     to := None; direction := request; protocolVersion := "1.0";
     signature := None; ttlSeconds := None; hopCount := None |}.

Definition manager1 : State := new (Some "test-secret-key") [].

Definition heartbeat : Js.value := Js.Obj [("type", Js.Str "heartbeat")].

(** The same heartbeat with its optional [load] present and undefined. *)
Definition heartbeat_load_undefined : Js.value :=
  Js.Obj [("type", Js.Str "heartbeat"); ("load", Js.Undefined)].

Definition malicious : Js.value :=
  Js.Obj [("type", Js.Str "task.assign"); ("task", Js.Str "malicious")].

End SecuritySpec.

(** ** Role manager *)
Module RoleManagerSpec.
Import Protocol.Role RoleManager.
Local Open Scope Z_scope.

(** Every role is stored under its own id. *)
Definition keys_ok (st : State) : Prop :=
  map_Forall (λ rid r, roleId r = rid) (roles st).

(** No role with a quota has more assignments than the quota. *)
Definition quota_ok (st : State) : Prop :=
  map_Forall (λ _ r, match maxConcurrent r with
                     | Some k => countAgentsWithRole (roleId r) st ≤ k
                     | None => True
                     end) (roles st).

#[global] Instance keys_ok_dec st : Decision (keys_ok st).
Proof. unfold keys_ok. apply _. Defined.

#[global] Instance quota_ok_dec st : Decision (quota_ok st).
Proof.
  unfold quota_ok. apply map_Forall_dec. intros _ r.
  destruct (maxConcurrent r); apply _.
Defined.

(** The body of the counting loop. *)
Definition tally (rid : string) (_ : string) (a : RoleAssignment) (n : Z) : Z :=
  if String.eqb (roleId (role a)) rid then n + 1 else n.

Definition cnt (rid : string) (m : gmap string RoleAssignment) : Z :=
  map_fold (tally rid) 0 m.

Definition agent (i : string) : Protocol.Identity.MultiAgentIdentity :=
  {| Protocol.Identity.agentInstanceId := i;
     Protocol.Identity.agentConfigId := "test-agent";
     Protocol.Identity.gatewayId := "gw-1";
     Protocol.Identity.roleId := None;
     Protocol.Identity.displayName := None;
     Protocol.Identity.capabilities := None |}.

Definition small_role (rid : string) (quota : Z) : AgentRole :=
  {| roleId := rid; name := rid; description := None;
     systemPromptFragment := None; allowedTools := None; deniedTools := None;
     maxConcurrent := Some quota; priority := None |}.

Definition holds (i : string) (r : AgentRole) : RoleAssignment :=
  {| agentInstanceId := i; agentConfigId := "test-agent"; gatewayId := "gw-1";
     role := r; assignedAt := 0; assignedBy := "admin" |}.

Definition monitor_shift : list Op :=
  [ OpAssignRole (agent "a1") "monitor" "admin" 1;
    OpAssignRole (agent "a2") "monitor" "admin" 2;
    OpUnassignRole "a1";
    OpAssignRole (agent "a2") "monitor" "admin" 3;
    OpRemoveRole "coder" ].

End RoleManagerSpec.

(** ** Router *)
Module RouterSpec.
Import Protocol Router.
Local Open Scope Z_scope.

Definition message (id : string) (to_ : option Identity.MultiAgentIdentity)
    (dir : MessageDirection) (hops : Z) : MultiAgentMessage :=
  {| envelope :=
       {| messageId := id; correlationId := "c1";
          timestamp := "2026-01-01T00:00:00.000Z";
          from := SecuritySpec.agent_on "a1" "gw-1"; to := to_;
          direction := dir;
          protocolVersion := "1.0"; signature := None; ttlSeconds := None;
          hopCount := Some hops |};
     payload := SecuritySpec.heartbeat |}.

Definition peer_gw2 : PeerGateway :=
  {| gatewayId := "gw-2"; endpoint := "wss://gw-2"; publicKey := None;
     lastSeen := 0; status := connected |}.

Definition catch_all : Subscription :=
  {| payloadType := None; fromAgentConfigId := None; fromRoleId := None;
     handler := 0 |}.

(** A router on "gw-1" with one subscription for everything and one
    connected peer. *)
Definition router1 : State :=
  registerPeer peer_gw2 (subscribe catch_all (new "gw-1")).

(** A clock that parses no timestamp. *)
Definition no_clock (_ : string) : option Z := None.

End RouterSpec.

(** ** Orchestrator *)
Module OrchestratorSpec.
Import Protocol Orchestrator.
Local Open Scope Z_scope.

(** Every assignment is stored under the id of its agent instance. *)
Definition asg_keys_ok (rm : RoleManager.State) : Prop :=
  map_Forall (λ k a, RoleManager.agentInstanceId a = k)
             (RoleManager.assignments rm).

(** The agent holds the role: its assignment has that role id. *)
Definition holds_role (rm : RoleManager.State) (rid : string)
    (a : Identity.MultiAgentIdentity) : Prop :=
  ∃ asg, RoleManager.assignments rm !! Identity.agentInstanceId a = Some asg
         ∧ Role.roleId (RoleManager.role asg) = rid.

(** The agent is registered locally: the router's map of local agents has
    an entry with it. *)
Definition registered (st : State) (a : Identity.MultiAgentIdentity) : Prop :=
  ∃ id, (id, a) ∈ Router.localAgents (router st).

(** The load of the agent: the one reported in the heartbeat last recorded
    for it, 0 when none is recorded or when it reports no load. *)
Definition load_of (st : State) (a : Identity.MultiAgentIdentity) : Qc :=
  match agentHeartbeats st !! Identity.agentInstanceId a with
  | Some hb => match load hb with Some l => l | None => 0%Qc end
  | None => 0%Qc
  end.

(** The priority of the agent: that of the role of its assignment, 50 when
    it has no assignment or when the role has no priority. *)
Definition priority_of (st : State) (a : Identity.MultiAgentIdentity) : Z :=
  match RoleManager.assignments (roleManager st) !! Identity.agentInstanceId a with
  | Some asg =>
    match Role.priority (RoleManager.role asg) with Some p => p | None => 50 end
  | None => 50
  end.

(** [a] is chosen before [b]: a smaller load, or the same load and a
    priority at least as high. *)
Definition no_worse (x y : Scored) : Prop :=
  (s_load x < s_load y)%Qc
  ∨ (s_load x = s_load y ∧ s_priority y ≤ s_priority x).

#[global] Instance asg_keys_ok_dec rm : Decision (asg_keys_ok rm).
Proof. unfold asg_keys_ok. apply _. Defined.

Definition coder (i : string) : Identity.MultiAgentIdentity :=
  {| Identity.agentInstanceId := i; Identity.agentConfigId := "test-agent";
     Identity.gatewayId := "gw-test"; Identity.roleId := None;
     Identity.displayName := None; Identity.capabilities := None |}.

Definition busy : HeartbeatRecord :=
  {| load := Some (Q2Qc (QArith_base.Qmake 1 2)); activeTasks := Some 1; uptimeMs := None;
     receivedAt := 5 |}.

(** An orchestrator on "gw-test" with two local agents that are coders; the
    first has reported a load of one half, the second nothing. *)
Definition two_coders : State :=
  let st := new {| c_gatewayId := "gw-test"; c_heartbeatIntervalMs := None;
                   c_cleanupIntervalMs := None; c_taskMaxAgeMs := None |} [] in
  let r := Router.registerLocalAgent (coder "a2")
             (Router.registerLocalAgent (coder "a1") (router st)) in
  let rm := (RoleManager.assignRole (coder "a2") "coder" "orchestrator" 2
               (RoleManager.assignRole (coder "a1") "coder" "orchestrator" 1
                  (roleManager st)).2).2 in
  with_agentHeartbeats {[ "a1" := busy ]}
    (with_roleManager rm (with_router r st)).

Definition for_coder : SubmitOpts :=
  {| o_task := "implement feature X"; o_requestedBy := None;
     o_targetRoleId := Some "coder"; o_targetAgentInstanceId := None;
     o_priority := Some 80; o_deadline := None; o_workflowStepId := None;
     o_workflowPlanId := None; o_timeoutMs := None; o_tags := None |}.

End OrchestratorSpec.

(** ** Security manager: authorization *)
Module AuthorizeSpec.
Import Protocol Security Security.Policy SecuritySpec.
Local Open Scope Z_scope.

(** The id [authorizeMessage] looks the policy up with. *)
Definition sender (m : MultiAgentMessage) : string :=
  Identity.agentConfigId (from (envelope m)).

Definition one_per_minute : AgentSecurityPolicy :=
  {| agentId := "test-agent"; permissions := DEFAULT_PERMISSIONS;
     networkAllowlist := []; maxConcurrentTasks := 8;
     maxMessagesPerMinute := 1; allowCrossGateway := false |}.

Definition broadcast_heartbeat : MultiAgentMessage :=
  {| envelope := envelope1; payload := heartbeat |}.

End AuthorizeSpec.

(** An equation between closed terms, by evaluation. *)
Ltac evaluate := vm_compute; reflexivity.

(** ** Maps filled from a list *)
Module KeyedMaps.

(** The loop of [importState], of [importPolicies] and of the constructor of
    the role manager: every element set under its key, in order. *)
Definition set_all {V} (key : V → string) (m : gmap string V) (l : list V)
  : gmap string V :=
  foldl (λ m x, <[key x := x]> m) m l.

(** Every value is stored under its own key. *)
Definition keyed {V} (key : V → string) (m : gmap string V) : Prop :=
  map_Forall (λ k x, key x = k) m.

End KeyedMaps.

(** ** Work tracker: sequences of operations *)
Module WorkTrackerOps.
Import Protocol.Identity WorkTracker.
Local Open Scope Z_scope.

(** The operations of the tracker as data, to speak of sequences of them. *)
Inductive Op :=
| OpCreate (opts : CreateOpts) (now : Z)
| OpAssign (id : string) (agent : MultiAgentIdentity) (now : Z)
| OpStart (id : string) (now : Z)
| OpProgress (id : string) (percent : option Z) (line : option string)
| OpComplete (id : string) (r : Protocol.TaskResult.TaskResultPayload) (now : Z)
| OpCancel (id : string) (now : Z)
| OpRetry (id : string)
| OpCleanup (maxAgeMs : Z) (now : Z).

Definition apply (st : State) (op : Op) : State :=
  match op with
  | OpCreate opts now => (createTask opts now st).2
  | OpAssign id agent now => (assignTask id agent now st).2
  | OpStart id now => (startTask id now st).2
  | OpProgress id percent line => (updateProgress id percent line st).2
  | OpComplete id r now => (completeTask id r now st).2
  | OpCancel id now => (cancelTask id now st).2
  | OpRetry id => (retryTask id st).2
  | OpCleanup maxAgeMs now => (cleanup maxAgeMs now st).2
  end.

Definition run (ops : list Op) (st : State) : State := foldl apply st ops.

(** The operations on one existing task: all but [createTask] and
    [cleanup]. *)
Definition on_task (op : Op) : bool :=
  match op with
  | OpCreate _ _ | OpCleanup _ _ => false
  | _ => true
  end.

(** [createTask] with a [maxRetries] that is not negative (the default is
    2); every other operation. *)
Definition retries_allowed (op : Op) : bool :=
  match op with
  | OpCreate opts _ => 0 <=? default 2 (o_maxRetries opts)
  | _ => true
  end.

(** The operation does not create the task [id]. *)
Definition keeps_id (id : string) (op : Op) : bool :=
  match op with
  | OpCreate opts _ => negb (String.eqb (o_taskId opts) id)
  | _ => true
  end.

(** The operation neither creates the task [id] nor completes it. *)
Definition spares (id : string) (op : Op) : bool :=
  match op with
  | OpCreate opts _ => negb (String.eqb (o_taskId opts) id)
  | OpComplete id' _ _ => negb (String.eqb id' id)
  | _ => true
  end.

Definition retries_bounded (st : State) : Prop :=
  map_Forall (λ _ t, retryCount t ≤ maxRetries t) (tasks st).

(** Every task that is assigned is listed in the index under its agent. *)
Definition index_covers (st : State) : Prop :=
  ∀ id t a, tasks st !! id = Some t → assignedTo t = Some a →
            id ∈ default ∅ (agentTaskIndex st !! agentInstanceId a).

(** The fields no operation on a task writes. *)
Definition same_identity (t t' : TrackedTask) : Prop :=
  taskId t' = taskId t ∧ correlationId t' = correlationId t
  ∧ task t' = task t ∧ requestedBy t' = requestedBy t
  ∧ workflowStepId t' = workflowStepId t
  ∧ workflowPlanId t' = workflowPlanId t
  ∧ priority t' = priority t ∧ createdAt t' = createdAt t
  ∧ deadline t' = deadline t ∧ maxRetries t' = maxRetries t
  ∧ tags t' = tags t.

(** The successful [retryTask] calls for the task [id] in a run. *)
Fixpoint retries_of (id : string) (ops : list Op) (st : State) : Z :=
  match ops with
  | [] => 0
  | op :: ops' =>
    (match op with
     | OpRetry id' =>
       if String.eqb id' id && (retryTask id' st).1 then 1 else 0
     | _ => 0
     end) + retries_of id ops' (apply st op)
  end.

(** What is left of the retries of a task. *)
Definition retries_left (id : string) (st : State) : Z :=
  match tasks st !! id with
  | Some t => Z.max 0 (maxRetries t - retryCount t)
  | None => 0
  end.

(** A tracker with the one task "t1". *)
Definition created : State :=
  (createTask (WorkTrackerSpec.opts "t1" None) 0 empty).2.

(** The task fails, is retried, times out, is retried, fails, and a third
    retry is asked for. *)
Definition flaky : list Op :=
  [ OpAssign "t1" WorkTrackerSpec.agent_a1 10; OpStart "t1" 20;
    OpComplete "t1" (WorkTrackerSpec.outcome "failure") 30; OpRetry "t1";
    OpAssign "t1" WorkTrackerSpec.agent_a1 40; OpStart "t1" 50;
    OpComplete "t1" (WorkTrackerSpec.outcome "timeout") 60; OpRetry "t1";
    OpAssign "t1" WorkTrackerSpec.agent_a1 70; OpStart "t1" 80;
    OpComplete "t1" (WorkTrackerSpec.outcome "failure") 90; OpRetry "t1" ].

(** The task is created and assigned. *)
Definition assigned_ops : list Op :=
  [ OpCreate (WorkTrackerSpec.opts "t1" None) 0;
    OpAssign "t1" WorkTrackerSpec.agent_a1 10 ].

(** Operations on a cancelled task, a second task, and a cleanup that is
    too early to remove anything. *)
Definition after_cancel : list Op :=
  [ OpAssign "t1" WorkTrackerSpec.agent_a1 10; OpStart "t1" 20;
    OpProgress "t1" (Some 50) None; OpCancel "t1" 30; OpRetry "t1";
    OpCreate (WorkTrackerSpec.opts "t2" None) 40; OpCleanup 1000 50 ].

End WorkTrackerOps.

(** ** Work tracker: the queries *)
Module WorkTrackerQueriesSpec.
Import Protocol.Identity WorkTracker WorkTrackerQueries.
Local Open Scope Z_scope.

(** The counter of [getSummary] for a status. *)
Definition counter (s : TaskStatus) (w : WorkSummary) : Z :=
  match s with
  | pending => n_pending w
  | assigned => n_assigned w
  | in_progress => n_inProgress w
  | completed => n_completed w
  | failed => n_failed w
  | timeout => n_timeout w
  | cancelled => n_cancelled w
  end.

(** The number of tracked tasks with a status. *)
Definition with_status (s : TaskStatus) (st : State) : Z :=
  Z.of_nat (length (filter (λ kv, status kv.2 = s) (map_to_list (tasks st)))).

Definition tracked (st : State) (t : TrackedTask) : Prop :=
  ∃ id, tasks st !! id = Some t.

(** Highest priority first. *)
Definition by_priority (a b : TrackedTask) : Prop := priority b ≤ priority a.

Definition by_agent (a : string) (s : option TaskStatus) : ListFilter :=
  {| f_status := s; f_agentInstanceId := Some a; f_workflowPlanId := None;
     f_tag := None |}.

Definition no_deadline (st : State) : Prop :=
  map_Forall (λ _ t, deadline t = None) (tasks st).

(** The loop of [getSummary] over a list of entries. *)
Definition counts_of (now : Z) (l : list (string * TrackedTask)) : Tally :=
  foldr (λ kv c, summary_body now kv.2 c) tally0 l.

(** The variable of the loop for a status. *)
Definition tally_counter (s : TaskStatus) (c : Tally) : Z :=
  match s with
  | pending => c_pending c
  | assigned => c_assigned c
  | in_progress => c_inProgress c
  | completed => c_completed c
  | failed => c_failed c
  | timeout => c_timeout c
  | cancelled => c_cancelled c
  end.

End WorkTrackerQueriesSpec.

(** ** Role manager: more examples *)
Module RoleManagerMoreSpec.
Import Protocol.Role RoleManager RoleManagerSpec RoleManagerExport.
Local Open Scope Z_scope.

(** A manager whose monitor role, of quota 1, is taken by "a1". *)
Definition monitor_taken : State :=
  (assignRole (agent "a1") "monitor" "admin" 1 new).2.

(** One operation of each kind, and some twice. *)
Definition any_ops : list Op :=
  [ OpDefineRole (small_role "auditor" 2);
    OpAssignRole (agent "a1") "auditor" "admin" 1;
    OpAssignRole (agent "a2") "coder" "admin" 2;
    OpRemoveRole "executor";
    OpImportState [small_role "auditor" 1; small_role "coder" 3]
                  [holds "a1" (small_role "auditor" 1)];
    OpAssignRole (agent "a3") "coder" "admin" 3;
    OpUnassignRole "a1" ].

End RoleManagerMoreSpec.

(** ** Router: sequences of operations *)
Module RouterOps.
Import Protocol Router.
Local Open Scope Z_scope.

(** The operations of the router as data, to speak of sequences of them.
    The function [subscribe] returns, which removes the subscription, is not
    among them. *)
Inductive Op :=
| OpRegisterLocalAgent (a : Identity.MultiAgentIdentity)
| OpUnregisterLocalAgent (id : string)
| OpRegisterPeer (p : PeerGateway)
| OpRemovePeer (id : string)
| OpSubscribe (sub : Subscription)
| OpRoute (now : Z) (m : MultiAgentMessage).

Section WithClock.
Variable Date_getTime : string → option Z.

Definition apply (st : State) (op : Op) : State :=
  match op with
  | OpRegisterLocalAgent a => registerLocalAgent a st
  | OpUnregisterLocalAgent id => unregisterLocalAgent id st
  | OpRegisterPeer p => registerPeer p st
  | OpRemovePeer id => removePeer id st
  | OpSubscribe sub => subscribe sub st
  | OpRoute now m => (route Date_getTime now m st).1
  end.

Definition run (ops : list Op) (st : State) : State := foldl apply st ops.

(** The message passes the three guards of [route]: its id is new, it has
    not expired, and its hop count is below the limit. *)
Definition accepted (now : Z) (m : MultiAgentMessage) (st : State) : Prop :=
  set_has (messageId (envelope m)) (seenMessages st) = false
  ∧ expired Date_getTime now (envelope m) = false
  ∧ default 0 (hopCount (envelope m)) < MAX_HOP_COUNT.

End WithClock.

(** Every peer is stored once, under its own gateway id. *)
Definition peers_keyed (st : State) : Prop :=
  NoDup (peerGateways st).*1
  ∧ Forall (λ kp, gatewayId kp.2 = kp.1) (peerGateways st).

(** Every local agent is stored once, under its own instance id. *)
Definition agents_keyed (st : State) : Prop :=
  NoDup (localAgents st).*1
  ∧ Forall (λ ka, Identity.agentInstanceId ka.2 = ka.1) (localAgents st).

(** The calls of [sendToPeer] among the effects. *)
Definition forwards (l : list Effect) : list Effect :=
  filter (λ e, is_forward e = true) l.

(** Ten thousand message ids, "m0" the oldest. *)
Definition full_seen : list string :=
  (λ n, "m" +:+ pretty n) <$> seqZ 0 10000.

Definition peer (gw : string) (s : PeerStatus) : PeerGateway :=
  {| gatewayId := gw; endpoint := "wss://" +:+ gw; publicKey := None;
     lastSeen := 0; status := s |}.

Definition some_ops : list Op :=
  [ OpRegisterPeer (peer "gw-2" connected);
    OpRegisterPeer (peer "gw-3" connecting);
    OpSubscribe RouterSpec.catch_all;
    OpRegisterPeer (peer "gw-2" connected);
    OpRoute 0 (RouterSpec.message "m0" None broadcast 0);
    OpRemovePeer "gw-3";
    OpRegisterPeer (peer "gw-3" connected) ].

(** A request for an agent on the gateway "gw-2". *)
Definition to_gw2 (id : string) (hops : Z) : MultiAgentMessage :=
  RouterSpec.message id (Some (SecuritySpec.agent_on "b1" "gw-2")) request hops.

End RouterOps.

(** ** Security manager: sequences of operations *)
Module SecurityOps.
Import Protocol Security Security.Policy SecurityExport.
Local Open Scope Z_scope.

(** The end of the current synchronous run: the queued microtask, if there
    is one, runs. *)
Definition settle (st : State) : State :=
  if auditTrimPending st then auditTrim st else st.

(** The operations of the manager as data, to speak of sequences of them. *)
Inductive Op :=
| OpSetPolicy (p : AgentSecurityPolicy)
| OpRemovePolicy (id : string)
| OpImportPolicies (ps : list AgentSecurityPolicy)
| OpHasPermission (id : string) (perm : AgentPermission) (now : Z)
| OpCheckRateLimit (id : string) (now : Z)
| OpAuthorizeMessage (m : MultiAgentMessage) (now : Z)
| OpSettle.

Definition apply (st : State) (op : Op) : State :=
  match op with
  | OpSetPolicy p => setPolicy p st
  | OpRemovePolicy id => removePolicy id st
  | OpImportPolicies ps => importPolicies ps st
  | OpHasPermission id perm now => (hasPermission id perm now st).2
  | OpCheckRateLimit id now => (checkRateLimit id now st).2
  | OpAuthorizeMessage m now => (authorizeMessage m now st).2
  | OpSettle => settle st
  end.

Definition run (ops : list Op) (st : State) : State := foldl apply st ops.

(** Every stored window has counted a call. *)
Definition counts_positive (st : State) : Prop :=
  map_Forall (λ _ e, 1 ≤ count e) (rateLimiter st).


(** The permission a payload asks for. *)
Definition required (m : MultiAgentMessage) : option AgentPermission :=
  payloadToPermission (Router.payload_type (payload m)).

Definition some_ops : list Op :=
  [ OpSetPolicy SecuritySpec.fast_policy;
    OpCheckRateLimit "fast-agent" 0;
    OpAuthorizeMessage AuthorizeSpec.broadcast_heartbeat 5;
    OpHasPermission "fast-agent" task_assign 6;
    OpImportPolicies [AuthorizeSpec.one_per_minute; SecuritySpec.fast_policy];
    OpRemovePolicy "fast-agent";
    OpCheckRateLimit "fast-agent" 70000;
    OpSettle ].

(** Two envelopes with the same message id and signature and nothing else
    in common. *)
Definition as_sent : MessageEnvelope :=
  SecuritySpec.resigned SecuritySpec.envelope1 "m-1" "c2lnbmVk".

Definition as_replayed : MessageEnvelope :=
  SecuritySpec.resigned
    (envelope (RouterSpec.message "m-0"
                 (Some (SecuritySpec.agent_on "b1" "gw-2")) request 7))
    "m-1" "c2lnbmVk".

End SecurityOps.

(** ** Orchestrator: more examples *)
Module OrchestratorMoreSpec.
Import Protocol Orchestrator.
Local Open Scope Z_scope.

(** A task for one agent, named by its instance id; a role is asked for as
    well, and a deadline given. *)
Definition for_agent (id : string) : SubmitOpts :=
  {| o_task := "review the patch"; o_requestedBy := None;
     o_targetRoleId := Some "reviewer"; o_targetAgentInstanceId := Some id;
     o_priority := None; o_deadline := Some 1000; o_workflowStepId := None;
     o_workflowPlanId := None; o_timeoutMs := None; o_tags := None |}.

End OrchestratorMoreSpec.

(** * Theorems *)

Lemma truthy_Some o s : truthy o = Some s → o = Some s ∧ s ≠ EmptyString.
Proof.
  destruct o as [s'|]; simpl; [|done].
  destruct (String.eqb s' EmptyString) eqn:E; [done|].
  intros [= ->]. split; [done|]. intros ->. by rewrite String.eqb_refl in E.
Qed.

Lemma if_Exists_nil {A B} (P : A → Prop) `{!∀ x, Decision (P x)} (a b : B) :
  (if decide (Exists P []) then a else b) = b.
Proof. rewrite decide_False; [done|]. by intros ?%Exists_nil. Qed.

Lemma if_Exists_cons {A B} (P : A → Prop) `{!∀ x, Decision (P x)} x l (a b : B) :
  (if decide (Exists P (x :: l)) then a else b)
  = if decide (P x) then a else if decide (Exists P l) then a else b.
Proof.
  destruct (decide (P x)) as [Hx|Hx].
  { rewrite decide_True; [done|]. by apply Exists_cons_hd. }
  destruct (decide (Exists P l)) as [Hl|Hl].
  { rewrite decide_True; [done|]. by apply Exists_cons_tl. }
  rewrite decide_False; [done|]. intros [?|?]%Exists_cons; done.
Qed.

(** ** Work tracker: the transitions *)
Module WorkTrackerFacts.
Import Protocol.Identity WorkTracker WorkTrackerSpec.
Local Open Scope Z_scope.

(** The four guarded operations refuse a task that is completed or
    cancelled. *)
Lemma assignTask_keeps_terminal id agent now st s :
  status_of id st = Some s → terminal s →
  assignTask id agent now st = (false, st).
Proof.
  unfold status_of, assignTask. destruct (tasks st !! id) as [t|]; [|done].
  intros [= <-] [H|H]; rewrite H; done.
Qed.

Lemma startTask_keeps_terminal id now st s :
  status_of id st = Some s → terminal s → startTask id now st = (false, st).
Proof.
  unfold status_of, startTask. destruct (tasks st !! id) as [t|]; [|done].
  intros [= <-] [H|H]; rewrite H; done.
Qed.

Lemma cancelTask_keeps_terminal id now st s :
  status_of id st = Some s → terminal s → cancelTask id now st = (false, st).
Proof.
  unfold status_of, cancelTask. destruct (tasks st !! id) as [t|]; [|done].
  intros [= <-] [H|H]; rewrite H; done.
Qed.

Lemma retryTask_keeps_terminal id st s :
  status_of id st = Some s → terminal s → retryTask id st = (false, st).
Proof.
  unfold status_of, retryTask. destruct (tasks st !! id) as [t|]; [|done].
  intros [= <-] [H|H]; rewrite H; done.
Qed.

(** [completeTask] has no guard: whatever the status was, it becomes the one
    the result maps to. *)
Lemma completeTask_any_status id r now st t :
  tasks st !! id = Some t →
  (completeTask id r now st).1 = true
  ∧ status_of id (completeTask id r now st).2 = Some (result_status r).
Proof.
  intros Ht. unfold completeTask, status_of. rewrite Ht. simpl.
  by rewrite lookup_insert_eq.
Qed.

(** C1, at the failing input: a task is created and cancelled; a result that
    arrives afterwards is accepted by [completeTask] and turns the cancelled
    task into a completed one, and a second result turns the completed task
    into a failed one.  So the statuses completed and cancelled are left
    again, which the claim excludes. *)
Theorem completeTask_leaves_terminal_states :
  let st1 := (createTask (opts "t1" (Some "s1")) 1000 empty).2 in
  let st2 := (cancelTask "t1" 2000 st1).2 in
  let r3 := completeTask "t1" (outcome "success") 3000 st2 in
  let r4 := completeTask "t1" (outcome "failure") 4000 r3.2 in
  status_of "t1" st2 = Some cancelled
  ∧ r3.1 = true ∧ status_of "t1" r3.2 = Some completed
  ∧ r4.1 = true ∧ status_of "t1" r4.2 = Some failed.
Proof. vm_compute. done. Qed.

(** C8: [retryTask] returns true exactly when the task exists, its status is
    failed or timeout, and [retryCount < maxRetries].  On success the task
    stored under the id has [retryCount] one higher, status pending, and
    [assignedTo], [assignedAt], [startedAt], [completedAt],
    [progressPercent], [statusLine] and [result] cleared; its other fields,
    the other tasks and the three indices are as before.  On failure the
    tracker is unchanged. *)
Theorem retryTask_spec (id : string) (st : State) :
  ((retryTask id st).1 = true ↔
   ∃ t, tasks st !! id = Some t
        ∧ (status t = failed ∨ status t = timeout)
        ∧ retryCount t < maxRetries t)
  ∧ ((retryTask id st).1 = true →
     ∃ t t', tasks st !! id = Some t
       ∧ tasks (retryTask id st).2 = <[id := t']> (tasks st)
       ∧ retryCount t' = retryCount t + 1
       ∧ status t' = pending
       ∧ assignedTo t' = None ∧ assignedAt t' = None ∧ startedAt t' = None
       ∧ completedAt t' = None ∧ progressPercent t' = None
       ∧ statusLine t' = None ∧ result t' = None
       ∧ taskId t' = taskId t ∧ correlationId t' = correlationId t
       ∧ task t' = task t ∧ requestedBy t' = requestedBy t
       ∧ workflowStepId t' = workflowStepId t
       ∧ workflowPlanId t' = workflowPlanId t
       ∧ priority t' = priority t ∧ createdAt t' = createdAt t
       ∧ deadline t' = deadline t ∧ maxRetries t' = maxRetries t
       ∧ tags t' = tags t
       ∧ agentTaskIndex (retryTask id st).2 = agentTaskIndex st
       ∧ workflowTaskIndex (retryTask id st).2 = workflowTaskIndex st
       ∧ stepIndex (retryTask id st).2 = stepIndex st)
  ∧ ((retryTask id st).1 = false → (retryTask id st).2 = st).
Proof.
  unfold retryTask. destruct (tasks st !! id) as [t|] eqn:Ht.
  2:{ simpl. split_and!; [|done..]. split; [done|]. by intros (? & ? & _). }
  destruct (status t) eqn:Hs; simpl;
    try (split_and!; [|done..]; split; [done|];
         intros (t0 & [= <-] & [?|?] & _); congruence).
  all: destruct (Z.leb_spec (maxRetries t) (retryCount t)); simpl.
  all: split_and!; try done.
  all: try (split; [done|]; intros (t0 & [= <-] & _ & ?); lia).
  all: try (split; [|done]; intros _; exists t; split_and!; auto with lia).
  all: intros _; eexists t, _; split_and!; try reflexivity; done.
Qed.

End WorkTrackerFacts.

(** ** Work tracker: [cleanup] *)
Module CleanupFacts.
Import Protocol.Identity WorkTracker WorkTrackerSpec.
Local Open Scope Z_scope.

Section Loop.
Variable cutoff : Z.

Local Abbreviation loop := (WorkTrackerSpec.loop cutoff).
Local Abbreviation removes := (WorkTrackerSpec.removes cutoff).
Local Abbreviation removes_for_agent := (WorkTrackerSpec.removes_for_agent cutoff).
Local Abbreviation removes_for_plan := (WorkTrackerSpec.removes_for_plan cutoff).
Local Abbreviation removes_step := (WorkTrackerSpec.removes_step cutoff).
Local Abbreviation old_finished := (WorkTrackerSpec.old_finished cutoff).

Lemma loop_cons kv l acc : loop (kv :: l) acc = loop l (cleanup_body cutoff acc kv).
Proof. done. Qed.

(** What one iteration does to each of the four maps. *)
Lemma body_tasks acc kv id :
  tasks (cleanup_body cutoff acc kv).1 !! id =
  if decide (removes id kv) then None else tasks acc.1 !! id.
Proof.
  destruct (decide (removes id kv)) as [[Hk Hr]|Hn]; unfold cleanup_body.
  - rewrite Hr, Hk. apply lookup_delete_eq.
  - destruct (removable cutoff kv.2) eqn:Hr; [|done].
    apply lookup_delete_ne. intros Hk. by apply Hn.
Qed.

Lemma elem_index_remove k id idx a x :
  x ∈ default ∅ (index_remove k id idx !! a) ↔
  x ∈ default ∅ (idx !! a) ∧ ¬ (k = a ∧ x = id).
Proof.
  unfold index_remove. rewrite lookup_alter. case_decide as Hk; [|tauto].
  subst k. destruct (idx !! a) as [s|]; simpl.
  - rewrite elem_of_difference, elem_of_singleton. tauto.
  - split; [|tauto]. by intros ?%not_elem_of_empty.
Qed.

Lemma body_agentTaskIndex acc kv a x :
  x ∈ default ∅ (agentTaskIndex (cleanup_body cutoff acc kv).1 !! a) ↔
  x ∈ default ∅ (agentTaskIndex acc.1 !! a) ∧ ¬ removes_for_agent a x kv.
Proof.
  unfold cleanup_body, removes_for_agent, removes.
  destruct (removable cutoff kv.2); simpl.
  - destruct (assignedTo kv.2) as [ag|]; simpl.
    + rewrite elem_index_remove. split.
      * intros [Hx Hn]. split; [done|]. intros [[Hk _] [= Ha]]. by apply Hn.
      * intros [Hx Hn]. split; [done|]. intros [Ha Hk]. apply Hn.
        by rewrite Ha, Hk.
    + split; [|tauto]. intros Hx. split; [done|]. by intros [_ ?].
  - split; [|tauto]. intros Hx. split; [done|]. by intros [[_ ?] _].
Qed.

Lemma body_workflowTaskIndex acc kv p x :
  x ∈ default ∅ (workflowTaskIndex (cleanup_body cutoff acc kv).1 !! p) ↔
  x ∈ default ∅ (workflowTaskIndex acc.1 !! p) ∧ ¬ removes_for_plan p x kv.
Proof.
  unfold cleanup_body, removes_for_plan, removes.
  destruct (removable cutoff kv.2); simpl.
  - destruct (truthy (workflowPlanId kv.2)) as [q|]; simpl.
    + rewrite elem_index_remove. split.
      * intros [Hx Hn]. split; [done|]. intros [[Hk _] [= Ha]]. by apply Hn.
      * intros [Hx Hn]. split; [done|]. intros [Ha Hk]. apply Hn.
        by rewrite Ha, Hk.
    + split; [|tauto]. intros Hx. split; [done|]. by intros [_ ?].
  - split; [|tauto]. intros Hx. split; [done|]. by intros [[_ ?] _].
Qed.

Lemma body_stepIndex acc kv s :
  stepIndex (cleanup_body cutoff acc kv).1 !! s =
  if decide (removes_step s kv) then None else stepIndex acc.1 !! s.
Proof.
  destruct (decide (removes_step s kv)) as [[Hr Hs]|Hn]; unfold cleanup_body.
  - rewrite Hr, Hs. apply lookup_delete_eq.
  - destruct (removable cutoff kv.2) eqn:Hr; [|done].
    destruct (truthy (workflowStepId kv.2)) as [q|] eqn:Hq; [|done].
    apply lookup_delete_ne. intros ->. by apply Hn.
Qed.

Lemma body_index_dom acc kv :
  dom (agentTaskIndex (cleanup_body cutoff acc kv).1) = dom (agentTaskIndex acc.1)
  ∧ dom (workflowTaskIndex (cleanup_body cutoff acc kv).1)
    = dom (workflowTaskIndex acc.1).
Proof.
  unfold cleanup_body, index_remove.
  destruct (removable cutoff kv.2); simpl; [|done].
  split.
  - destruct (assignedTo kv.2); [|done]. apply leibniz_equiv, dom_alter.
  - destruct (truthy (workflowPlanId kv.2)); [|done].
    apply leibniz_equiv, dom_alter.
Qed.

(** The same for the whole loop, by induction on the entries visited. *)
Lemma loop_tasks l acc id :
  tasks (loop l acc).1 !! id =
  if decide (Exists (removes id) l) then None else tasks acc.1 !! id.
Proof.
  revert acc. induction l as [|kv l IH]; intros acc.
  { by rewrite if_Exists_nil. }
  rewrite loop_cons, IH, if_Exists_cons, body_tasks.
  by repeat case_decide.
Qed.

Lemma loop_agentTaskIndex l acc a x :
  x ∈ default ∅ (agentTaskIndex (loop l acc).1 !! a) ↔
  x ∈ default ∅ (agentTaskIndex acc.1 !! a)
  ∧ ¬ Exists (removes_for_agent a x) l.
Proof.
  revert acc. induction l as [|kv l IH]; intros acc.
  { rewrite Exists_nil. simpl. tauto. }
  rewrite loop_cons, IH, body_agentTaskIndex, Exists_cons. tauto.
Qed.

Lemma loop_workflowTaskIndex l acc p x :
  x ∈ default ∅ (workflowTaskIndex (loop l acc).1 !! p) ↔
  x ∈ default ∅ (workflowTaskIndex acc.1 !! p)
  ∧ ¬ Exists (removes_for_plan p x) l.
Proof.
  revert acc. induction l as [|kv l IH]; intros acc.
  { rewrite Exists_nil. simpl. tauto. }
  rewrite loop_cons, IH, body_workflowTaskIndex, Exists_cons. tauto.
Qed.

Lemma loop_stepIndex l acc s :
  stepIndex (loop l acc).1 !! s =
  if decide (Exists (removes_step s) l) then None else stepIndex acc.1 !! s.
Proof.
  revert acc. induction l as [|kv l IH]; intros acc.
  { by rewrite if_Exists_nil. }
  rewrite loop_cons, IH, if_Exists_cons, body_stepIndex.
  by repeat case_decide.
Qed.

Lemma loop_index_dom l acc :
  dom (agentTaskIndex (loop l acc).1) = dom (agentTaskIndex acc.1)
  ∧ dom (workflowTaskIndex (loop l acc).1) = dom (workflowTaskIndex acc.1).
Proof.
  revert acc. induction l as [|kv l IH]; intros acc; [done|].
  rewrite loop_cons. destruct (IH (cleanup_body cutoff acc kv)) as [-> ->].
  apply body_index_dom.
Qed.

(** Every entry the loop visits is still in the map when it is visited, so
    each removal makes the map one smaller and the counter one larger. *)
Lemma loop_count l acc :
  NoDup l.*1 →
  (∀ kv, kv ∈ l → tasks acc.1 !! kv.1 = Some kv.2) →
  Z.of_nat (size (tasks (loop l acc).1)) + (loop l acc).2
  = Z.of_nat (size (tasks acc.1)) + acc.2.
Proof.
  revert acc. induction l as [|kv l IH]; intros acc Hnd Hin; [done|].
  rewrite loop_cons. rewrite fmap_cons in Hnd. apply NoDup_cons in Hnd as [Hfresh Hnd].
  rewrite IH; [|done|].
  - unfold cleanup_body. destruct (removable cutoff kv.2); simpl; [|done].
    rewrite map_size_delete_Some.
    2:{ rewrite (Hin kv); [done|]. apply list_elem_of_here. }
    assert (size (tasks acc.1) ≠ 0%nat); [|lia].
    intros Hz. apply map_size_empty_inv in Hz.
    specialize (Hin kv (list_elem_of_here _ _)). rewrite Hz in Hin. done.
  - intros kv' Hkv'. unfold cleanup_body.
    destruct (removable cutoff kv.2); simpl.
    + rewrite lookup_delete_ne.
      * apply Hin. by apply list_elem_of_further.
      * intros Heq. apply Hfresh. rewrite Heq. by apply list_elem_of_fmap_2.
    + apply Hin. by apply list_elem_of_further.
Qed.

Lemma removable_iff t : removable cutoff t = true ↔ old_finished t.
Proof.
  unfold removable, old_finished.
  rewrite andb_true_iff, !orb_true_iff, !bool_decide_eq_true, Z.ltb_lt. tauto.
Qed.

Lemma Exists_removes (m : gmap string TrackedTask) id :
  Exists (removes id) (map_to_list m) ↔ ∃ t, m !! id = Some t ∧ old_finished t.
Proof.
  rewrite Exists_exists. unfold removes. split.
  - intros ([k t] & Hin & Hk & Hr). simpl in *. subst k.
    apply elem_of_map_to_list in Hin. exists t. by rewrite <- removable_iff.
  - intros (t & Hm & Hr). exists (id, t). simpl.
    rewrite elem_of_map_to_list, removable_iff. done.
Qed.

End Loop.

(** C2, at the failing input: of two tasks that ended at time 30, "t1" has
    failed and "t2" has timed out.  A failed task is not in a terminal state:
    it has retries left and [retryTask] accepts it.  Yet [cleanup(1000)] at
    time 5000 removes it and returns 1, after which [getTask] finds it no
    more and [retryTask] refuses; the timed-out task, just as old, is kept.
    The tasks [cleanup] removes are thus not those in a terminal state. *)
Theorem cleanup_not_by_terminal_state :
  let r := cleanup 1000 5000 two_finished in
  status <$> getTask "t1" two_finished = Some failed
  ∧ (retryCount <$> getTask "t1" two_finished) = Some 0
  ∧ (maxRetries <$> getTask "t1" two_finished) = Some 2
  ∧ (retryTask "t1" two_finished).1 = true
  ∧ status <$> getTask "t1" (retryTask "t1" two_finished).2 = Some pending
  ∧ status <$> getTask "t2" two_finished = Some timeout
  ∧ r.1 = 1
  ∧ getTask "t1" r.2 = None
  ∧ (retryTask "t1" r.2).1 = false
  ∧ status <$> getTask "t2" r.2 = Some timeout.
Proof. vm_compute. done. Qed.

(** The entry of the step index that [cleanup] deletes for a removed task
    need not name that task: of two tasks created for the same step the
    entry names the second, and removing the first deletes it. *)
Example cleanup_drops_step_of_kept_task :
  let r := cleanup 1000 5000 shared_step in
  stepIndex shared_step !! "s1" = Some "t2"
  ∧ r.1 = 1
  ∧ getTask "t1" r.2 = None
  ∧ status <$> getTask "t2" r.2 = Some pending
  ∧ (workflowStepId <$> getTask "t2" r.2) = Some (Some "s1")
  ∧ stepIndex r.2 !! "s1" = None.
Proof. vm_compute. done. Qed.

(** What [cleanup(maxAgeMs)] at time [now] does: it removes exactly the
    tracked tasks whose status is completed, cancelled or failed and whose
    [completedAt ?? createdAt] is below [now - maxAgeMs]; every other task is
    kept as it is.  The count returned is the number of tasks removed.  The id
    of a removed task is no longer in the agent index under the agent the
    task is assigned to, nor in the plan index under its [workflowPlanId],
    and the step index has no entry for its [workflowStepId], whichever task
    that entry named.  The indices gain nothing, the ids of tasks that are
    not removed stay in the agent and plan indices, and the entry of a step
    stays when no removed task has that step. *)
Theorem cleanup_removes_old_finished (maxAgeMs now : Z) (st : State) :
  let cutoff := now - maxAgeMs in
  let r := cleanup maxAgeMs now st in
  (∀ id t, tasks st !! id = Some t → old_finished cutoff t →
           tasks r.2 !! id = None)
  ∧ (∀ id t, tasks st !! id = Some t → ¬ old_finished cutoff t →
             tasks r.2 !! id = Some t)
  ∧ (∀ id, tasks st !! id = None → tasks r.2 !! id = None)
  ∧ r.1 = Z.of_nat (size (tasks st)) - Z.of_nat (size (tasks r.2))
  ∧ (∀ id t ag, tasks st !! id = Some t → old_finished cutoff t →
                assignedTo t = Some ag →
                id ∉ default ∅ (agentTaskIndex r.2 !! agentInstanceId ag))
  ∧ (∀ id t p, tasks st !! id = Some t → old_finished cutoff t →
               truthy (workflowPlanId t) = Some p →
               id ∉ default ∅ (workflowTaskIndex r.2 !! p))
  ∧ (∀ id t s, tasks st !! id = Some t → old_finished cutoff t →
               truthy (workflowStepId t) = Some s →
               stepIndex r.2 !! s = None)
  ∧ (∀ a x, x ∈ default ∅ (agentTaskIndex r.2 !! a) →
            x ∈ default ∅ (agentTaskIndex st !! a))
  ∧ (∀ p x, x ∈ default ∅ (workflowTaskIndex r.2 !! p) →
            x ∈ default ∅ (workflowTaskIndex st !! p))
  ∧ (∀ a x, x ∈ default ∅ (agentTaskIndex st !! a) →
            (∀ t, tasks st !! x = Some t → ¬ old_finished cutoff t) →
            x ∈ default ∅ (agentTaskIndex r.2 !! a))
  ∧ (∀ p x, x ∈ default ∅ (workflowTaskIndex st !! p) →
            (∀ t, tasks st !! x = Some t → ¬ old_finished cutoff t) →
            x ∈ default ∅ (workflowTaskIndex r.2 !! p))
  ∧ (∀ s, (∀ id t, tasks st !! id = Some t → old_finished cutoff t →
                   truthy (workflowStepId t) ≠ Some s) →
          stepIndex r.2 !! s = stepIndex st !! s).
Proof.
  intros cutoff r.
  assert (Hr : r = ((loop cutoff (map_to_list (tasks st)) (st, 0)).2,
                    (loop cutoff (map_to_list (tasks st)) (st, 0)).1)) by done.
  rewrite Hr. simpl. clear Hr r.
  set (l := map_to_list (tasks st)).
  split_and!.
  - intros id t Ht Ho. rewrite loop_tasks, decide_True; [done|].
    apply Exists_removes. eauto.
  - intros id t Ht Ho. rewrite loop_tasks, decide_False; [done|].
    intros (t' & Ht' & Ho')%Exists_removes. simpl in *. congruence.
  - intros id Ht. rewrite loop_tasks. case_decide; [done|]. done.
  - assert (Hc := loop_count cutoff l (st, 0) (NoDup_fst_map_to_list _)).
    simpl in Hc. fold l. rewrite Z.add_0_r in Hc. rewrite <- Hc; [lia|].
    intros [k t] Hin. by apply elem_of_map_to_list.
  - intros id t ag Ht Ho Hag. rewrite loop_agentTaskIndex. intros [_ Hn].
    apply Hn, Exists_exists. exists (id, t). split.
    { by apply elem_of_map_to_list. }
    unfold removes_for_agent, removes. simpl.
    by rewrite removable_iff, Hag.
  - intros id t p Ht Ho Hp. rewrite loop_workflowTaskIndex. intros [_ Hn].
    apply Hn, Exists_exists. exists (id, t). split.
    { by apply elem_of_map_to_list. }
    unfold removes_for_plan, removes. simpl. by rewrite removable_iff.
  - intros id t s Ht Ho Hs. rewrite loop_stepIndex, decide_True; [done|].
    apply Exists_exists. exists (id, t). split.
    { by apply elem_of_map_to_list. }
    unfold removes_step. simpl. by rewrite removable_iff.
  - intros a x. rewrite loop_agentTaskIndex. tauto.
  - intros p x. rewrite loop_workflowTaskIndex. tauto.
  - intros a x Hx Hkeep. rewrite loop_agentTaskIndex. split; [done|].
    intros ([k t] & Hin & [[Hk Hrm] _])%Exists_exists. simpl in *. subst k.
    apply elem_of_map_to_list in Hin. apply (Hkeep t Hin).
    by apply removable_iff.
  - intros p x Hx Hkeep. rewrite loop_workflowTaskIndex. split; [done|].
    intros ([k t] & Hin & [[Hk Hrm] _])%Exists_exists. simpl in *. subst k.
    apply elem_of_map_to_list in Hin. apply (Hkeep t Hin).
    by apply removable_iff.
  - intros s Hkeep. rewrite loop_stepIndex, decide_False; [done|].
    intros ([k t] & Hin & [Hrm Hs])%Exists_exists. simpl in *.
    apply elem_of_map_to_list in Hin. apply (Hkeep k t Hin); [|done].
    by apply removable_iff.
Qed.

End CleanupFacts.

(** ** Security manager: the rate limiter *)
Module RateLimitFacts.
Import Security Security.Policy SecuritySpec.
Local Open Scope Z_scope.

Lemma logAudit_policies e st : policies (logAudit e st) = policies st.
Proof. done. Qed.

Lemma logAudit_rateLimiter e st : rateLimiter (logAudit e st) = rateLimiter st.
Proof. done. Qed.

Lemma checkRateLimit_policies id now st :
  policies (checkRateLimit id now st).2 = policies st.
Proof. unfold checkRateLimit. by case_match. Qed.

Lemma checkRateLimit_limit id id' now st :
  limit id' (checkRateLimit id now st).2 = limit id' st.
Proof. unfold limit, getPolicy. by rewrite checkRateLimit_policies. Qed.

Lemma checkRateLimit_rateLimiter id now st :
  rateLimiter (checkRateLimit id now st).2
  = <[id := {| count := count (current_entry id now st) + 1;
               windowStart := windowStart (current_entry id now st) |}]>
      (rateLimiter st).
Proof. unfold checkRateLimit. by case_match. Qed.

Lemma checkRateLimit_allowed id now st :
  (checkRateLimit id now st).1
  = (count (current_entry id now st) + 1 <=? limit id st).
Proof. unfold checkRateLimit, limit. simpl. by case_match. Qed.

(** A denied call logs one entry; an allowed call logs none. *)
Lemma checkRateLimit_audit id now st :
  if (checkRateLimit id now st).1
  then auditLog (checkRateLimit id now st).2 = auditLog st
  else ∃ e, auditLog (checkRateLimit id now st).2 = auditLog st ++ [e]
            ∧ Audit.action e = "rate-limit.exceeded"
            ∧ Audit.allowed e = false
            ∧ Audit.agentId e = id
            ∧ Audit.timestamp e = now.
Proof.
  unfold checkRateLimit. destruct (Z.leb _ _); simpl; [done|].
  eexists. split_and!; reflexivity.
Qed.

Lemma allowed_in_window_cons id w c l :
  allowed_in_window id w (c :: l)
  = (if decide (c_agent c = id ∧ c_window c = w ∧ c_allowed c = true)
     then 1 else 0) + allowed_in_window id w l.
Proof.
  unfold allowed_in_window. rewrite filter_cons.
  case_decide; simpl length; lia.
Qed.

Lemma checkAll_allowance calls st id w :
  allowed_in_window id w (checkAll calls st).1 ≤ allowance id w st.
Proof.
  revert st. induction calls as [|[id' now] calls IH]; intros st.
  { unfold allowance. change (allowed_in_window id w (checkAll [] st).1) with 0.
    repeat case_match; lia. }
  simpl. rewrite allowed_in_window_cons. simpl.
  specialize (IH (checkRateLimit id' now st).2).
  etrans; [apply Z.add_le_mono_l, IH|].
  unfold allowance. rewrite checkRateLimit_limit, checkRateLimit_rateLimiter.
  destruct (decide (id' = id)) as [->|Hne].
  2:{ rewrite lookup_insert_ne by done.
      rewrite decide_False by tauto. lia. }
  rewrite lookup_insert_eq, checkRateLimit_allowed. simpl.
  unfold current_entry. set (L := limit id st).
  destruct (rateLimiter st !! id) as [e|]; simpl.
  - destruct (Z.ltb_spec windowMs (now - windowStart e)); simpl;
      unfold windowMs in *;
      repeat (case_decide || case_match); simpl in *;
      rewrite ?Z.ltb_lt, ?Z.ltb_ge, ?Z.eqb_eq, ?Z.eqb_neq, ?Z.leb_le, ?Z.leb_gt in *;
      try lia.
    all: destruct_and?; lia.
  - repeat (case_decide || case_match); simpl in *;
      rewrite ?Z.ltb_lt, ?Z.ltb_ge, ?Z.eqb_eq, ?Z.eqb_neq, ?Z.leb_le, ?Z.leb_gt in *;
      try lia.
    all: destruct_and?; lia.
Qed.

Lemma checkAll_within_window calls st :
  Forall (λ c, c_time c - c_window c ≤ windowMs) (checkAll calls st).1.
Proof.
  revert st. induction calls as [|[id now] calls IH]; intros st; simpl.
  { constructor. }
  constructor; [|apply IH]. simpl. unfold current_entry.
  destruct (rateLimiter st !! id) as [e|]; simpl.
  - destruct (Z.ltb_spec windowMs (now - windowStart e)); simpl;
      unfold windowMs in *; lia.
  - unfold windowMs. lia.
Qed.

(** C3, counterexample: with a limit of 3 per minute, one call at time 0, two
    at 59 999 and three at 60 001 are all allowed, the last three because the
    window is then reset.  Five allowed calls fall into the sixty seconds
    that begin at 59 999. *)
Lemma rate_limit_exceeded_across_windows :
  let trace := (checkAll burst fast_manager).1 in
  c_allowed <$> trace = [true; true; true; true; true; true]
  ∧ allowed_between "fast-agent" 59999 trace = 5
  ∧ maxMessagesPerMinute (getPolicy "fast-agent" fast_manager) = 3
  ∧ ¬ (allowed_between "fast-agent" 59999 trace
       ≤ maxMessagesPerMinute (getPolicy "fast-agent" fast_manager)).
Proof. vm_compute. split_and!; [done..|]. intros H. by apply H. Qed.

(** The window [checkRateLimit] counts a call in is the one of the
    description. *)
Lemma current_entry_window id now st :
  windowStart (current_entry id now st)
  = window_of_call (windowStart <$> rateLimiter st !! id) now.
Proof.
  unfold current_entry, window_of_call, windowMs.
  destruct (rateLimiter st !! id) as [e|]; simpl; [|done].
  by destruct (60000 <? now - windowStart e).
Qed.

Lemma checkAll_windows calls st :
  c_window <$> (checkAll calls st).1
  = windows_of_calls (windowStart <$> rateLimiter st) calls.
Proof.
  revert st. induction calls as [|[id now] calls IH]; intros st; [done|].
  simpl. rewrite IH, checkRateLimit_rateLimiter, fmap_insert. simpl.
  by rewrite lookup_fmap, current_entry_window.
Qed.

Lemma checkAll_calls calls st :
  (λ c, (c_agent c, c_time c)) <$> (checkAll calls st).1 = calls.
Proof.
  revert st. induction calls as [|[id now] calls IH]; intros st; [done|].
  simpl. by rewrite IH.
Qed.

(** C3, amended: the limiter counts in fixed windows.  The first call of an
    agent begins a window at its time; a later call is counted in the
    agent's current window, unless it comes more than 60 000 ms after that
    window began: then it begins a new window at its time.  So every call is
    counted in a window that began at most 60 000 ms before it.  Starting
    from counters that are not negative and with the policies unchanged, the
    calls of an agent that return true and are counted in one window number
    at most [max(0, maxMessagesPerMinute)].  A call that returns false
    appends exactly one audit entry, with action "rate-limit.exceeded"; a
    call that returns true appends none. *)
Theorem rate_limit_per_window (calls : list (string * Z)) (st : State)
    (id : string) (w now : Z) :
  (∀ e, rateLimiter st !! id = Some e → 0 ≤ count e) →
  let trace := (checkAll calls st).1 in
  (λ c, (c_agent c, c_time c)) <$> trace = calls
  ∧ c_window <$> trace
    = windows_of_calls (windowStart <$> rateLimiter st) calls
  ∧ allowed_in_window id w trace
    ≤ Z.max 0 (maxMessagesPerMinute (getPolicy id st))
  ∧ Forall (λ c, c_time c - c_window c ≤ 60000) trace
  ∧ (if (checkRateLimit id now st).1
     then auditLog (checkRateLimit id now st).2 = auditLog st
     else ∃ e, auditLog (checkRateLimit id now st).2 = auditLog st ++ [e]
               ∧ Audit.action e = "rate-limit.exceeded"
               ∧ Audit.allowed e = false
               ∧ Audit.agentId e = id
               ∧ Audit.timestamp e = now).
Proof.
  intros Hcount trace. split_and!.
  - apply checkAll_calls.
  - apply checkAll_windows.
  - etrans; [apply checkAll_allowance|]. unfold allowance, limit.
    destruct (rateLimiter st !! id) as [e|] eqn:He; [|done].
    specialize (Hcount e eq_refl). repeat case_match; lia.
  - apply checkAll_within_window.
  - apply checkRateLimit_audit.
Qed.

(** With a limit of 3: one call at time 0 and two at 59 999 are counted in
    the window that began at 0, and the three calls at 60 001 in the window
    that began at 60 001; a fourth call at 60 001 is refused. *)
Lemma rate_limit_per_window_witness :
  let calls := burst ++ [("fast-agent", 60001)] in
  let trace := (checkAll calls fast_manager).1 in
  (∀ e, rateLimiter fast_manager !! "fast-agent" = Some e → 0 ≤ count e)
  ∧ c_window <$> trace = [0; 0; 0; 60001; 60001; 60001; 60001]
  ∧ c_allowed <$> trace = [true; true; true; true; true; true; false]
  ∧ allowed_in_window "fast-agent" 60001 trace ≤ 3
  ∧ allowed_in_window "fast-agent" 60001 trace = 3.
Proof.
  intros calls trace.
  assert (H : ∀ e, rateLimiter fast_manager !! "fast-agent" = Some e
                   → 0 ≤ count e).
  { intros e He. vm_compute in He. discriminate. }
  destruct (rate_limit_per_window calls fast_manager "fast-agent" 60001 60001 H)
    as (_ & Hw & Hle & _).
  split_and!; [exact H| |evaluate|exact Hle|evaluate].
  fold trace in Hw. rewrite Hw. evaluate.
Defined.

End RateLimitFacts.

(** ** Role manager *)
Module RoleManagerFacts.
Import Protocol.Role RoleManager RoleManagerSpec.
Local Open Scope Z_scope.

Lemma count_cnt rid st : countAgentsWithRole rid st = cnt rid (assignments st).
Proof. done. Qed.

Lemma tally_comm rid i1 a1 i2 a2 n :
  tally rid i1 a1 (tally rid i2 a2 n) = tally rid i2 a2 (tally rid i1 a1 n).
Proof. unfold tally. repeat case_match; lia. Qed.

Lemma cnt_empty rid : cnt rid ∅ = 0.
Proof. apply map_fold_empty. Qed.

Lemma cnt_insert_fresh rid i a m :
  m !! i = None → cnt rid (<[i:=a]> m) = tally rid i a (cnt rid m).
Proof. intros. apply map_fold_insert_L; [|done]. intros. apply tally_comm. Qed.

Lemma cnt_delete rid i a m :
  m !! i = Some a → cnt rid m = tally rid i a (cnt rid (delete i m)).
Proof. intros. apply map_fold_delete_L; [|done]. intros. apply tally_comm. Qed.

Lemma cnt_insert rid i a m :
  cnt rid (<[i:=a]> m) = tally rid i a (cnt rid (delete i m)).
Proof.
  rewrite <- (insert_delete_eq m i a) at 1.
  apply cnt_insert_fresh, lookup_delete_eq.
Qed.

Lemma cnt_delete_le rid i m : cnt rid (delete i m) ≤ cnt rid m.
Proof.
  destruct (m !! i) as [a|] eqn:Hi.
  - rewrite (cnt_delete rid i a m Hi). unfold tally. case_match; lia.
  - by rewrite delete_id.
Qed.

Lemma cnt_nonneg rid m : 0 ≤ cnt rid m.
Proof.
  unfold cnt. apply (map_fold_weak_ind (λ n _, 0 ≤ n)); [done|].
  intros i a m' n _ Hn. unfold tally. case_match; lia.
Qed.

(** *** The invariant holds for a new manager *)

Lemma new_keys_ok : keys_ok new.
Proof. apply (bool_decide_unpack _). vm_compute. exact I. Qed.

Lemma new_quota_ok : quota_ok new.
Proof. apply (bool_decide_unpack _). vm_compute. exact I. Qed.

(** *** [assignRole] *)

Lemma assignRole_None agent rid by_ now st :
  (assignRole agent rid by_ now st).1 = None ↔
  roles st !! rid = None
  ∨ ∃ r k, roles st !! rid = Some r ∧ maxConcurrent r = Some k
           ∧ alreadyHasRole (Protocol.Identity.agentInstanceId agent) rid st
             = false
           ∧ k ≤ countAgentsWithRole rid st.
Proof.
  unfold assignRole. destruct (roles st !! rid) as [r|] eqn:Hr.
  2:{ split; [by left|done]. }
  destruct (maxConcurrent r) as [k|] eqn:Hm.
  2:{ split; [done|]. intros [?|(r' & k' & [= <-] & ? & _)]; congruence. }
  destruct (alreadyHasRole _ rid st) eqn:Hal; simpl.
  { split; [done|]. intros [?|(r' & k' & _ & _ & ? & _)]; done. }
  destruct (Z.leb_spec k (countAgentsWithRole rid st)); simpl.
  - split; [|done]. intros _. right. by exists r, k.
  - split; [done|]. intros [?|(r' & k' & [= <-] & Hk' & _ & ?)]; [done|].
    assert (k' = k) by congruence. lia.
Qed.

Lemma assignRole_None_state agent rid by_ now st :
  (assignRole agent rid by_ now st).1 = None →
  (assignRole agent rid by_ now st).2 = st.
Proof.
  unfold assignRole. destruct (roles st !! rid) as [r|]; [|done].
  by case_match.
Qed.

Lemma assignRole_Some agent rid by_ now st a :
  (assignRole agent rid by_ now st).1 = Some a →
  ∃ r, roles st !! rid = Some r
       ∧ a = {| agentInstanceId := Protocol.Identity.agentInstanceId agent;
                agentConfigId := Protocol.Identity.agentConfigId agent;
                gatewayId := Protocol.Identity.gatewayId agent;
                role := r; assignedAt := now; assignedBy := by_ |}
       ∧ roles (assignRole agent rid by_ now st).2 = roles st
       ∧ assignments (assignRole agent rid by_ now st).2
         = <[Protocol.Identity.agentInstanceId agent := a]> (assignments st).
Proof.
  unfold assignRole. destruct (roles st !! rid) as [r|]; [|done].
  case_match; [done|]. simpl. intros [= <-]. by exists r.
Qed.

(** *** The operations that consult the quota, or need not, keep it *)

Lemma removeRole_inv rid st :
  keys_ok st → quota_ok st →
  keys_ok (removeRole rid st).2 ∧ quota_ok (removeRole rid st).2.
Proof.
  unfold keys_ok, quota_ok. simpl. intros Hk Hq. split.
  - by apply map_Forall_delete.
  - by apply map_Forall_delete.
Qed.

Lemma unassignRole_inv i st :
  keys_ok st → quota_ok st →
  keys_ok (unassignRole i st).2 ∧ quota_ok (unassignRole i st).2.
Proof.
  unfold keys_ok, quota_ok. simpl. intros Hk Hq. split; [done|].
  intros rid r Hr. specialize (Hq rid r Hr). simpl in *.
  destruct (maxConcurrent r) as [k|]; [|done].
  rewrite count_cnt in *. simpl. etrans; [apply cnt_delete_le|done].
Qed.

Lemma assignRole_inv agent rid by_ now st :
  keys_ok st → quota_ok st →
  keys_ok (assignRole agent rid by_ now st).2
  ∧ quota_ok (assignRole agent rid by_ now st).2.
Proof.
  intros Hk Hq.
  destruct (assignRole agent rid by_ now st).1 as [a|] eqn:Ha.
  2:{ by rewrite assignRole_None_state. }
  destruct (assignRole_Some _ _ _ _ _ _ Ha) as (r & Hr & -> & Hroles & Hasg).
  set (i := Protocol.Identity.agentInstanceId agent) in *.
  assert (Hrid : roleId r = rid) by (by apply (Hk rid r)).
  split.
  { unfold keys_ok. by rewrite Hroles. }
  unfold quota_ok. rewrite Hroles. intros rid' r' Hr'.
  specialize (Hq rid' r' Hr'). simpl in *.
  assert (Hrid' : roleId r' = rid') by (by apply (Hk rid' r')).
  destruct (maxConcurrent r') as [k'|] eqn:Hk'; [|done].
  rewrite count_cnt in *. rewrite Hasg, cnt_insert. unfold tally. simpl.
  rewrite Hrid, Hrid' in *.
  destruct (String.eqb_spec rid rid') as [<-|Hne].
  - assert (r' = r) as -> by congruence.
    (* the assignment was not blocked *)
    assert (Hnb : alreadyHasRole i rid st = true
                  ∨ cnt rid (assignments st) < k').
    { destruct (alreadyHasRole i rid st) eqn:Hal; [by left|right].
      destruct (Z.lt_ge_cases (cnt rid (assignments st)) k') as [|Hge]; [done|].
      assert (Hn : (assignRole agent rid by_ now st).1 = None).
      { apply assignRole_None. right. exists r, k'. done. }
      congruence. }
    destruct Hnb as [Hal|Hlt].
    + unfold alreadyHasRole in Hal. fold i in Hal.
      destruct (assignments st !! i) as [cur|] eqn:Hcur; [|done].
      rewrite (cnt_delete rid i cur _ Hcur) in Hq. unfold tally in Hq.
      by rewrite Hal in Hq.
    + pose proof (cnt_delete_le rid i (assignments st)). lia.
  - etrans; [apply cnt_delete_le|done].
Qed.

Lemma apply_checked_inv op st :
  unchecked op = false → keys_ok st → quota_ok st →
  keys_ok (apply st op) ∧ quota_ok (apply st op).
Proof.
  destruct op; simpl; try done; intros _.
  - apply removeRole_inv.
  - apply assignRole_inv.
  - apply unassignRole_inv.
Qed.

Lemma run_checked_inv ops st :
  forallb (λ op, negb (unchecked op)) ops = true →
  keys_ok st → quota_ok st →
  keys_ok (run ops st) ∧ quota_ok (run ops st).
Proof.
  revert st. induction ops as [|op ops IH]; intros st; simpl; [done|].
  intros [Hop Hops]%andb_true_iff Hk Hq.
  apply negb_true_iff in Hop.
  destruct (apply_checked_inv op st Hop Hk Hq) as [Hk' Hq'].
  by apply IH.
Qed.

(** C4, counterexample: after two agents took the role "executor" (quota 4),
    [defineRole] redefines it with quota 1, and the role has two assignments
    against a quota of one; and [importState] installs a role "monitor" with
    quota 1 together with two assignments of it.  Neither operation consults
    the quota. *)
Lemma quota_broken_by_defineRole_and_importState :
  let st1 :=
    run [ OpAssignRole (agent "a1") "executor" "admin" 1;
          OpAssignRole (agent "a2") "executor" "admin" 2;
          OpDefineRole (small_role "executor" 1) ] new in
  let st2 :=
    run [ OpImportState [small_role "monitor" 1]
            [holds "a1" (small_role "monitor" 1);
             holds "a2" (small_role "monitor" 1)] ] new in
  (maxConcurrent <$> getRole "executor" st1 = Some (Some 1)
   ∧ countAgentsWithRole "executor" st1 = 2)
  ∧ (maxConcurrent <$> getRole "monitor" st2 = Some (Some 1)
     ∧ countAgentsWithRole "monitor" st2 = 2).
Proof. vm_compute. done. Qed.

(** C4, amended: from a state in which every role is stored under its own
    id and no role has more assignments than its [maxConcurrent], every
    sequence of [removeRole], [assignRole] and [unassignRole] leads to a
    state in which, for every defined role [r] with [maxConcurrent = k], at
    most [k] assignments have a role with id [r.roleId]; [defineRole] and
    [importState] are not among the operations.  [assignRole] returns null
    exactly when the role is missing, or it has a quota, the agent does not
    already hold the role, and the number of holders has reached the quota;
    then nothing changes.  On success the assignment carries the role and it
    replaces whatever was stored for the agent instance. *)
Theorem quota_kept_by_checked_operations (st : State) (ops : list Op)
    (ag : Protocol.Identity.MultiAgentIdentity) (rid by_ : string) (now : Z) :
  keys_ok st → quota_ok st →
  forallb (λ op, negb (unchecked op)) ops = true →
  (∀ rid' r k, roles (run ops st) !! rid' = Some r →
               maxConcurrent r = Some k →
               countAgentsWithRole (roleId r) (run ops st) ≤ k)
  ∧ ((assignRole ag rid by_ now st).1 = None ↔
     roles st !! rid = None
     ∨ ∃ r k, roles st !! rid = Some r ∧ maxConcurrent r = Some k
              ∧ alreadyHasRole (Protocol.Identity.agentInstanceId ag) rid st
                = false
              ∧ k ≤ countAgentsWithRole rid st)
  ∧ ((assignRole ag rid by_ now st).1 = None →
     (assignRole ag rid by_ now st).2 = st)
  ∧ (∀ a, (assignRole ag rid by_ now st).1 = Some a →
          roles st !! rid = Some (role a)
          ∧ agentInstanceId a = Protocol.Identity.agentInstanceId ag
          ∧ assignments (assignRole ag rid by_ now st).2
            = <[Protocol.Identity.agentInstanceId ag := a]> (assignments st)
          ∧ getAssignment (Protocol.Identity.agentInstanceId ag)
              (assignRole ag rid by_ now st).2 = Some a).
Proof.
  intros Hk Hq Hops. split_and!.
  - destruct (run_checked_inv ops st Hops Hk Hq) as [_ Hq'].
    intros rid' r k Hr Hm. specialize (Hq' rid' r Hr). simpl in Hq'.
    by rewrite Hm in Hq'.
  - apply assignRole_None.
  - apply assignRole_None_state.
  - intros a Ha.
    destruct (assignRole_Some _ _ _ _ _ _ Ha) as (r & Hr & Hrec & _ & Hasg).
    unfold getAssignment. rewrite Hasg, lookup_insert_eq.
    by rewrite Hrec.
Qed.

Lemma quota_kept_by_checked_operations_witness :
  keys_ok new ∧ quota_ok new
  ∧ forallb (λ op, negb (unchecked op)) monitor_shift = true
  ∧ ∀ rid' r k, roles (run monitor_shift new) !! rid' = Some r →
                maxConcurrent r = Some k →
                countAgentsWithRole (roleId r) (run monitor_shift new) ≤ k.
Proof.
  split_and!; [exact new_keys_ok|exact new_quota_ok|reflexivity|].
  exact (proj1 (quota_kept_by_checked_operations new monitor_shift
                  (agent "a1") "monitor" "admin" 0
                  new_keys_ok new_quota_ok eq_refl)).
Defined.

(** The first scenario of the tests: the second monitor is refused until the
    first is unassigned. *)
Example monitor_quota_scenario :
  let r1 := assignRole (agent "a1") "monitor" "admin" 1 new in
  let r2 := assignRole (agent "a2") "monitor" "admin" 2 r1.2 in
  let r3 := unassignRole "a1" r2.2 in
  let r4 := assignRole (agent "a2") "monitor" "admin" 3 r3.2 in
  is_Some r1.1 ∧ r2.1 = None ∧ r3.1 = true ∧ is_Some r4.1.
Proof. vm_compute. split_and!; eauto. Qed.

End RoleManagerFacts.

(** ** Router *)
Module RouterFacts.
Import Protocol Router RouterSpec.
Local Open Scope Z_scope.

Lemma set_has_app x s t : set_has x (s ++ t) = set_has x s || set_has x t.
Proof.
  induction s as [|y s IH]; simpl; [done|]. by rewrite IH, orb_assoc.
Qed.

Lemma set_has_elem x s : set_has x s = true ↔ x ∈ s.
Proof.
  induction s as [|y s IH]; simpl.
  - split; [done|]. by intros ?%elem_of_nil.
  - rewrite orb_true_iff, IH, elem_of_cons, String.eqb_eq.
    split; (intros [?|?]; [by left|by right]).
Qed.

(** An unseen id is added last, and the eviction takes the oldest ids and
    leaves 8000 of them, so the id just added stays. *)
Lemma trackSeen_has id seen :
  set_has id seen = false → set_has id (trackSeen id seen) = true.
Proof.
  intros Hnew. unfold trackSeen, set_add. rewrite Hnew.
  case_match eqn:Hbig.
  - apply set_has_elem. rewrite length_app in *. simpl in *.
    rewrite drop_app_le by lia.
    apply elem_of_app. right. apply list_elem_of_here.
  - rewrite set_has_app. simpl. by rewrite String.eqb_refl, orb_true_r.
Qed.

(** The handlers [deliverLocally] calls are matching subscriptions, each
    called once, in subscription order. *)
Lemma deliverLocally_filter m subs :
  deliverLocally m subs
  = (λ sub, Delivered sub m) <$> filter (λ sub, sub_matches m sub = true) subs.
Proof.
  induction subs as [|sub subs IH]; simpl; [done|].
  rewrite filter_cons. destruct (sub_matches m sub) eqn:E.
  - rewrite decide_True by done. by rewrite fmap_cons, IH.
  - rewrite decide_False by done. done.
Qed.

Lemma forward_loop_only_sends bumped peers e :
  e ∈ forward_loop bumped peers → is_forward e = true.
Proof.
  induction peers as [|[k p] peers IH]; simpl.
  { by intros ?%elem_of_nil. }
  repeat case_match; try done;
    rewrite elem_of_cons; intros [->|?]; auto.
Qed.

Section WithClock.
Variable Date_getTime : string → option Z.

Local Abbreviation route := (Router.route Date_getTime).
Local Abbreviation route_all := (Router.route_all Date_getTime).

Lemma route_seen now m st :
  set_has (messageId (envelope m)) (seenMessages st) = true →
  route now m st = (st, []).
Proof. intros H. unfold Router.route. by rewrite H. Qed.

Lemma route_marks_seen now m st :
  set_has (messageId (envelope m)) (seenMessages (route now m st).1) = true.
Proof.
  unfold Router.route.
  destruct (set_has _ (seenMessages st)) eqn:Hseen; [done|].
  repeat case_match; simpl; by apply trackSeen_has.
Qed.

Lemma route_deliveries now m st :
  filter (λ e, is_delivery e = true) (route now m st).2 = []
  ∨ filter (λ e, is_delivery e = true) (route now m st).2
    = (λ sub, Delivered sub m)
      <$> filter (λ sub, sub_matches m sub = true) (subscriptions st).
Proof.
  unfold Router.route.
  destruct (set_has _ (seenMessages st)); [by left|].
  destruct (expired _ _ _); [by left|].
  destruct (MAX_HOP_COUNT <=? _); [by left|]. simpl.
  rewrite filter_app.
  assert (Hf : ∀ l, (∀ e, e ∈ l → is_forward e = true) →
                    filter (λ e, is_delivery e = true) l = []).
  { induction l as [|e l IH]; intros Hl; [done|].
    rewrite filter_cons, decide_False.
    - apply IH. intros e' ?. apply Hl. by right.
    - specialize (Hl e (list_elem_of_here _ _)). destruct e; simpl in *; congruence. }
  assert (Hd : ∀ subs, filter (λ e, is_delivery e = true) (deliverLocally m subs)
                       = deliverLocally m subs).
  { induction subs as [|s subs IH]; simpl; [done|].
    case_match; [|done]. rewrite filter_cons, decide_True by done. by rewrite IH. }
  match goal with |- context [if ?b then forwardToRemote _ _ else _] =>
    destruct b end.
  all: match goal with |- context [if ?b then deliverLocally _ _ else _] =>
    destruct b end.
  all: rewrite ?Hd, ?(Hf (forwardToRemote _ _)), ?app_nil_r;
    try (intros; eapply forward_loop_only_sends; eassumption).
  all: try (by left).
  all: right; apply deliverLocally_filter.
Qed.

(** Calls with a message whose id is in the dedup set do nothing. *)
Lemma route_all_seen nows m st :
  set_has (messageId (envelope m)) (seenMessages st) = true →
  route_all ((λ t, (t, m)) <$> nows) st = (st, (λ _, []) <$> nows).
Proof.
  intros Hseen. induction nows as [|t nows IH]; [done|].
  rewrite !fmap_cons. cbn [Router.route_all].
  rewrite (route_seen t m st Hseen). cbn [fst snd]. by rewrite IH.
Qed.

(** After the first call, every further call with the same message is
    dropped without an effect and without a change of state. *)
Lemma route_again nows now m st :
  route_all ((now, m) :: ((λ t, (t, m)) <$> nows)) st
  = ((route now m st).1, (route now m st).2 :: ((λ _, []) <$> nows)).
Proof.
  cbn [Router.route_all].
  by rewrite (route_all_seen nows m _ (route_marks_seen now m st)).
Qed.

(** C5: a [route] call with a message whose id is in the dedup set returns
    without an effect and without changing the router; after any [route] call
    the id of its message is in the dedup set; so when the same message is
    routed again and again, the first call has all the effects and every
    later one has none.  In the first call the handlers called are those of
    the matching subscriptions, each subscription once, or none at all. *)
Theorem duplicate_is_dropped (now : Z) (nows : list Z)
    (m : MultiAgentMessage) (st : State) :
  (set_has (messageId (envelope m)) (seenMessages st) = true →
   route now m st = (st, []))
  ∧ set_has (messageId (envelope m)) (seenMessages (route now m st).1) = true
  ∧ route_all ((now, m) :: ((λ t, (t, m)) <$> nows)) st
    = ((route now m st).1, (route now m st).2 :: ((λ _, []) <$> nows))
  ∧ (filter (λ e, is_delivery e = true) (route now m st).2 = []
     ∨ filter (λ e, is_delivery e = true) (route now m st).2
       = (λ sub, Delivered sub m)
         <$> filter (λ sub, sub_matches m sub = true) (subscriptions st)).
Proof.
  split_and!.
  - apply route_seen.
  - apply route_marks_seen.
  - apply route_again.
  - apply route_deliveries.
Qed.

(** C6: a message that enters [route] with [hopCount] at least 16 has no
    effect: [sendToPeer] is called for no peer and no message. *)
Theorem no_forward_at_hop_limit (now : Z) (m : MultiAgentMessage) (st : State)
    (h : Z) :
  hopCount (envelope m) = Some h → 16 ≤ h →
  (route now m st).2 = []
  ∧ ∀ peer m', SentToPeer peer m' ∉ (route now m st).2.
Proof.
  intros Hh Hge.
  assert (Hnil : (route now m st).2 = []).
  { unfold Router.route. destruct (set_has _ _); [done|].
    destruct (expired _ _ _); [done|].
    rewrite Hh. simpl. unfold MAX_HOP_COUNT.
    destruct (Z.leb_spec 16 h); [done|lia]. }
  split; [done|]. intros peer m'. rewrite Hnil. apply not_elem_of_nil.
Qed.

End WithClock.

Lemma duplicate_is_dropped_witness :
  let m := message "m1" None broadcast 0 in
  let st1 := (route no_clock 0 m router1).1 in
  set_has "m1" (seenMessages st1) = true
  ∧ length (route no_clock 0 m router1).2 = 2%nat
  ∧ route no_clock 5 m st1 = (st1, []).
Proof.
  intros m st1. split; [reflexivity|]. split; [reflexivity|].
  exact (proj1 (duplicate_is_dropped no_clock 5 [] m st1) eq_refl).
Defined.

Lemma no_forward_at_hop_limit_witness :
  let m := message "m2" (Some (SecuritySpec.agent_on "b1" "gw-2")) request 16 in
  hopCount (envelope m) = Some 16 ∧ 16 ≤ 16
  ∧ (route no_clock 0 m router1).2 = [].
Proof.
  intros m. split; [reflexivity|]. split; [lia|].
  exact (proj1 (no_forward_at_hop_limit no_clock 0 m router1 16
                  eq_refl (Z.le_refl 16))).
Defined.

(** One hop below the limit the same message is forwarded to the peer. *)
Example forwarded_below_hop_limit :
  let m := message "m2" (Some (SecuritySpec.agent_on "b1" "gw-2")) request 15 in
  (route no_clock 0 m router1).2 = [SentToPeer peer_gw2 (bump m)].
Proof. reflexivity. Qed.

End RouterFacts.

(** ** HMAC-SHA256 and base64 *)
Module CryptoFacts.
Import Crypto SecuritySpec.
Local Open Scope Z_scope.

(** The functions are the standard ones: test vectors of FIPS 180-4 and
    RFC 4231. *)
Example sha256_abc :
  hex (sha256 (bytes_of_string "abc"))
  = "ba7816bf8f01cfea414140de5dae2223b00361a396177a9cb410ff61f20015ad".
Proof. by vm_compute. Qed.

Example sha256_two_blocks :
  hex (sha256 (bytes_of_string
    "abcdbcdecdefdefgefghfghighijhijkijkljklmklmnlmnomnopnopq"))
  = "248d6a61d20638b8e5c026930c3e6039a33ce45964ff2167f6ecedd419db06c1".
Proof. by vm_compute. Qed.

Example hmac_sha256_rfc4231_1 :
  hex (hmac_sha256 (replicate 20 11) (bytes_of_string "Hi There"))
  = "b0344c61d8db38535ca8afceaf0bf12b881dc200c9833da726e9376c2e32cff7".
Proof. by vm_compute. Qed.

Example hmac_sha256_rfc4231_6 :
  hex (hmac_sha256 (replicate 131 170)
         (bytes_of_string
            "Test Using Larger Than Block-Size Key - Hash Key First"))
  = "60e431591ee0b67f0d8a26aacbf5b77f8e0bc6213728c5140546040f0ee37f54".
Proof. by vm_compute. Qed.

Lemma byte_of_is_byte x s : is_byte (byte_of x s).
Proof.
  unfold is_byte, byte_of. change 255 with (Z.ones 8).
  rewrite Z.land_ones by lia. apply Z.mod_pos_bound. lia.
Qed.

Lemma digest_bytes_is_byte h : Forall is_byte (digest_bytes h).
Proof.
  unfold digest_bytes, be_bytes32. simpl.
  repeat (constructor; [apply byte_of_is_byte|]). constructor.
Qed.

Lemma digest_bytes_length h : length (digest_bytes h) = 32%nat.
Proof. done. Qed.

Lemma sha256_is_byte msg : Forall is_byte (sha256 msg).
Proof. apply digest_bytes_is_byte. Qed.

Lemma sha256_length msg : length (sha256 msg) = 32%nat.
Proof. apply digest_bytes_length. Qed.

Lemma hmac_sha256_is_byte key msg : Forall is_byte (hmac_sha256 key msg).
Proof. apply sha256_is_byte. Qed.

Lemma hmac_sha256_length key msg : length (hmac_sha256 key msg) = 32%nat.
Proof. apply sha256_length. Qed.

(** *** base64 *)

Lemma unbase64_b64_char s :
  0 ≤ s < 64 →
  unbase64 (b64_char s) = Some s ∧ Ascii.eqb (b64_char s) pad_char = false.
Proof.
  intros Hs.
  assert (∃ n : nat, (n < 64)%nat ∧ s = Z.of_nat n) as (n & Hn & ->).
  { exists (Z.to_nat s). lia. }
  do 64 (destruct n as [|n]; [by vm_compute|]). lia.
Qed.

Lemma sextets_b64_char s rest :
  0 ≤ s < 64 → sextets (String (b64_char s) rest) = s :: sextets rest.
Proof.
  intros Hs. destruct (unbase64_b64_char s Hs) as [Hv Hp].
  simpl. by rewrite Hp, Hv.
Qed.

Lemma sextets_pad rest : sextets (String pad_char rest) = [].
Proof. done. Qed.

Lemma list_ind3 {A} (P : list A → Prop) :
  P [] → (∀ a, P [a]) → (∀ a b, P [a; b]) →
  (∀ a b c l, P l → P (a :: b :: c :: l)) →
  ∀ l, P l.
Proof.
  intros H0 H1 H2 H3 l.
  assert (H : ∀ n l, (length l ≤ n)%nat → P l).
  { clear l. induction n as [|n IH]; intros [|a [|b [|c l]]] Hl;
      simpl in *; try done; try lia.
    apply H3, IH. lia. }
  by apply (H (length l)).
Qed.

Ltac euclid := Z.to_euclidean_division_equations; lia.

(** Decoding what was encoded gives the bytes back. *)
Lemma base64_roundtrip bs :
  Forall is_byte bs → base64_decode (base64_encode bs) = bs.
Proof.
  unfold base64_decode, is_byte.
  induction bs as [|a|a b|a b c l IH] using list_ind3; intros Hbs.
  - done.
  - apply Forall_cons in Hbs as [Ha _]. simpl base64_encode.
    rewrite !sextets_b64_char, sextets_pad by euclid. simpl.
    f_equal. euclid.
  - apply Forall_cons in Hbs as [Ha Hbs]. apply Forall_cons in Hbs as [Hb _].
    simpl base64_encode.
    rewrite !sextets_b64_char, sextets_pad by euclid. simpl.
    f_equal; [euclid|]. f_equal. euclid.
  - apply Forall_cons in Hbs as [Ha Hbs]. apply Forall_cons in Hbs as [Hb Hbs].
    apply Forall_cons in Hbs as [Hc Hbs].
    simpl base64_encode.
    rewrite !sextets_b64_char by euclid.
    cbn [decode_groups]. rewrite (IH Hbs).
    f_equal; [euclid|]. f_equal; [euclid|]. f_equal. euclid.
Qed.

Lemma base64_encode_nonempty bs : bs ≠ [] → base64_encode bs ≠ EmptyString.
Proof. destruct bs as [|a [|b [|c l]]]; simpl; done. Qed.

Lemma bytes_eqb_eq a b : bytes_eqb a b = true ↔ a = b.
Proof.
  revert b. induction a as [|x a IH]; intros [|y b]; simpl; try done.
  rewrite andb_true_iff, Z.eqb_eq, IH. split.
  - by intros [-> ->].
  - by intros [= -> ->].
Qed.

Lemma timingSafeEqual_same_length a b :
  length a = length b →
  timingSafeEqual a b = Some (bytes_eqb a b).
Proof. intros H. unfold timingSafeEqual. by rewrite H, Nat.eqb_refl. Qed.

End CryptoFacts.

(** ** JSON strings *)
Module JsFacts.
Import Js JsRead.

Lemma append_cons x (a b : string) : String x a +:+ b = String x (a +:+ b).
Proof. reflexivity. Qed.

Lemma append_nil (b : string) : EmptyString +:+ b = b.
Proof. reflexivity. Qed.

Lemma append_assoc (a b c : string) : (a +:+ b) +:+ c = a +:+ b +:+ c.
Proof. induction a as [|x a IH]; [done|]. by rewrite !append_cons, IH. Qed.

Lemma append_length (a b : string) :
  String.length (a +:+ b) = (String.length a + String.length b)%nat.
Proof.
  induction a as [|x a IH]; [done|]. rewrite append_cons. simpl. by rewrite IH.
Qed.

(** What is put before the same ending is the same. *)
Lemma append_inj_l (a b c : string) : a +:+ c = b +:+ c → a = b.
Proof.
  revert b. induction a as [|x a IH]; intros [|y b] H;
    rewrite ?append_cons, ?append_nil in H.
  - done.
  - apply (f_equal String.length) in H. simpl in H.
    rewrite append_length in H. lia.
  - apply (f_equal String.length) in H. simpl in H.
    rewrite append_length in H. lia.
  - injection H as -> H. f_equal. by apply IH.
Qed.


Lemma read_quote_char c r :
  read_body (quote_char c +:+ r) = read_more c (read_body r).
Proof. destruct c as [[] [] [] [] [] [] [] []]; reflexivity. Qed.

Lemma read_quote_body s r :
  read_body (quote_body s +:+ String dquote r) = Some (s, r).
Proof.
  induction s as [|c s IH]; [done|].
  cbn [quote_body]. rewrite append_assoc, read_quote_char, IH. done.
Qed.

(** A quoted string ends where its closing mark is: from a quoted string and
    what follows it, both can be read back. *)
Lemma quote_inj s s' r r' :
  quote s +:+ r = quote s' +:+ r' → s = s' ∧ r = r'.
Proof.
  unfold quote.
  repeat (rewrite append_assoc || rewrite append_cons || rewrite append_nil).
  intros H. injection H as H. apply (f_equal read_body) in H.
  rewrite !read_quote_body in H. by injection H.
Qed.

End JsFacts.

(** ** Security manager: signatures *)
Module SigningFacts.
Import Protocol Security SecuritySpec CryptoFacts JsFacts.
Local Open Scope Z_scope.

Lemma signMessage_mac e p st :
  signMessage e p st = Crypto.base64_encode (mac (messageId e) p st).
Proof. done. Qed.

Lemma signMessage_truthy e p st :
  truthy (Some (signMessage e p st)) = Some (signMessage e p st).
Proof.
  rewrite signMessage_mac.
  assert (Hne : Crypto.base64_encode (mac (messageId e) p st) ≠ EmptyString).
  { apply base64_encode_nonempty. intros Hnil.
    pose proof (hmac_sha256_length (sharedSecret st)
                  (Crypto.bytes_of_string (signed_data (messageId e) p))) as Hl.
    unfold mac in Hnil. by rewrite Hnil in Hl. }
  revert Hne. generalize (Crypto.base64_encode (mac (messageId e) p st)).
  intros s Hne. simpl. by destruct (String.eqb_spec s EmptyString).
Qed.

(** Verification compares the digest of what arrived with the digest that
    was signed. *)
Lemma verifySignature_mac e p mid' p' st :
  verifySignature (resigned e mid' (signMessage e p st)) p' st
  = bool_decide (mac mid' p' st = mac (messageId e) p st).
Proof.
  unfold verifySignature.
  change (signature (resigned e mid' (signMessage e p st)))
    with (Some (signMessage e p st)).
  rewrite signMessage_truthy, !signMessage_mac.
  change (messageId (resigned e mid' _)) with mid'.
  rewrite !base64_roundtrip by apply hmac_sha256_is_byte.
  rewrite timingSafeEqual_same_length
    by (unfold mac; by rewrite !hmac_sha256_length).
  generalize (mac mid' p' st) (mac (messageId e) p st). intros d' d. simpl.
  destruct (Crypto.bytes_eqb d d') eqn:E.
  - apply bytes_eqb_eq in E. symmetry. by apply bool_decide_eq_true_2.
  - symmetry. apply bool_decide_eq_false_2. intros Heq. symmetry in Heq.
    apply bytes_eqb_eq in Heq. congruence.
Qed.

(** The string that is signed. *)
Lemma signed_data_text mid p :
  signed_data mid p
  = "{" +:+ Js.quote "messageId" +:+ ":" +:+ Js.quote mid
        +:+ match Js.stringify p with
            | Some s => "," +:+ Js.quote "payload" +:+ ":" +:+ s +:+ "}"
            | None => "}"
            end.
Proof.
  unfold signed_data. cbn [Js.stringify default].
  destruct (Js.stringify p) as [s|]; cbn [Js.join];
    by repeat (rewrite append_assoc || rewrite append_cons || rewrite append_nil).
Qed.

(** The string that is signed determines the message id and the JSON text
    of the payload. *)
Lemma signed_data_inj mid p mid' p' :
  signed_data mid' p' = signed_data mid p
  ↔ mid' = mid ∧ Js.stringify p' = Js.stringify p.
Proof.
  rewrite !signed_data_text. split.
  - intros H. apply String.app_inj in H. apply quote_inj in H as [_ H].
    apply String.app_inj in H. apply quote_inj in H as [-> H].
    split; [done|].
    destruct (Js.stringify p') as [s'|], (Js.stringify p) as [s|];
      [|discriminate H..|done].
    apply String.app_inj in H. apply quote_inj in H as [_ H].
    apply String.app_inj in H. apply append_inj_l in H. by rewrite H.
  - by intros [-> ->].
Qed.

(** C7, counterexample: a heartbeat is signed; the payload that arrives has
    the optional property [load] present with the value undefined, so it is
    a different payload, but [JSON.stringify] leaves such a property out, the
    signed string is the same, and [verifySignature] returns true. *)
Lemma different_payload_same_signature :
  let sig := signMessage envelope1 heartbeat manager1 in
  heartbeat_load_undefined ≠ heartbeat
  ∧ verifySignature (resigned envelope1 (messageId envelope1) sig)
      heartbeat_load_undefined manager1 = true.
Proof. split; [done|]. by vm_compute. Qed.

(** C7, amended: [verifySignature] applied to an envelope that carries
    [signMessage(e, p)], together with [p], returns true.  What is signed is
    the string [JSON.stringify({ messageId, payload })]; two such strings are
    the same exactly when the message ids are the same and the payloads have
    the same JSON text.  With the same signature, another message id or
    another payload is accepted exactly when HMAC-SHA256 under the shared
    secret has the same value on the string of what arrives as on the string
    that was signed.  So the same message id with a payload of the same JSON
    text is accepted, as for payloads that differ only in properties whose
    value is undefined; and, provided HMAC-SHA256 does not take the same value
    on the two strings unless they are the same, a message is accepted only
    if its id is the one signed and its payload has the JSON text of the one
    signed: any other message id and any payload with another JSON text is
    rejected. *)
Theorem signature_detects_tampering (e : MessageEnvelope)
    (p p' : Js.value) (mid' : string) (st : State) :
  verifySignature (resigned e (messageId e) (signMessage e p st)) p st = true
  ∧ (signed_data mid' p' = signed_data (messageId e) p
     ↔ mid' = messageId e ∧ Js.stringify p' = Js.stringify p)
  ∧ (verifySignature (resigned e mid' (signMessage e p st)) p' st = true ↔
     Crypto.hmac_sha256 (sharedSecret st)
       (Crypto.bytes_of_string (signed_data mid' p'))
     = Crypto.hmac_sha256 (sharedSecret st)
         (Crypto.bytes_of_string (signed_data (messageId e) p)))
  ∧ (mid' = messageId e → Js.stringify p' = Js.stringify p →
     verifySignature (resigned e mid' (signMessage e p st)) p' st = true)
  ∧ (hmac_tells_apart st (signed_data mid' p') (signed_data (messageId e) p) →
     (verifySignature (resigned e mid' (signMessage e p st)) p' st = true
      ↔ mid' = messageId e ∧ Js.stringify p' = Js.stringify p)).
Proof.
  split_and!.
  - rewrite verifySignature_mac. by apply bool_decide_eq_true_2.
  - apply signed_data_inj.
  - rewrite verifySignature_mac. apply bool_decide_eq_true.
  - intros Hid Hp. rewrite verifySignature_mac. apply bool_decide_eq_true_2.
    unfold mac. by rewrite (proj2 (signed_data_inj _ _ _ _) (conj Hid Hp)).
  - intros Hapart. rewrite verifySignature_mac, bool_decide_eq_true.
    rewrite <- signed_data_inj. split; [apply Hapart|].
    intros Heq. unfold mac. by rewrite Heq.
Qed.

(** The tampering of the tests is detected: the digests of the strings are
    different, so the malicious payload under the signed id, and the signed
    payload under another id, are rejected. *)
Lemma signature_detects_tampering_witness :
  let sig := signMessage envelope1 heartbeat manager1 in
  hmac_tells_apart manager1 (signed_data (messageId envelope1) malicious)
    (signed_data (messageId envelope1) heartbeat)
  ∧ hmac_tells_apart manager1 (signed_data "another-id" heartbeat)
      (signed_data (messageId envelope1) heartbeat)
  ∧ verifySignature (resigned envelope1 (messageId envelope1) sig)
      malicious manager1 = false
  ∧ verifySignature (resigned envelope1 "another-id" sig)
      heartbeat manager1 = false.
Proof.
  intros sig.
  assert (H1 : hmac_tells_apart manager1
                 (signed_data (messageId envelope1) malicious)
                 (signed_data (messageId envelope1) heartbeat)).
  { intros H. vm_compute in H. discriminate H. }
  assert (H2 : hmac_tells_apart manager1 (signed_data "another-id" heartbeat)
                 (signed_data (messageId envelope1) heartbeat)).
  { intros H. vm_compute in H. discriminate H. }
  split_and!; [exact H1|exact H2| |].
  - apply not_true_is_false. intros Hv.
    apply (proj2 (proj2 (proj2 (proj2
             (signature_detects_tampering envelope1 heartbeat malicious
                (messageId envelope1) manager1)))) H1) in Hv as [_ Hv].
    vm_compute in Hv. discriminate Hv.
  - apply not_true_is_false. intros Hv.
    apply (proj2 (proj2 (proj2 (proj2
             (signature_detects_tampering envelope1 heartbeat heartbeat
                "another-id" manager1)))) H2) in Hv as [Hv _].
    discriminate Hv.
Defined.

(** The signature is the one Node computes for this key and message. *)
Example signMessage_value :
  signMessage envelope1 heartbeat manager1
  = "FGNse+5KvO/CdjteaDSvhqwa8uY9a48n/2vd6UC/++k=".
Proof. by vm_compute. Qed.

End SigningFacts.

(** ** Orchestrator: the selection of an agent *)
Module OrchestratorFacts.
Import Protocol Orchestrator OrchestratorSpec.
Local Open Scope Z_scope.

Lemma Qc_sub_le_0 (x y : Qc) : (x - y ≤ 0)%Qc ↔ (x ≤ y)%Qc.
Proof.
  rewrite (Qcplus_le_mono_r (x - y) 0 y).
  replace (x - y + y)%Qc with x by ring.
  by rewrite Qcplus_0_l.
Qed.

Lemma compareScored_le_0 x y : (compareScored x y ≤ 0)%Qc ↔ no_worse x y.
Proof.
  unfold compareScored, no_worse. case_decide as Hne.
  - rewrite Qc_sub_le_0. split.
    + intros Hle. left. apply Qcle_lt_or_eq in Hle as [?|?]; done.
    + intros [Hlt|[Heq _]]; [by apply Qclt_le_weak|done].
  - assert (Heq : s_load x = s_load y).
    { destruct (decide (s_load x = s_load y)); [done|]. by destruct Hne. }
    rewrite <- Z2Qc_inj_0, <- Z2Qc_inj_le. split.
    + intros Hle. right. split; [done|lia].
    + intros [Hlt|[_ Hle]]; [|lia].
      rewrite Heq in Hlt. by apply Qclt_not_eq in Hlt.
Qed.

Lemma no_worse_total x y : no_worse x y ∨ no_worse y x.
Proof.
  unfold no_worse.
  destruct (Qclt_le_dec (s_load x) (s_load y)) as [?|Hle]; [by left; left|].
  apply Qcle_lt_or_eq in Hle as [?|Heq]; [by right; left|].
  destruct (Z.le_ge_cases (s_priority x) (s_priority y)).
  - right. right. done.
  - left. right. done.
Qed.

Lemma no_worse_trans x y z : no_worse x y → no_worse y z → no_worse x z.
Proof.
  unfold no_worse. intros [Hxy|[Hxy Hp]] [Hyz|[Hyz Hq]].
  - left. by apply Qclt_trans with (s_load y).
  - left. by rewrite <- Hyz.
  - left. by rewrite Hxy.
  - right. split; [congruence|lia].
Qed.

(** The first element of the sorted array is one of the elements, and it is
    no worse than any of them. *)
Lemma head_insert_sorted x l h :
  head (insert_sorted x l) = Some h →
  (h = x ∧ ∀ y, head l = Some y → no_worse x y)
  ∨ (head l = Some h ∧ ¬ no_worse x h).
Proof.
  destruct l as [|y l]; simpl.
  { intros [= <-]. left. split; [done|]. by intros y. }
  case_decide as Hle; simpl; intros [= <-].
  - left. split; [done|]. intros ? [= <-]. by apply compareScored_le_0.
  - right. split; [done|]. by rewrite <- compareScored_le_0.
Qed.

Lemma insert_sorted_elem x l y : y ∈ insert_sorted x l ↔ y = x ∨ y ∈ l.
Proof.
  induction l as [|z l IH]; simpl.
  { rewrite list_elem_of_singleton, elem_of_nil. tauto. }
  case_decide; rewrite !elem_of_cons; [tauto|]. rewrite IH. tauto.
Qed.

Lemma sort_elem l y : y ∈ sort l ↔ y ∈ l.
Proof.
  induction l as [|x l IH]; simpl; [done|].
  rewrite insert_sorted_elem, elem_of_cons, IH. tauto.
Qed.

Lemma head_sort_min l h :
  head (sort l) = Some h → h ∈ l ∧ ∀ y, y ∈ l → no_worse h y.
Proof.
  revert h. induction l as [|x l IH]; intros h; simpl; [done|].
  intros Hh. apply head_insert_sorted in Hh as [[-> Hmin]|[Hh Hnw]].
  - split; [by left|]. intros y [->|Hy]%elem_of_cons.
    + destruct (no_worse_total x x); done.
    + destruct (head (sort l)) as [m|] eqn:Hm.
      * destruct (IH m eq_refl) as [_ Hmmin].
        eapply no_worse_trans; [by apply Hmin|by apply Hmmin].
      * apply sort_elem in Hy. destruct (sort l); [by apply elem_of_nil in Hy|done].
  - destruct (IH h Hh) as [Hin Hmin]. split; [by right|].
    intros y [->|Hy]%elem_of_cons; [|by apply Hmin].
    destruct (no_worse_total h x); done.
Qed.

Lemma head_sort_Some l : l ≠ [] → is_Some (head (sort l)).
Proof.
  destruct l as [|x l]; [done|]. intros _. simpl.
  destruct (sort l) as [|y s]; simpl; [by eexists|].
  case_decide; by eexists.
Qed.

Lemma elem_of_map_values {A} (m : gmap string A) (x : A) :
  x ∈ (map_to_list m).*2 ↔ ∃ k, m !! k = Some x.
Proof.
  rewrite list_elem_of_fmap. split.
  - intros ([k y] & -> & Hin). exists k. by apply elem_of_map_to_list.
  - intros (k & Hk). exists (k, x). split; [done|]. by apply elem_of_map_to_list.
Qed.

(** The set of ids [selectAgent] filters with holds the agents whose
    assignment has the role. *)
Lemma assignedIds_holds rm rid (a : Identity.MultiAgentIdentity) :
  asg_keys_ok rm →
  Identity.agentInstanceId a
    ∈ (list_to_set (RoleManager.agentInstanceId
                      <$> RoleManager.getAgentsWithRole rid rm) : gset string)
  ↔ holds_role rm rid a.
Proof.
  intros Hkeys. unfold holds_role, RoleManager.getAgentsWithRole.
  rewrite elem_of_list_to_set, list_elem_of_fmap. split.
  - intros (asg & Hid & Hin). apply list_elem_of_filter in Hin as [Hrole Hin].
    apply elem_of_map_values in Hin as (k & Hk).
    exists asg. split; [|done]. rewrite Hid, (Hkeys k asg Hk). done.
  - intros (asg & Hasg & Hrole). exists asg. split.
    + symmetry. by apply (Hkeys _ _ Hasg).
    + apply list_elem_of_filter. split; [done|].
      apply elem_of_map_values. eauto.
Qed.

(** [selectAgent] with a role and no agent named: the first of the sorted
    candidates, where the candidates are the local agents whose id is among
    those of the role's assignments. *)
Lemma selectAgent_unfold rid tid st :
  rid ≠ EmptyString → truthy tid = None →
  selectAgent (Some rid) tid st
  = s_agent <$> head (sort (score st <$>
      filter (λ a, Identity.agentInstanceId a
                   ∈ (list_to_set (RoleManager.agentInstanceId
                        <$> RoleManager.getAgentsWithRole rid (roleManager st))
                      : gset string))
             (getLocalAgents (router st)))).
Proof.
  intros Hrid Htid. unfold selectAgent. rewrite Htid.
  assert (Htr : truthy (Some rid) = Some rid).
  { simpl. by destruct (String.eqb_spec rid EmptyString). }
  rewrite Htr.
  destruct (getLocalAgents (router st)) as [|a0 agents]; [done|].
  by destruct (filter _ (a0 :: agents)).
Qed.

Lemma selectAgent_by_role rid tid st :
  rid ≠ EmptyString → truthy tid = None → asg_keys_ok (roleManager st) →
  match selectAgent (Some rid) tid st with
  | Some a =>
    a ∈ getLocalAgents (router st) ∧ holds_role (roleManager st) rid a
    ∧ ∀ b, b ∈ getLocalAgents (router st) → holds_role (roleManager st) rid b →
           no_worse (score st a) (score st b)
  | None =>
    ∀ b, b ∈ getLocalAgents (router st) → ¬ holds_role (roleManager st) rid b
  end.
Proof.
  intros Hrid Htid Hkeys. rewrite selectAgent_unfold by done.
  set (ids := list_to_set _ : gset string).
  set (cands := filter _ _).
  assert (Hc : ∀ b, b ∈ cands ↔ b ∈ getLocalAgents (router st)
                                 ∧ holds_role (roleManager st) rid b).
  { intros b. unfold cands. rewrite list_elem_of_filter.
    unfold ids. rewrite assignedIds_holds by done. tauto. }
  destruct (head (sort (score st <$> cands))) as [h|] eqn:Hh; simpl.
  - apply head_sort_min in Hh as [Hin Hmin].
    apply list_elem_of_fmap in Hin as (a & -> & Ha). simpl.
    apply Hc in Ha as [Hloc Hholds]. split_and!; [done..|].
    intros b Hb Hbh. apply Hmin, list_elem_of_fmap. exists b.
    split; [done|]. by apply Hc.
  - intros b Hb Hbh. assert (Hin : b ∈ cands) by (by apply Hc).
    destruct cands as [|c cands']; [by apply elem_of_nil in Hin|].
    assert (Hne : score st <$> c :: cands' ≠ []) by done.
    destruct (head_sort_Some _ Hne) as [h Hsome]. congruence.
Qed.

Lemma no_worse_loads x y :
  no_worse x y →
  (s_load x ≤ s_load y)%Qc ∧ (s_load x = s_load y → s_priority y ≤ s_priority x).
Proof.
  intros [Hlt|[Heq Hp]].
  - split; [by apply Qclt_le_weak|]. intros Heq. rewrite Heq in Hlt.
    by apply Qclt_not_eq in Hlt.
  - split; [|done]. rewrite Heq. apply Qcle_refl.
Qed.

(** [selectAgent] reads the router, the role manager and the heartbeats. *)
Lemma selectAgent_with_workTracker rid tid wt st :
  selectAgent rid tid (with_workTracker wt st) = selectAgent rid tid st.
Proof. done. Qed.

(** The list [getLocalAgents] returns holds the registered agents. *)
Lemma getLocalAgents_registered st a :
  a ∈ getLocalAgents (router st) ↔ registered st a.
Proof.
  unfold getLocalAgents, registered. rewrite list_elem_of_fmap. split.
  - intros ([id a'] & -> & Hin). by exists id.
  - intros (id & Hin). by exists (id, a).
Qed.

(** The load and the priority an agent is sorted by are those of its
    heartbeat and of its role. *)
Lemma score_load st a : s_load (score st a) = load_of st a.
Proof.
  unfold score, load_of. simpl.
  destruct (agentHeartbeats st !! Identity.agentInstanceId a) as [hb|]; [|done].
  simpl. by destruct (load hb).
Qed.

Lemma score_priority st a : s_priority (score st a) = priority_of st a.
Proof.
  unfold score, priority_of, RoleManager.getAssignment. simpl.
  destruct (RoleManager.assignments (roleManager st)
              !! Identity.agentInstanceId a) as [asg|]; [|done].
  simpl. by destruct (Role.priority (RoleManager.role asg)).
Qed.

Section WithClock.
Variable Date_getTime : string → option Z.

(** C9: [submitTask] with a non-empty [targetRoleId] and no
    [targetAgentInstanceId], in a state where every assignment is stored
    under the id of its agent: either the task is assigned to an agent that
    is registered with the local router and holds the role, whose load (the
    one reported in the heartbeat last recorded for it, 0 without one) is
    minimal among the registered agents holding the role, and whose role
    priority (50 without one) is the highest among those of the same load,
    and the task returned is in progress and assigned to it; or no
    registered agent holds the role, and the task returned is pending and
    assigned to nobody. *)
Theorem submitTask_selects_by_load_then_priority
    (opts : SubmitOpts) (uuid_task uuid_corr uuid_msg iso : string) (now : Z)
    (st : State) (rid : string) :
  o_targetRoleId opts = Some rid → rid ≠ EmptyString →
  o_targetAgentInstanceId opts = None →
  asg_keys_ok (roleManager st) →
  let r := submitTask Date_getTime opts uuid_task uuid_corr uuid_msg iso now st in
  (∃ a, registered st a
        ∧ holds_role (roleManager st) rid a
        ∧ (∀ b, registered st b →
                holds_role (roleManager st) rid b →
                (load_of st a ≤ load_of st b)%Qc
                ∧ (load_of st a = load_of st b →
                   priority_of st b ≤ priority_of st a))
        ∧ WorkTracker.assignedTo <$> r.1.1 = Some (Some a)
        ∧ WorkTracker.status <$> r.1.1 = Some WorkTracker.in_progress
        ∧ last r.2 = Some (Emitted (TaskAssigned uuid_task
                                      (Identity.agentInstanceId a))))
  ∨ ((∀ b, registered st b → ¬ holds_role (roleManager st) rid b)
     ∧ WorkTracker.status <$> r.1.1 = Some WorkTracker.pending
     ∧ WorkTracker.assignedTo <$> r.1.1 = Some None
     ∧ r.2 = [Emitted (TaskCreated uuid_task)]).
Proof.
  intros Hrole Hrid Htid Hkeys r.
  pose proof (selectAgent_by_role rid None st Hrid eq_refl Hkeys) as Hsel.
  unfold r, submitTask. rewrite Hrole, Htid, selectAgent_with_workTracker.
  destruct (selectAgent (Some rid) None st) as [a|].
  - left. exists a. destruct Hsel as (Hloc & Hholds & Hmin).
    split_and!; [by apply getLocalAgents_registered|done| | | |].
    + intros b Hb Hbh. rewrite <- !score_load, <- !score_priority.
      by apply no_worse_loads, Hmin; [apply getLocalAgents_registered|].
    + simpl. unfold WorkTracker.getTask, WorkTracker.startTask,
        WorkTracker.assignTask, WorkTracker.createTask. simpl.
      rewrite lookup_insert_eq. simpl. rewrite lookup_insert_eq. simpl.
      by rewrite lookup_insert_eq.
    + simpl. unfold WorkTracker.getTask, WorkTracker.startTask,
        WorkTracker.assignTask, WorkTracker.createTask. simpl.
      rewrite lookup_insert_eq. simpl. rewrite lookup_insert_eq. simpl.
      by rewrite lookup_insert_eq.
    + simpl. rewrite app_comm_cons. apply last_snoc.
  - right. split_and!; [|  | |done].
    + intros b Hb. by apply Hsel, getLocalAgents_registered.
    + simpl. unfold WorkTracker.getTask, WorkTracker.createTask. simpl.
      by rewrite lookup_insert_eq.
    + simpl. unfold WorkTracker.getTask, WorkTracker.createTask. simpl.
      by rewrite lookup_insert_eq.
Qed.

End WithClock.

Lemma two_coders_keys_ok : asg_keys_ok (roleManager two_coders).
Proof. apply (bool_decide_unpack _). vm_compute. exact I. Qed.

(** Of the two registered coders the busy one has the load of its
    heartbeat and the other none; both have the priority of the role. *)
Lemma two_coders_loads :
  registered two_coders (coder "a1") ∧ registered two_coders (coder "a2")
  ∧ holds_role (roleManager two_coders) "coder" (coder "a1")
  ∧ holds_role (roleManager two_coders) "coder" (coder "a2")
  ∧ load_of two_coders (coder "a1") = Q2Qc (QArith_base.Qmake 1 2)
  ∧ load_of two_coders (coder "a2") = 0%Qc
  ∧ priority_of two_coders (coder "a1") = priority_of two_coders (coder "a2").
Proof.
  split_and!.
  - exists "a1". vm_compute. repeat constructor.
  - exists "a2". vm_compute. repeat constructor.
  - unfold holds_role. eexists. split; evaluate.
  - unfold holds_role. eexists. split; evaluate.
  - evaluate.
  - evaluate.
  - evaluate.
Qed.

(** Two registered coders, the first with a heartbeat reporting a load of
    one half and the second with none: the task goes to the second. *)
Lemma submitTask_selects_by_load_then_priority_witness :
  let r := submitTask RouterSpec.no_clock for_coder "t-1" "c-1" "m-1"
             "2026-01-01T00:00:00.000Z" 10 two_coders in
  o_targetRoleId for_coder = Some "coder" ∧ "coder" ≠ EmptyString
  ∧ o_targetAgentInstanceId for_coder = None
  ∧ asg_keys_ok (roleManager two_coders)
  ∧ ((∃ a, registered two_coders a
          ∧ holds_role (roleManager two_coders) "coder" a
          ∧ (∀ b, registered two_coders b →
                  holds_role (roleManager two_coders) "coder" b →
                  (load_of two_coders a ≤ load_of two_coders b)%Qc
                  ∧ (load_of two_coders a = load_of two_coders b →
                     priority_of two_coders b ≤ priority_of two_coders a))
          ∧ WorkTracker.assignedTo <$> r.1.1 = Some (Some a)
          ∧ WorkTracker.status <$> r.1.1 = Some WorkTracker.in_progress
          ∧ last r.2 = Some (Emitted (TaskAssigned "t-1"
                                        (Identity.agentInstanceId a))))
     ∨ ((∀ b, registered two_coders b →
              ¬ holds_role (roleManager two_coders) "coder" b)
        ∧ WorkTracker.status <$> r.1.1 = Some WorkTracker.pending
        ∧ WorkTracker.assignedTo <$> r.1.1 = Some None
        ∧ r.2 = [Emitted (TaskCreated "t-1")]))
  ∧ load_of two_coders (coder "a1") = Q2Qc (QArith_base.Qmake 1 2)
  ∧ load_of two_coders (coder "a2") = 0%Qc
  ∧ WorkTracker.assignedTo <$> r.1.1 = Some (Some (coder "a2"))
  ∧ WorkTracker.status <$> r.1.1 = Some WorkTracker.in_progress
  ∧ last r.2 = Some (Emitted (TaskAssigned "t-1" "a2")).
Proof.
  intros r.
  split_and!; [reflexivity|done|reflexivity|exact two_coders_keys_ok|
               |evaluate|evaluate|evaluate|evaluate|evaluate].
  exact (submitTask_selects_by_load_then_priority RouterSpec.no_clock for_coder
           "t-1" "c-1" "m-1" "2026-01-01T00:00:00.000Z" 10 two_coders "coder"
           eq_refl (λ H, ltac:(discriminate H)) eq_refl two_coders_keys_ok).
Defined.

(** The agent that has reported no load is preferred to the one at one
    half. *)
Example idle_coder_selected :
  selectAgent (Some "coder") None two_coders = Some (coder "a2").
Proof. by vm_compute. Qed.

End OrchestratorFacts.

(** ** Security manager: authorization *)
Module AuthorizeFacts.
Import Protocol Security Security.Policy SecuritySpec AuthorizeSpec.
Local Open Scope Z_scope.

Lemma authorizeMessage_rate_limited m now st :
  (checkRateLimit (sender m) now st).1 = false →
  authorizeMessage m now st
  = ((false, Some "rate limit exceeded"), (checkRateLimit (sender m) now st).2).
Proof. intros H. unfold authorizeMessage. fold (sender m). by rewrite H. Qed.

Lemma authorizeMessage_broadcast_denied m now st :
  to (envelope m) = None →
  allowCrossGateway (getPolicy (sender m) st) = false →
  (checkRateLimit (sender m) now st).1 = true →
  authorizeMessage m now st
  = ((false, Some "cross-gateway communication not allowed"),
     logAudit
       {| Audit.timestamp := now; Audit.agentId := sender m;
          Audit.action := "cross-gateway.denied"; Audit.allowed := false;
          Audit.reason := Some "cross-gateway communication not allowed";
          Audit.sourceIp := None |}
       (checkRateLimit (sender m) now st).2).
Proof.
  intros Hto Hpol Hrl. unfold authorizeMessage. fold (sender m).
  by rewrite Hrl, Hto, Hpol.
Qed.

(** C10, counterexample: the sender may send one message a minute and no
    cross-gateway messages.  Its second broadcast within the minute is denied
    with the reason "rate limit exceeded", not with
    "cross-gateway communication not allowed". *)
Lemma broadcast_denied_for_rate_limit :
  let st := setPolicy one_per_minute manager1 in
  let st1 := (authorizeMessage broadcast_heartbeat 0 st).2 in
  to (envelope broadcast_heartbeat) = None
  ∧ allowCrossGateway (getPolicy (sender broadcast_heartbeat) st1) = false
  ∧ (authorizeMessage broadcast_heartbeat 1 st1).1
    = (false, Some "rate limit exceeded").
Proof. by vm_compute. Qed.

(** C10, amended: a message without [to] from a sender whose policy has
    [allowCrossGateway = false] is always denied.  The rate limit is checked
    first: if [checkRateLimit] allows the call, the reason is
    "cross-gateway communication not allowed" and one audit entry with action
    "cross-gateway.denied" is appended; if it does not, the reason is
    "rate limit exceeded". *)
Theorem broadcast_is_cross_gateway (m : MultiAgentMessage) (now : Z)
    (st : State) :
  to (envelope m) = None →
  allowCrossGateway (getPolicy (sender m) st) = false →
  (authorizeMessage m now st).1.1 = false
  ∧ (if (checkRateLimit (sender m) now st).1
     then (authorizeMessage m now st).1.2
          = Some "cross-gateway communication not allowed"
          ∧ ∃ e, auditLog (authorizeMessage m now st).2
                 = auditLog st ++ [e]
                 ∧ Audit.action e = "cross-gateway.denied"
                 ∧ Audit.agentId e = sender m
                 ∧ Audit.allowed e = false
     else (authorizeMessage m now st).1.2 = Some "rate limit exceeded").
Proof.
  intros Hto Hpol.
  destruct (checkRateLimit (sender m) now st).1 eqn:Hrl.
  - rewrite (authorizeMessage_broadcast_denied m now st Hto Hpol Hrl). simpl.
    split_and!; [done..|].
    pose proof (RateLimitFacts.checkRateLimit_audit (sender m) now st) as Ha.
    rewrite Hrl in Ha. rewrite Ha. eexists. split_and!; reflexivity.
  - by rewrite (authorizeMessage_rate_limited m now st Hrl).
Qed.

Lemma broadcast_is_cross_gateway_witness :
  let st := setPolicy one_per_minute manager1 in
  to (envelope broadcast_heartbeat) = None
  ∧ allowCrossGateway (getPolicy (sender broadcast_heartbeat) st) = false
  ∧ (authorizeMessage broadcast_heartbeat 0 st).1.1 = false.
Proof.
  intros st. split; [reflexivity|]. split; [reflexivity|].
  exact (proj1 (broadcast_is_cross_gateway broadcast_heartbeat 0 st
                  eq_refl eq_refl)).
Defined.

End AuthorizeFacts.

(** ** Maps filled from a list *)
Module KeyedMapsFacts.
Import KeyedMaps.

Section SetAll.
Context {V : Type} (key : V → string).

Local Abbreviation set_all := (KeyedMaps.set_all key).
Local Abbreviation keyed := (KeyedMaps.keyed key).

Lemma set_all_keyed m l : keyed m → keyed (set_all m l).
Proof.
  revert m. induction l as [|x l IH]; intros m Hm; [done|].
  simpl. apply IH. by apply map_Forall_insert_2.
Qed.

Lemma set_all_lookup m l k :
  NoDup (key <$> l) →
  set_all m l !! k
  = match list_find (λ x, key x = k) l with
    | Some (_, x) => Some x
    | None => m !! k
    end.
Proof.
  revert m. induction l as [|x l IH]; intros m Hnd; [done|].
  rewrite fmap_cons in Hnd. apply NoDup_cons in Hnd as [Hx Hnd].
  simpl. rewrite IH by done.
  destruct (list_find (λ x0, key x0 = k) l) as [[i y]|] eqn:Hfind; simpl.
  - apply list_find_Some in Hfind as (Hi & Hy & _).
    rewrite decide_False; [done|]. intros Hk. apply Hx.
    rewrite Hk, <- Hy. apply list_elem_of_fmap_2.
    by eapply list_elem_of_lookup_2.
  - case_decide as Hk.
    + by rewrite <- Hk, lookup_insert_eq.
    + by rewrite lookup_insert_ne.
Qed.

Lemma values_keyed (m : gmap string V) :
  keyed m → NoDup (key <$> (map_to_list m).*2).
Proof.
  intros Hm.
  assert (key <$> (map_to_list m).*2 = (map_to_list m).*1) as ->.
  { rewrite <- list_fmap_compose. apply list_fmap_ext.
    intros i [k x] Hin. simpl. apply (Hm k x).
    apply elem_of_map_to_list. by eapply list_elem_of_lookup_2. }
  apply NoDup_fst_map_to_list.
Qed.

(** Setting the values of a keyed map, in whatever order, into an empty map
    gives the map back. *)
Lemma set_all_values (m : gmap string V) l :
  keyed m → l ≡ₚ (map_to_list m).*2 → set_all ∅ l = m.
Proof.
  intros Hm Hl. apply map_eq. intros k.
  rewrite set_all_lookup.
  2:{ rewrite Hl. by apply values_keyed. }
  destruct (list_find (λ x, key x = k) l) as [[i y]|] eqn:Hfind.
  - apply list_find_Some in Hfind as (Hi & Hy & _).
    apply list_elem_of_lookup_2 in Hi. rewrite Hl in Hi.
    apply list_elem_of_fmap in Hi as ([k' x] & -> & Hin). simpl in *.
    apply elem_of_map_to_list in Hin. rewrite <- Hy.
    by rewrite (Hm k' x Hin).
  - rewrite lookup_empty. symmetry. apply eq_None_not_Some. intros [x Hx].
    apply list_find_None in Hfind.
    assert (x ∈ l) as Hin.
    { rewrite Hl. apply list_elem_of_fmap. exists (k, x). split; [done|].
      by apply elem_of_map_to_list. }
    eapply Forall_forall in Hfind; [|exact Hin]. apply Hfind.
    by apply (Hm k x).
Qed.

End SetAll.

End KeyedMapsFacts.

(** ** Work tracker: sequences of operations *)
Module WorkTrackerMore.
Import Protocol.Identity WorkTracker WorkTrackerSpec WorkTrackerOps.
Local Open Scope Z_scope.

(** What an operation on a task does to the map of tasks: nothing, or it
    replaces one task by a task with the same identity. *)
Lemma on_task_shape op st :
  on_task op = true →
  apply st op = st
  ∨ ∃ id t t', tasks st !! id = Some t
      ∧ tasks (apply st op) = <[id := t']> (tasks st)
      ∧ same_identity t t'
      ∧ workflowTaskIndex (apply st op) = workflowTaskIndex st
      ∧ stepIndex (apply st op) = stepIndex st
      ∧ (retryCount t' = retryCount t
         ∨ retryCount t' = retryCount t + 1 ∧ retryCount t < maxRetries t)
      ∧ (assignedTo t' = assignedTo t
           ∧ agentTaskIndex (apply st op) = agentTaskIndex st
         ∨ assignedTo t' = None
           ∧ agentTaskIndex (apply st op) = agentTaskIndex st
         ∨ ∃ a, assignedTo t' = Some a
             ∧ agentTaskIndex (apply st op)
               = index_add (agentInstanceId a) id (agentTaskIndex st)).
Proof.
  destruct op; simpl; try done; intros _.
  - unfold assignTask. destruct (tasks st !! id) as [t|] eqn:Ht; [|by left].
    case_match; [by left|]. right. eexists id, t, _.
    split_and!; try done; simpl; [by left|]. right. right. by eexists.
  - unfold startTask. destruct (tasks st !! id) as [t|] eqn:Ht; [|by left].
    case_match; [by left|]. right. eexists id, t, _.
    split_and!; try done; simpl; by left.
  - unfold updateProgress. destruct (tasks st !! id) as [t|] eqn:Ht; [|by left].
    right. eexists id, t, _. split_and!; try done; simpl; by left.
  - unfold completeTask. destruct (tasks st !! id) as [t|] eqn:Ht; [|by left].
    right. eexists id, t, _. split_and!; try done; simpl; by left.
  - unfold cancelTask. destruct (tasks st !! id) as [t|] eqn:Ht; [|by left].
    case_match; [by left|]. right. eexists id, t, _.
    split_and!; try done; simpl; by left.
  - unfold retryTask. destruct (tasks st !! id) as [t|] eqn:Ht; [|by left].
    case_match; [by left|].
    destruct (Z.leb_spec (maxRetries t) (retryCount t)); [by left|].
    right. eexists id, t, _. split_and!; try done; simpl.
    + right. done.
    + right. left. done.
Qed.

Lemma cleanup_tasks maxAgeMs now st id :
  tasks (cleanup maxAgeMs now st).2 !! id
  = if decide (Exists (removes (now - maxAgeMs) id) (map_to_list (tasks st)))
    then None else tasks st !! id.
Proof. apply CleanupFacts.loop_tasks. Qed.

Lemma cleanup_tasks_Some maxAgeMs now st id t :
  tasks (cleanup maxAgeMs now st).2 !! id = Some t →
  tasks st !! id = Some t ∧ removable (now - maxAgeMs) t = false.
Proof.
  rewrite cleanup_tasks. case_decide as Hex; [done|]. intros Ht.
  split; [done|]. destruct (removable (now - maxAgeMs) t) eqn:Hr; [|done].
  destruct Hex. apply Exists_exists. exists (id, t). split; [|done].
  by apply elem_of_map_to_list.
Qed.

Lemma index_add_mono k id idx a x :
  x ∈ default ∅ (idx !! a) → x ∈ default ∅ (index_add k id idx !! a).
Proof.
  unfold index_add. destruct (decide (k = a)) as [->|Hne].
  - rewrite lookup_insert_eq. simpl. apply elem_of_union_l.
  - by rewrite lookup_insert_ne.
Qed.

Lemma index_add_elem k id idx : id ∈ default ∅ (index_add k id idx !! k).
Proof.
  unfold index_add. rewrite lookup_insert_eq. simpl.
  apply elem_of_union_r, elem_of_singleton. done.
Qed.

(** *** The guarded operations and the statuses completed and cancelled *)

Lemma apply_status_None id op st :
  spares id op = true → status_of id st = None →
  status_of id (apply st op) = None.
Proof.
  unfold status_of. intros Hop Hid.
  assert (Hnone : tasks st !! id = None).
  { by destruct (tasks st !! id). }
  destruct (on_task op) eqn:Hon.
  - destruct (on_task_shape op st Hon)
      as [->|(i & t & t' & Ht & -> & _)]; [done|].
    rewrite lookup_insert_ne; [done|]. intros ->. congruence.
  - destruct op; try done; cbn [apply].
    + simpl in *. rewrite lookup_insert_ne; [done|].
      apply negb_true_iff in Hop. by apply String.eqb_neq in Hop.
    + rewrite cleanup_tasks. by case_decide.
Qed.

Lemma apply_status_terminal id op st s :
  spares id op = true → status_of id st = Some s → terminal s →
  status_of id (apply st op) = Some s ∨ status_of id (apply st op) = None.
Proof.
  intros Hop Hs Hterm. destruct op as [o nw|i ag nw|i nw|i pc ln|i r nw|i nw|i|m nw];
    cbn [apply spares] in *.
  - left. unfold status_of in *. simpl. rewrite lookup_insert_ne; [done|].
    apply negb_true_iff in Hop. by apply String.eqb_neq in Hop.
  - left. destruct (decide (i = id)) as [->|Hne].
    + by rewrite (WorkTrackerFacts.assignTask_keeps_terminal _ _ _ _ _ Hs Hterm).
    + unfold status_of, assignTask in *.
      destruct (tasks st !! i); [|done]. case_match; [done|]. simpl.
      by rewrite lookup_insert_ne.
  - left. destruct (decide (i = id)) as [->|Hne].
    + by rewrite (WorkTrackerFacts.startTask_keeps_terminal _ _ _ _ Hs Hterm).
    + unfold status_of, startTask in *.
      destruct (tasks st !! i); [|done]. case_match; [done|]. simpl.
      by rewrite lookup_insert_ne.
  - left. unfold status_of, updateProgress in *.
    destruct (tasks st !! i) as [t|] eqn:Ht; [|done]. simpl.
    destruct (decide (i = id)) as [->|Hne].
    + rewrite lookup_insert_eq. rewrite Ht in Hs. done.
    + by rewrite lookup_insert_ne.
  - left. apply negb_true_iff, String.eqb_neq in Hop.
    unfold status_of, completeTask in *.
    destruct (tasks st !! i); [|done]. simpl. by rewrite lookup_insert_ne.
  - left. destruct (decide (i = id)) as [->|Hne].
    + by rewrite (WorkTrackerFacts.cancelTask_keeps_terminal _ _ _ _ Hs Hterm).
    + unfold status_of, cancelTask in *.
      destruct (tasks st !! i); [|done]. case_match; [done|]. simpl.
      by rewrite lookup_insert_ne.
  - left. destruct (decide (i = id)) as [->|Hne].
    + by rewrite (WorkTrackerFacts.retryTask_keeps_terminal _ _ _ Hs Hterm).
    + unfold status_of, retryTask in *.
      destruct (tasks st !! i); [|done]. case_match; [done|].
      case_match; [done|]. simpl. by rewrite lookup_insert_ne.
  - unfold status_of in *. rewrite cleanup_tasks. case_decide; [by right|by left].
Qed.

(** X1: a task that is completed or cancelled keeps that status through
    every sequence of operations in which it is not created again and
    [completeTask] is not called for it, until [cleanup] removes it:
    [assignTask], [startTask], [cancelTask] and [retryTask] refuse it,
    [updateProgress] does not write the status, and operations on other tasks
    do not touch it. *)
Theorem terminal_status_kept id ops st s :
  status_of id st = Some s → terminal s →
  forallb (spares id) ops = true →
  status_of id (run ops st) = Some s ∨ status_of id (run ops st) = None.
Proof.
  intros Hs Hterm.
  assert (Hinv : status_of id st = Some s ∨ status_of id st = None) by by left.
  clear Hs. revert st Hinv. induction ops as [|op ops IH]; intros st Hinv; [done|].
  simpl. intros [Hop Hops]%andb_true_iff. apply IH; [|done].
  destruct Hinv as [Hs|Hn].
  - by apply apply_status_terminal.
  - right. by apply apply_status_None.
Qed.

Lemma terminal_status_kept_witness :
  status_of "t1" (cancelTask "t1" 5 created).2 = Some cancelled
  ∧ terminal cancelled
  ∧ forallb (spares "t1") after_cancel = true
  ∧ (status_of "t1" (run after_cancel (cancelTask "t1" 5 created).2)
     = Some cancelled
     ∨ status_of "t1" (run after_cancel (cancelTask "t1" 5 created).2) = None).
Proof.
  split; [evaluate|]. split; [by right|]. split; [evaluate|].
  apply (terminal_status_kept "t1" after_cancel
           (cancelTask "t1" 5 created).2 cancelled);
    [evaluate|by right|evaluate].
Defined.

(** *** What an operation on a task leaves alone *)

(** X2: [assignTask], [startTask], [updateProgress], [completeTask],
    [cancelTask] and [retryTask] create and delete no task and change one
    task at most; of every task they leave the id, the correlation id, the
    text, the requester, the step and plan ids, the priority, the creation
    time, the deadline, the maximum of retries and the tags as they are; they
    leave the plan index and the step index as they are, and they remove
    nothing from the agent index. *)
Theorem operation_on_task_frame op st :
  on_task op = true →
  dom (tasks (apply st op)) = dom (tasks st)
  ∧ (∃ i, ∀ id, id ≠ i → tasks (apply st op) !! id = tasks st !! id)
  ∧ (∀ id t, tasks st !! id = Some t →
       ∃ t', tasks (apply st op) !! id = Some t' ∧ same_identity t t')
  ∧ workflowTaskIndex (apply st op) = workflowTaskIndex st
  ∧ stepIndex (apply st op) = stepIndex st
  ∧ (∀ a x, x ∈ default ∅ (agentTaskIndex st !! a) →
            x ∈ default ∅ (agentTaskIndex (apply st op) !! a)).
Proof.
  intros Hon.
  destruct (on_task_shape op st Hon)
    as [->|(i & t & t' & Ht & Htasks & Hid & Hw & Hs & _ & Hasg)].
  - split_and!; try done.
    + by exists EmptyString.
    + intros id t Ht. exists t. by split.
  - rewrite Htasks, Hw, Hs. split_and!; try done.
    + by apply dom_insert_lookup_L.
    + exists i. intros id Hne. by rewrite lookup_insert_ne.
    + intros id u Hu. destruct (decide (i = id)) as [->|Hne].
      * rewrite lookup_insert_eq. exists t'. split; [done|]. congruence.
      * rewrite lookup_insert_ne by done. exists u. by split.
    + intros a x Hx. destruct Hasg as [[_ ->]|[[_ ->]|(a' & _ & ->)]]; try done.
      by apply index_add_mono.
Qed.

Lemma operation_on_task_frame_witness :
  on_task (OpStart "t1" 20) = true
  ∧ dom (tasks (apply (run assigned_ops empty) (OpStart "t1" 20)))
    = dom (tasks (run assigned_ops empty)).
Proof.
  split; [evaluate|].
  apply (operation_on_task_frame (OpStart "t1" 20) (run assigned_ops empty)).
  evaluate.
Defined.

(** *** The retry counter *)

Lemma apply_retries_bounded op st :
  retries_allowed op = true → retries_bounded st →
  retries_bounded (apply st op).
Proof.
  intros Hop Hst. destruct (on_task op) eqn:Hon.
  - destruct (on_task_shape op st Hon)
      as [->|(id & t & t' & Ht & Htasks & Hid & _ & _ & Hcount & _)]; [done|].
    unfold retries_bounded. rewrite Htasks.
    apply map_Forall_insert_2; [|done].
    specialize (Hst id t Ht). simpl in Hst.
    destruct Hid as (_ & _ & _ & _ & _ & _ & _ & _ & _ & Hmax & _).
    destruct Hcount as [->|[-> ?]]; lia.
  - destruct op; try done; simpl in *.
    + apply map_Forall_insert_2; [|done]. simpl. by apply Z.leb_le.
    + intros id t Ht. apply cleanup_tasks_Some in Ht as [Ht _].
      by apply (Hst id t).
Qed.

(** X3: [retryCount] never exceeds [maxRetries]: if it holds of every
    tracked task, it holds after every sequence of operations in which no
    task is created with a negative [maxRetries]. *)
Theorem retry_count_bounded ops st :
  forallb retries_allowed ops = true →
  (∀ id t, tasks st !! id = Some t → retryCount t ≤ maxRetries t) →
  ∀ id t, tasks (run ops st) !! id = Some t → retryCount t ≤ maxRetries t.
Proof.
  revert st. induction ops as [|op ops IH]; intros st; simpl; [auto|].
  intros [Hop Hops]%andb_true_iff Hst. apply IH; [done|].
  by apply apply_retries_bounded.
Qed.

Lemma retry_count_bounded_witness :
  forallb retries_allowed flaky = true
  ∧ (∀ id t, tasks created !! id = Some t → retryCount t ≤ maxRetries t)
  ∧ ∃ t, tasks (run flaky created) !! "t1" = Some t
         ∧ retryCount t = 2 ∧ retryCount t ≤ maxRetries t.
Proof.
  assert (H : ∀ id t, tasks created !! id = Some t
                      → retryCount t ≤ maxRetries t).
  { intros id t. unfold created, createTask. simpl.
    destruct (decide ("t1" = id)) as [<-|Hne].
    - rewrite lookup_insert_eq. intros [= <-]. simpl. lia.
    - rewrite lookup_insert_ne by done. by rewrite lookup_empty. }
  split; [evaluate|]. split; [exact H|].
  eexists. split; [evaluate|]. split; [evaluate|].
  apply (retry_count_bounded flaky created eq_refl H "t1"). evaluate.
Defined.

Lemma retries_left_nonneg id st : 0 ≤ retries_left id st.
Proof. unfold retries_left. case_match; lia. Qed.

Lemma retries_left_on_task id op st :
  on_task op = true →
  retries_left id (apply st op) ≤ retries_left id st.
Proof.
  intros Hon.
  destruct (on_task_shape op st Hon)
    as [Heq|(i & t & t' & Ht & Htasks & Hid & _ & _ & Hcount & _)];
    [by rewrite Heq|].
  unfold retries_left. rewrite Htasks.
  destruct (decide (i = id)) as [->|Hne];
    [rewrite lookup_insert_eq, Ht|by rewrite lookup_insert_ne].
  destruct Hid as (_ & _ & _ & _ & _ & _ & _ & _ & _ & Hmax & _). lia.
Qed.

Lemma retries_of_step id op st :
  keeps_id id op = true →
  (match op with
   | OpRetry id' => if String.eqb id' id && (retryTask id' st).1 then 1 else 0
   | _ => 0
   end) + retries_left id (apply st op) ≤ retries_left id st.
Proof.
  intros Hkeep.
  destruct op as [o nw|i ag nw|i nw|i pc ln|i r nw|i nw|i|m nw].
  - simpl in Hkeep. cbn [apply].
    unfold retries_left. simpl. rewrite lookup_insert_ne; [lia|].
    apply negb_true_iff in Hkeep. by apply String.eqb_neq in Hkeep.
  - pose proof (retries_left_on_task id (OpAssign i ag nw) st eq_refl). lia.
  - pose proof (retries_left_on_task id (OpStart i nw) st eq_refl). lia.
  - pose proof (retries_left_on_task id (OpProgress i pc ln) st eq_refl). lia.
  - pose proof (retries_left_on_task id (OpComplete i r nw) st eq_refl). lia.
  - pose proof (retries_left_on_task id (OpCancel i nw) st eq_refl). lia.
  - cbn [apply]. unfold retries_left, retryTask.
    destruct (tasks st !! i) as [t|] eqn:Ht; simpl.
    2:{ rewrite andb_false_r. lia. }
    destruct (negb (bool_decide (status t = failed))
              && negb (bool_decide (status t = timeout))); simpl.
    { rewrite andb_false_r. lia. }
    destruct (Z.leb_spec (maxRetries t) (retryCount t)); simpl.
    { rewrite andb_false_r. lia. }
    destruct (String.eqb_spec i id) as [->|Hne]; simpl.
    + rewrite lookup_insert_eq, Ht. simpl. lia.
    + rewrite lookup_insert_ne by done. lia.
  - cbn [apply]. pose proof (retries_left_nonneg id st) as Hnn.
    unfold retries_left in *. rewrite cleanup_tasks.
    case_decide; simpl; lia.
Qed.

(** X4: in a sequence of operations that does not create the task again,
    [retryTask] succeeds for a task at most as often as its [maxRetries]
    exceeds its [retryCount] at the start. *)
Theorem retries_limited id ops st :
  forallb (keeps_id id) ops = true →
  retries_of id ops st ≤ retries_left id st.
Proof.
  revert st. induction ops as [|op ops IH]; intros st; simpl.
  { intros _. apply retries_left_nonneg. }
  intros [Hop Hops]%andb_true_iff.
  specialize (IH (apply st op) Hops).
  pose proof (retries_of_step id op st Hop). lia.
Qed.

Lemma retries_limited_witness :
  forallb (keeps_id "t1") flaky = true
  ∧ retries_of "t1" flaky created = 2
  ∧ retries_left "t1" created = 2
  ∧ retries_of "t1" flaky created ≤ retries_left "t1" created.
Proof.
  split; [evaluate|]. split; [evaluate|]. split; [evaluate|].
  apply (retries_limited "t1" flaky created). evaluate.
Defined.

(** *** The agent index *)

Lemma empty_index_covers : index_covers empty.
Proof. intros id t a Ht. simpl in Ht. by rewrite lookup_empty in Ht. Qed.

Lemma apply_index_covers op st :
  index_covers st → index_covers (apply st op).
Proof.
  intros Hst. destruct (on_task op) eqn:Hon.
  - destruct (on_task_shape op st Hon)
      as [->|(i & t & t' & Ht & Htasks & _ & _ & _ & _ & Hasg)]; [done|].
    intros id u a. rewrite Htasks.
    destruct (decide (i = id)) as [->|Hne].
    + rewrite lookup_insert_eq. intros [= <-] Ha.
      destruct Hasg as [[Hsame ->]|[[Hnone _]|(a' & Ha' & ->)]].
      * apply (Hst id t a Ht). congruence.
      * congruence.
      * assert (a' = a) as -> by congruence. apply index_add_elem.
    + rewrite lookup_insert_ne by done. intros Hu Ha.
      destruct Hasg as [[_ ->]|[[_ ->]|(a' & _ & ->)]];
        [by apply (Hst id u a)..|].
      apply index_add_mono. by apply (Hst id u a).
  - destruct op as [o nw| | | | | | |m nw]; try done; simpl.
    + intros id u a. unfold createTask. simpl.
      destruct (decide (o_taskId o = id)) as [<-|Hne].
      * rewrite lookup_insert_eq. by intros [= <-].
      * rewrite lookup_insert_ne by done. apply Hst.
    + intros id u a Hu Ha. apply cleanup_tasks_Some in Hu as [Hu Hkeep].
      unfold cleanup. simpl.
      apply CleanupFacts.loop_agentTaskIndex. split; [by apply (Hst id u a)|].
      intros ([k v] & Hin & [[Hk Hr] _])%Exists_exists. simpl in *. subst k.
      apply elem_of_map_to_list in Hin. congruence.
Qed.

Lemma run_index_covers ops st :
  index_covers st → index_covers (run ops st).
Proof.
  revert st. induction ops as [|op ops IH]; intros st Hst; simpl; [done|].
  by apply IH, apply_index_covers.
Qed.

(** X5: in every state the operations lead to from the empty tracker, the
    id of every task that is assigned is in the agent index under the
    instance id of its agent. *)
Theorem agent_index_lists_assigned ops id t a :
  tasks (run ops empty) !! id = Some t → assignedTo t = Some a →
  id ∈ default ∅ (agentTaskIndex (run ops empty) !! agentInstanceId a).
Proof. apply (run_index_covers ops empty empty_index_covers). Qed.

Lemma agent_index_lists_assigned_witness :
  ∃ t, tasks (run assigned_ops empty) !! "t1" = Some t
       ∧ assignedTo t = Some agent_a1
       ∧ "t1" ∈ default ∅ (agentTaskIndex (run assigned_ops empty) !! "a1").
Proof.
  eexists. split; [evaluate|]. split; [evaluate|].
  eapply (agent_index_lists_assigned assigned_ops "t1" _ agent_a1);
    evaluate.
Defined.

(** *** A second [cleanup] finds nothing *)

Lemma loop_nothing cutoff l acc :
  Forall (λ kv, removable cutoff kv.2 = false) l →
  WorkTrackerSpec.loop cutoff l acc = acc.
Proof.
  revert acc. induction l as [|kv l IH]; intros acc Hl; [done|].
  apply Forall_cons in Hl as [Hkv Hl]. rewrite CleanupFacts.loop_cons.
  unfold cleanup_body. rewrite Hkv. by apply IH.
Qed.

Lemma cleanup_nothing maxAgeMs now st :
  map_Forall (λ _ t, removable (now - maxAgeMs) t = false) (tasks st) →
  cleanup maxAgeMs now st = (0, st).
Proof.
  intros Hall. unfold cleanup. simpl.
  change (foldl (cleanup_body (now - maxAgeMs)) (st, 0) (map_to_list (tasks st)))
    with (WorkTrackerSpec.loop (now - maxAgeMs) (map_to_list (tasks st)) (st, 0)).
  rewrite loop_nothing; [done|].
  apply Forall_forall. intros [k t] Hin. simpl.
  apply elem_of_map_to_list in Hin. by apply (Hall k t).
Qed.

Lemma removable_mono c c' t :
  c' ≤ c → removable c t = false → removable c' t = false.
Proof.
  unfold removable. intros Hc.
  rewrite !andb_false_iff, !Z.ltb_ge. intros [?|?]; [by left|right; lia].
Qed.

(** X6: after a [cleanup], a [cleanup] with the same cutoff or an earlier
    one removes nothing: it returns 0 and leaves the tracker as it is. *)
Theorem cleanup_again_removes_nothing maxAgeMs now maxAgeMs' now' st :
  now' - maxAgeMs' ≤ now - maxAgeMs →
  cleanup maxAgeMs' now' (cleanup maxAgeMs now st).2
  = (0, (cleanup maxAgeMs now st).2).
Proof.
  intros Hc. apply cleanup_nothing. intros id t Ht.
  apply cleanup_tasks_Some in Ht as [_ Hr]. by apply (removable_mono _ _ _ Hc).
Qed.

Lemma cleanup_again_removes_nothing_witness :
  5000 - 1000 ≤ 5000 - 1000
  ∧ (cleanup 1000 5000 two_finished).1 = 1
  ∧ cleanup 1000 5000 (cleanup 1000 5000 two_finished).2
    = (0, (cleanup 1000 5000 two_finished).2).
Proof.
  split; [lia|]. split; [evaluate|].
  apply (cleanup_again_removes_nothing 1000 5000 1000 5000). lia.
Defined.

(** *** From creation to completion *)

(** A task that is created, assigned, started and completed: each call
    succeeds, and the task ends with the status the result maps to. *)
Lemma lifecycle opts agent r t0 t1 t2 t3 st :
  let id := o_taskId opts in
  let st1 := (createTask opts t0 st).2 in
  let a := assignTask id agent t1 st1 in
  let s := startTask id t2 a.2 in
  let c := completeTask id r t3 s.2 in
  a.1 = true ∧ s.1 = true ∧ c.1 = true
  ∧ ∃ t, tasks c.2 !! id = Some t
      ∧ status t = result_status r
      ∧ assignedTo t = Some agent
      ∧ assignedAt t = Some t1 ∧ startedAt t = Some t2
      ∧ completedAt t = Some t3
      ∧ progressPercent t = Some 100 ∧ result t = Some r
      ∧ retryCount t = 0
      ∧ id ∈ default ∅ (agentTaskIndex c.2 !! agentInstanceId agent).
Proof.
  intros id st1 a s c. subst id st1 a s c.
  unfold createTask, assignTask. simpl. rewrite lookup_insert_eq. simpl.
  unfold startTask. simpl. rewrite lookup_insert_eq. simpl.
  unfold completeTask. simpl. rewrite lookup_insert_eq. simpl.
  split_and!; try done. eexists. rewrite lookup_insert_eq.
  split_and!; try done. simpl. apply index_add_elem.
Qed.

End WorkTrackerMore.

(** ** Work tracker: the queries *)
Module WorkTrackerQueriesFacts.
Import Protocol.Identity WorkTracker WorkTrackerSpec WorkTrackerOps.
Import WorkTrackerQueries WorkTrackerQueriesSpec.
Local Open Scope Z_scope.

Lemma insert_by_priority_elem x l y :
  y ∈ insert_by_priority x l ↔ y = x ∨ y ∈ l.
Proof.
  induction l as [|z l IH]; simpl.
  - rewrite list_elem_of_singleton. split; [by left|].
    intros [?|?%elem_of_nil]; done.
  - case_match.
    + by rewrite elem_of_cons.
    + rewrite !elem_of_cons, IH. tauto.
Qed.

Lemma sort_by_priority_elem l y : y ∈ sort_by_priority l ↔ y ∈ l.
Proof.
  induction l as [|x l IH]; simpl; [done|].
  by rewrite insert_by_priority_elem, elem_of_cons, IH.
Qed.

Lemma insert_by_priority_sorted x l :
  StronglySorted by_priority l →
  StronglySorted by_priority (insert_by_priority x l).
Proof.
  unfold by_priority. induction l as [|y l IH]; simpl; intros Hl.
  - repeat constructor.
  - apply StronglySorted_inv in Hl as [Hl Hy].
    destruct (Z.leb_spec (priority y - priority x) 0).
    + constructor; [by constructor|]. constructor; [lia|].
      eapply Forall_impl; [exact Hy|]. simpl. intros; lia.
    + constructor; [by apply IH|].
      apply Forall_forall. intros z [->|Hz]%insert_by_priority_elem; [lia|].
      by eapply Forall_forall in Hy.
Qed.

Lemma sort_by_priority_sorted l :
  StronglySorted by_priority (sort_by_priority l).
Proof.
  induction l as [|x l IH]; simpl; [constructor|].
  by apply insert_by_priority_sorted.
Qed.

Lemma collect_elem f src t :
  t ∈ collect f src ↔ t ∈ src ∧ passes f t = true.
Proof.
  unfold collect. rewrite sort_by_priority_elem, list_elem_of_filter. tauto.
Qed.

Lemma from_index_elem ids m t :
  t ∈ from_index ids m ↔ ∃ id, id ∈ ids ∧ m !! id = Some t.
Proof.
  unfold from_index. rewrite list_elem_of_omap.
  split; intros (id & Hid & Ht); exists id; split; try done.
  - by apply elem_of_elements.
  - by apply elem_of_elements.
Qed.

Lemma values_elem (m : gmap string TrackedTask) t :
  t ∈ (map_to_list m).*2 ↔ ∃ id, m !! id = Some t.
Proof.
  rewrite list_elem_of_fmap. split.
  - intros ([k v] & -> & Hin). exists k. by apply elem_of_map_to_list.
  - intros (k & Hk). exists (k, t).
  split; [done|]. by apply elem_of_map_to_list.
Qed.

Lemma passes_spec f t :
  passes f t = true ↔
  (∀ s, f_status f = Some s → status t = s)
  ∧ (∀ tag, truthy (f_tag f) = Some tag → tag ∈ tags t).
Proof.
  unfold passes. rewrite andb_true_iff.
  destruct (f_status f) as [s|], (truthy (f_tag f)) as [tag|];
    rewrite ?bool_decide_eq_true; split.
  all: try (intros [H1 H2]; split; [by intros ? [= <-]|by intros ? [= <-]]).
  all: try (intros [H1 H2]; split; auto; done).
  all: try (intros [H1 H2]; split; [by intros ? [= <-]|done]).
  all: try (intros [H1 H2]; split; [done|by intros ? [= <-]]).
  all: try done.
Qed.

(** X7: what [listTasks] returns is sorted by priority, highest first;
    every task in it is tracked, has the status of the filter and carries its
    tag; and without an agent or plan in the filter, every tracked task that
    has the status and carries the tag is in it. *)
Theorem listTasks_sound f st :
  StronglySorted by_priority (listTasks f st)
  ∧ (∀ t, t ∈ listTasks f st →
       tracked st t
       ∧ (∀ s, f_status f = Some s → status t = s)
       ∧ (∀ tag, truthy (f_tag f) = Some tag → tag ∈ tags t))
  ∧ (truthy (f_agentInstanceId f) = None →
     truthy (f_workflowPlanId f) = None →
     ∀ t, tracked st t → passes f t = true → t ∈ listTasks f st).
Proof.
  unfold listTasks, tracked. split_and!.
  - repeat case_match; try constructor; apply sort_by_priority_sorted.
  - intros t. repeat case_match; try (by intros ?%elem_of_nil).
    all: rewrite collect_elem, passes_spec; intros [Hsrc [Hs Htag]].
    all: split; [|done].
    1,2: apply from_index_elem in Hsrc as (id & _ & Hid); by exists id.
    by apply values_elem.
  - intros -> -> t Ht Hp. apply collect_elem. split; [|done].
    by apply values_elem.
Qed.

(** X8: in every state the operations lead to from the empty tracker, the
    tasks [listTasks] returns for an agent include every task assigned to
    that agent that passes the status and tag filters; a [workflowPlanId]
    given with the agent is not looked at. *)
Theorem listTasks_for_agent ops f a id t :
  truthy (f_agentInstanceId f) = Some (agentInstanceId a) →
  tasks (run ops empty) !! id = Some t → assignedTo t = Some a →
  passes f t = true →
  t ∈ listTasks f (run ops empty).
Proof.
  intros Hf Ht Ha Hpass. unfold listTasks. rewrite Hf.
  pose proof (WorkTrackerMore.run_index_covers ops empty
                WorkTrackerMore.empty_index_covers id t a Ht Ha) as Hin.
  destruct (agentTaskIndex (run ops empty) !! agentInstanceId a)
    as [ids|] eqn:Hidx;
    simpl in Hin; [|by apply not_elem_of_empty in Hin].
  case_decide as Hsz.
  { apply size_empty_inv in Hsz. apply leibniz_equiv in Hsz. subst ids.
    by apply not_elem_of_empty in Hin. }
  apply collect_elem. split; [|done]. apply from_index_elem. by exists id.
Qed.

Lemma listTasks_for_agent_witness :
  ∃ t, truthy (f_agentInstanceId (by_agent "a1" (Some assigned))) = Some "a1"
       ∧ tasks (run assigned_ops empty) !! "t1" = Some t
       ∧ assignedTo t = Some agent_a1
       ∧ passes (by_agent "a1" (Some assigned)) t = true
       ∧ t ∈ listTasks (by_agent "a1" (Some assigned)) (run assigned_ops empty).
Proof.
  eexists. split; [evaluate|]. split; [evaluate|].
  split; [evaluate|]. split; [evaluate|].
  eapply (listTasks_for_agent assigned_ops (by_agent "a1" (Some assigned))
           agent_a1 "t1"); reflexivity.
Defined.

(** *** [getSummary] *)

Lemma getSummary_counts now st :
  map_fold (λ _ t c, summary_body now t c) tally0 (tasks st)
  = counts_of now (map_to_list (tasks st)).
Proof.
  rewrite map_fold_foldr. unfold counts_of.
  induction (map_to_list (tasks st)) as [|[k t] l IH]; [done|].
  simpl. by rewrite IH.
Qed.

Lemma counts_of_status now l s :
  tally_counter s (counts_of now l)
  = Z.of_nat (length (filter (λ kv : string * TrackedTask, status kv.2 = s) l)).
Proof.
  induction l as [|kv l IH]; [by destruct s|].
  rewrite filter_cons. simpl counts_of.
  destruct (decide (status kv.2 = s)) as [Hs|Hs].
  - simpl length. rewrite Nat2Z.inj_succ, <- IH.
    destruct s; simpl; rewrite Hs; simpl; lia.
  - rewrite <- IH. destruct s; simpl; rewrite bool_decide_eq_false_2; done.
Qed.

Lemma counts_of_total now l :
  c_pending (counts_of now l) + c_assigned (counts_of now l)
  + c_inProgress (counts_of now l) + c_completed (counts_of now l)
  + c_failed (counts_of now l) + c_timeout (counts_of now l)
  + c_cancelled (counts_of now l) = Z.of_nat (length l).
Proof.
  induction l as [|kv l IH]; [done|].
  simpl length. rewrite Nat2Z.inj_succ, <- IH. simpl.
  destruct (status kv.2); simpl; lia.
Qed.

(** X9: the seven counters of [getSummary] are the numbers of tracked
    tasks with each status, and [total] is the number of tracked tasks. *)
Theorem getSummary_counts_by_status now st :
  total (getSummary now st) = Z.of_nat (size (tasks st))
  ∧ ∀ s, counter s (getSummary now st) = with_status s st.
Proof.
  unfold getSummary. rewrite getSummary_counts. split.
  - simpl. rewrite counts_of_total. by rewrite length_map_to_list.
  - intros s. unfold with_status. rewrite <- (counts_of_status now).
    by destruct s.
Qed.

Lemma counts_of_atRisk now l :
  Forall (λ kv : string * TrackedTask, deadline kv.2 = None) l →
  c_atRisk (counts_of now l) = 0.
Proof.
  induction 1 as [|kv l Hkv _ IH]; [done|]. simpl.
  unfold at_risk. by rewrite Hkv.
Qed.

Lemma apply_no_deadline op st : no_deadline st → no_deadline (apply st op).
Proof.
  intros Hst. destruct (on_task op) eqn:Hon.
  - destruct (WorkTrackerMore.on_task_shape op st Hon)
      as [->|(id & t & t' & Ht & Htasks & Hid & _)]; [done|].
    unfold no_deadline. rewrite Htasks. apply map_Forall_insert_2; [|done].
    destruct Hid as (_ & _ & _ & _ & _ & _ & _ & _ & -> & _).
    by apply (Hst id t).
  - destruct op; try done; cbn [apply].
    + apply map_Forall_insert_2; [done|]. done.
    + intros id t Ht. apply WorkTrackerMore.cleanup_tasks_Some in Ht as [Ht _].
      by apply (Hst id t).
Qed.

Lemma run_no_deadline ops st : no_deadline st → no_deadline (run ops st).
Proof.
  revert st. induction ops as [|op ops IH]; intros st Hst; simpl; [done|].
  by apply IH, apply_no_deadline.
Qed.

(** X10: [createTask] does not store the deadline it is given and no
    operation sets one: in every state the operations lead to from the empty
    tracker no task has a deadline, and [getSummary] counts no task at
    risk. *)
Theorem no_task_at_risk ops now :
  (∀ id t, tasks (run ops empty) !! id = Some t → deadline t = None)
  ∧ atRiskCount (getSummary now (run ops empty)) = 0.
Proof.
  assert (Hnd : no_deadline (run ops empty)).
  { apply run_no_deadline. intros id t Ht. simpl in Ht.
    by rewrite lookup_empty in Ht. }
  split; [exact Hnd|].
  unfold getSummary. rewrite getSummary_counts. simpl.
  apply counts_of_atRisk, Forall_forall. intros [k t] Hin. simpl.
  apply elem_of_map_to_list in Hin. by apply (Hnd k t).
Qed.

End WorkTrackerQueriesFacts.

(** ** Role manager: export, counting, and the slots of a role *)
Module RoleManagerMore.
Import Protocol.Role RoleManager RoleManagerSpec RoleManagerExport.
Import RoleManagerMoreSpec RoleManagerFacts OrchestratorSpec KeyedMapsFacts.
Local Open Scope Z_scope.

(** *** The keys of the two maps *)

Lemma apply_keys op st :
  keys_ok st → asg_keys_ok st →
  keys_ok (apply st op) ∧ asg_keys_ok (apply st op).
Proof.
  intros Hr Ha. destruct op as [r|rid|ag rid by_ now|i|rs asg]; simpl.
  - split; [|done]. by apply map_Forall_insert_2.
  - split; [|done]. by apply map_Forall_delete.
  - unfold assignRole. destruct (roles st !! rid) as [r|]; [|done].
    case_match; [done|]. split; [done|].
    by apply map_Forall_insert_2.
  - split; [done|]. by apply map_Forall_delete.
  - split.
    + apply (set_all_keyed roleId ∅ rs). by intros k x Hk.
    + apply (set_all_keyed agentInstanceId ∅ asg). by intros k x Hk.
Qed.

Lemma run_keys ops st :
  keys_ok st → asg_keys_ok st →
  keys_ok (run ops st) ∧ asg_keys_ok (run ops st).
Proof.
  revert st. induction ops as [|op ops IH]; intros st Hr Ha; [done|].
  simpl. destruct (apply_keys op st Hr Ha). by apply IH.
Qed.

Lemma new_asg_keys_ok : asg_keys_ok new.
Proof. intros k a Hk. simpl in Hk. by rewrite lookup_empty in Hk. Qed.

(** X11: in every state the operations lead to from a new manager,
    [defineRole] and [importState] among them, every role is stored under
    its own id and every assignment under the instance id of its agent, and
    what [exportState] returns is read back by [importState] as the same
    state, whatever the order of the two lists. *)
Theorem export_import_roundtrip ops rs asg :
  rs ≡ₚ (exportState (run ops new)).1 →
  asg ≡ₚ (exportState (run ops new)).2 →
  importState rs asg = run ops new
  ∧ keys_ok (run ops new) ∧ asg_keys_ok (run ops new).
Proof.
  intros Hrs Hasg.
  destruct (run_keys ops new new_keys_ok new_asg_keys_ok) as [Hr Ha].
  split; [|done]. unfold importState.
  change (foldl (λ m r, <[roleId r := r]> m) ∅ rs)
    with (KeyedMaps.set_all roleId ∅ rs).
  change (foldl (λ m a, <[agentInstanceId a := a]> m) ∅ asg)
    with (KeyedMaps.set_all agentInstanceId ∅ asg).
  rewrite (set_all_values roleId (roles (run ops new))) by done.
  rewrite (set_all_values agentInstanceId (assignments (run ops new)))
    by done.
  by destruct (run ops new).
Qed.

Lemma export_import_roundtrip_witness :
  (exportState (run any_ops new)).1 ≡ₚ (exportState (run any_ops new)).1
  ∧ (exportState (run any_ops new)).2 ≡ₚ (exportState (run any_ops new)).2
  ∧ importState (exportState (run any_ops new)).1
                (exportState (run any_ops new)).2
    = run any_ops new.
Proof.
  split; [apply Permutation_refl|]. split; [apply Permutation_refl|].
  exact (proj1 (export_import_roundtrip any_ops _ _
                  (Permutation_refl _) (Permutation_refl _))).
Defined.

(** *** Counting and listing *)

Lemma cnt_filter rid (m : gmap string RoleAssignment) :
  cnt rid m
  = Z.of_nat (length (filter (λ a, roleId (role a) = rid) (map_to_list m).*2)).
Proof.
  unfold cnt. rewrite map_fold_foldr.
  induction (map_to_list m) as [|[k a] l IH]; [done|].
  rewrite fmap_cons, filter_cons. simpl. rewrite IH. unfold tally.
  destruct (String.eqb_spec (roleId (role a)) rid) as [Heq|Hne].
  - rewrite decide_True by done. rewrite length_cons, Nat2Z.inj_succ. lia.
  - by rewrite decide_False.
Qed.

(** [countAgentsWithRole] is the length of [getAgentsWithRole]. *)
Lemma count_is_length_of_agents rid st :
  countAgentsWithRole rid st = Z.of_nat (length (getAgentsWithRole rid st)).
Proof. rewrite count_cnt. apply cnt_filter. Qed.

Lemma tally_step rid i a n :
  tally rid i a n = n + (if String.eqb (roleId (role a)) rid then 1 else 0).
Proof. unfold tally. case_match; lia. Qed.

Lemma monitor_taken_keys_ok : keys_ok monitor_taken.
Proof. apply (bool_decide_unpack _). vm_compute. exact I. Qed.

(** *** Assigning and unassigning *)

(** X12: an agent that has a role can be assigned it again, also when the
    quota of the role is used up; the number of agents with the role stays
    the same. *)
Theorem reassign_at_full_quota ag rid by_ now st :
  keys_ok st →
  alreadyHasRole (Protocol.Identity.agentInstanceId ag) rid st = true →
  is_Some (roles st !! rid) →
  is_Some (assignRole ag rid by_ now st).1
  ∧ countAgentsWithRole rid (assignRole ag rid by_ now st).2
    = countAgentsWithRole rid st.
Proof.
  intros Hkeys Hhas [r Hr]. unfold assignRole. rewrite Hr, Hhas. simpl.
  assert ((match maxConcurrent r with Some _ => false | None => false end)
          = false) as -> by by destruct (maxConcurrent r).
  split; [done|]. rewrite !count_cnt. simpl.
  unfold alreadyHasRole in Hhas.
  destruct (assignments st !! Protocol.Identity.agentInstanceId ag)
    as [cur|] eqn:Hcur; [|done].
  rewrite cnt_insert, (cnt_delete rid _ cur _ Hcur), !tally_step. simpl.
  rewrite Hhas, (Hkeys rid r Hr), String.eqb_refl. lia.
Qed.

Lemma reassign_at_full_quota_witness :
  keys_ok monitor_taken
  ∧ alreadyHasRole "a1" "monitor" monitor_taken = true
  ∧ is_Some (roles monitor_taken !! "monitor")
  ∧ countAgentsWithRole "monitor" monitor_taken = 1
  ∧ is_Some (assignRole (agent "a1") "monitor" "admin" 2 monitor_taken).1
  ∧ countAgentsWithRole "monitor"
      (assignRole (agent "a1") "monitor" "admin" 2 monitor_taken).2
    = countAgentsWithRole "monitor" monitor_taken.
Proof.
  assert (Hsome : is_Some (roles monitor_taken !! "monitor")).
  { eexists. evaluate. }
  assert (Hhas : alreadyHasRole "a1" "monitor" monitor_taken = true).
  { evaluate. }
  split; [exact monitor_taken_keys_ok|]. split; [exact Hhas|].
  split; [exact Hsome|]. split; [evaluate|].
  apply (reassign_at_full_quota (agent "a1") "monitor" "admin" 2 monitor_taken
           monitor_taken_keys_ok Hhas Hsome).
Defined.

(** X13: unassigning an agent that has a role makes room in a role that is
    within its quota: the role can then be assigned to any agent. *)
Theorem unassign_frees_a_slot i ag rid by_ now st r k :
  roles st !! rid = Some r → maxConcurrent r = Some k →
  countAgentsWithRole rid st ≤ k →
  alreadyHasRole i rid st = true →
  is_Some (assignRole ag rid by_ now (unassignRole i st).2).1.
Proof.
  intros Hr Hk Hquota Hhas. unfold assignRole. simpl. rewrite Hr, Hk.
  assert (countAgentsWithRole rid
            {| roles := roles st; assignments := delete i (assignments st) |}
          < k) as Hlt.
  { rewrite count_cnt in *. simpl. unfold alreadyHasRole in Hhas.
    destruct (assignments st !! i) as [cur|] eqn:Hcur; [|done].
    rewrite (cnt_delete rid i cur _ Hcur), tally_step, Hhas in Hquota. lia. }
  destruct (Z.leb_spec k (countAgentsWithRole rid
            {| roles := roles st; assignments := delete i (assignments st) |}));
    [lia|].
  by rewrite andb_false_r.
Qed.

Lemma unassign_frees_a_slot_witness :
  ∃ r, roles monitor_taken !! "monitor" = Some r
       ∧ maxConcurrent r = Some 1
       ∧ countAgentsWithRole "monitor" monitor_taken ≤ 1
       ∧ alreadyHasRole "a1" "monitor" monitor_taken = true
       ∧ (assignRole (agent "a2") "monitor" "admin" 2 monitor_taken).1 = None
       ∧ is_Some (assignRole (agent "a2") "monitor" "admin" 3
                    (unassignRole "a1" monitor_taken).2).1.
Proof.
  eexists. split; [evaluate|]. split; [evaluate|].
  split; [by vm_compute|]. split; [evaluate|]. split; [evaluate|].
  eapply (unassign_frees_a_slot "a1" (agent "a2") "monitor" "admin" 3
            monitor_taken _ 1);
    [evaluate|evaluate|by vm_compute|evaluate].
Defined.

(** X14: an agent has one role at a time: when it is assigned a role, it
    no longer counts for any other role, and the count of the role it had
    goes down by one. *)
Theorem new_role_replaces_old ag rid rid' by_ now st :
  keys_ok st → is_Some (assignRole ag rid by_ now st).1 → rid' ≠ rid →
  alreadyHasRole (Protocol.Identity.agentInstanceId ag) rid'
    (assignRole ag rid by_ now st).2 = false
  ∧ countAgentsWithRole rid' (assignRole ag rid by_ now st).2
    = countAgentsWithRole rid' st
      - (if alreadyHasRole (Protocol.Identity.agentInstanceId ag) rid' st
         then 1 else 0).
Proof.
  intros Hkeys [a Ha] Hne.
  destruct (assignRole_Some _ _ _ _ _ _ Ha) as (r & Hr & -> & _ & Hasg).
  set (i := Protocol.Identity.agentInstanceId ag) in *.
  unfold alreadyHasRole. rewrite !count_cnt, Hasg.
  rewrite lookup_insert_eq. simpl.
  assert (String.eqb (roleId r) rid' = false) as Hrid.
  { apply String.eqb_neq. by rewrite (Hkeys rid r Hr). }
  split; [done|]. rewrite cnt_insert, tally_step. simpl. rewrite Hrid.
  destruct (assignments st !! i) as [cur|] eqn:Hcur.
  - rewrite (cnt_delete rid' i cur _ Hcur), tally_step. lia.
  - rewrite delete_id by done. lia.
Qed.

Lemma new_role_replaces_old_witness :
  keys_ok monitor_taken
  ∧ is_Some (assignRole (agent "a1") "coder" "admin" 2 monitor_taken).1
  ∧ "monitor" ≠ "coder"
  ∧ countAgentsWithRole "monitor" monitor_taken = 1
  ∧ alreadyHasRole "a1" "monitor"
      (assignRole (agent "a1") "coder" "admin" 2 monitor_taken).2 = false
  ∧ countAgentsWithRole "monitor"
      (assignRole (agent "a1") "coder" "admin" 2 monitor_taken).2
    = countAgentsWithRole "monitor" monitor_taken
      - (if alreadyHasRole "a1" "monitor" monitor_taken then 1 else 0).
Proof.
  assert (Hsome : is_Some (assignRole (agent "a1") "coder" "admin" 2
                             monitor_taken).1).
  { eexists. evaluate. }
  assert (Hne : "monitor" ≠ "coder") by discriminate.
  split; [exact monitor_taken_keys_ok|]. split; [exact Hsome|].
  split; [exact Hne|]. split; [evaluate|].
  apply (new_role_replaces_old (agent "a1") "coder" "monitor" "admin" 2
           monitor_taken monitor_taken_keys_ok Hsome Hne).
Defined.

(** Removing a role does not take it from the agents that have it, and
    nobody can be assigned it afterwards, not even one of them. *)
Lemma removed_role_keeps_holders ag rid by_ now st :
  let st' := (removeRole rid st).2 in
  getAgentsWithRole rid st' = getAgentsWithRole rid st
  ∧ (∀ i, getAssignment i st' = getAssignment i st)
  ∧ assignRole ag rid by_ now st' = (None, st').
Proof.
  intros st'. split_and!; try done.
  unfold assignRole. simpl. by rewrite lookup_delete_eq.
Qed.

End RoleManagerMore.

(** ** Router: the dedup set, delivery, forwarding, and the TTL *)
Module RouterMore.
Import Protocol Router RouterSpec RouterOps RouterFacts.
Local Open Scope Z_scope.

(** *** The dedup set *)

Lemma set_add_length x s :
  (length (set_add x s) ≤ S (length s))%nat.
Proof. unfold set_add. case_match; [lia|]. rewrite length_app. simpl. lia. Qed.

Lemma trackSeen_length id seen :
  Z.of_nat (length seen) ≤ maxSeenSize →
  Z.of_nat (length (trackSeen id seen)) ≤ maxSeenSize.
Proof.
  intros Hlen. unfold trackSeen. pose proof (set_add_length id seen) as Hadd.
  unfold maxSeenSize in *.
  destruct (Z.ltb_spec 10000 (Z.of_nat (length (set_add id seen)))); [|lia].
  rewrite length_drop. lia.
Qed.

Section WithClock.
Variable Date_getTime : string → option Z.

Local Abbreviation route := (Router.route Date_getTime).
Local Abbreviation apply := (RouterOps.apply Date_getTime).
Local Abbreviation run := (RouterOps.run Date_getTime).
Local Abbreviation accepted := (RouterOps.accepted Date_getTime).
Local Abbreviation expired := (Router.expired Date_getTime).

Lemma route_seenMessages now m st :
  seenMessages (route now m st).1 = seenMessages st
  ∨ seenMessages (route now m st).1
    = trackSeen (messageId (envelope m)) (seenMessages st).
Proof.
  unfold Router.route. repeat case_match; simpl; auto.
Qed.

Lemma route_rest now m st :
  localGatewayId (route now m st).1 = localGatewayId st
  ∧ subscriptions (route now m st).1 = subscriptions st
  ∧ peerGateways (route now m st).1 = peerGateways st
  ∧ localAgents (route now m st).1 = localAgents st.
Proof. unfold Router.route. repeat case_match; simpl; auto. Qed.

Lemma apply_seen_bound op st :
  Z.of_nat (length (seenMessages st)) ≤ maxSeenSize →
  Z.of_nat (length (seenMessages (apply st op))) ≤ maxSeenSize.
Proof.
  intros Hst. destruct op; simpl; try done.
  destruct (route_seenMessages now m st) as [->| ->]; [done|].
  by apply trackSeen_length.
Qed.

(** X15: the dedup set never holds more than 10000 ids: if it does not,
    it does not after any sequence of operations of the router. *)
Theorem seen_is_bounded ops st :
  Z.of_nat (length (seenMessages st)) ≤ 10000 →
  Z.of_nat (length (seenMessages (run ops st))) ≤ 10000.
Proof.
  revert st. induction ops as [|op ops IH]; intros st Hst; [done|].
  simpl. by apply IH, apply_seen_bound.
Qed.

(** *** Local delivery and forwarding *)

Lemma route_accepted now m st :
  accepted now m st →
  route now m st
  = (with_seen (trackSeen (messageId (envelope m)) (seenMessages st)) st,
     (if match to (envelope m) with
         | None => true
         | Some t => String.eqb (Identity.gatewayId t) (localGatewayId st)
         end || bool_decide (direction (envelope m) = broadcast)
      then deliverLocally m (subscriptions st) else [])
     ++ (if match to (envelope m) with
            | None => false
            | Some t =>
              negb (String.eqb (Identity.gatewayId t) (localGatewayId st))
            end || bool_decide (direction (envelope m) = broadcast)
         then forwardToRemote m (peerGateways st) else [])).
Proof.
  intros (Hnew & Hexp & Hhop). unfold Router.route.
  rewrite Hnew, Hexp.
  destruct (Z.leb_spec MAX_HOP_COUNT (default 0 (hopCount (envelope m))));
    [lia|done].
Qed.

Lemma route_effects now m st e :
  e ∈ (route now m st).2 →
  default 0 (hopCount (envelope m)) < MAX_HOP_COUNT
  ∧ (e ∈ deliverLocally m (subscriptions st)
       ∧ (match to (envelope m) with
          | None => true
          | Some t => String.eqb (Identity.gatewayId t) (localGatewayId st)
          end || bool_decide (direction (envelope m) = broadcast)) = true
     ∨ e ∈ forwardToRemote m (peerGateways st)
       ∧ (match to (envelope m) with
          | None => false
          | Some t =>
            negb (String.eqb (Identity.gatewayId t) (localGatewayId st))
          end || bool_decide (direction (envelope m) = broadcast)) = true).
Proof.
  unfold Router.route.
  destruct (set_has _ (seenMessages st)); [by intros ?%elem_of_nil|].
  destruct (Router.expired _ _ _); [by intros ?%elem_of_nil|].
  destruct (Z.leb_spec MAX_HOP_COUNT (default 0 (hopCount (envelope m))));
    [by intros ?%elem_of_nil|].
  simpl. intros [He|He]%elem_of_app; (split; [done|]).
  - left. destruct (_ || _); [done|by apply elem_of_nil in He].
  - right. destruct (_ || _) in He |- *; [done|by apply elem_of_nil in He].
Qed.

Lemma deliverLocally_only_delivers m subs e :
  e ∈ deliverLocally m subs → is_delivery e = true.
Proof.
  rewrite deliverLocally_filter. by intros (sub & -> & _)%list_elem_of_fmap.
Qed.

(** X16: a message with a recipient that is not a broadcast goes one
    way: [route] only calls handlers when the recipient is on this gateway,
    and only sends to peers when it is on another. *)
Theorem targeted_message_goes_one_way now m st t :
  to (envelope m) = Some t → direction (envelope m) ≠ broadcast →
  if String.eqb (Identity.gatewayId t) (localGatewayId st)
  then Forall (λ e, is_delivery e = true) (route now m st).2
  else Forall (λ e, is_forward e = true) (route now m st).2.
Proof.
  intros Hto Hdir.
  destruct (String.eqb _ _) eqn:Hgw; apply Forall_forall; intros e He.
  all: apply route_effects in He as [_ [[He Hc]|[He Hc]]].
  all: rewrite Hto, Hgw, bool_decide_eq_false_2 in Hc by done; try done.
  - by eapply deliverLocally_only_delivers.
  - by eapply forward_loop_only_sends.
Qed.



Lemma forward_loop_broadcast bumped peers :
  to (envelope bumped) = None →
  forward_loop bumped peers
  = (λ p, SentToPeer p bumped)
    <$> filter (λ p, status p = connected) peers.*2.
Proof.
  intros Hto. induction peers as [|[k q] peers IH]; simpl; [done|].
  rewrite Hto, filter_cons, IH. simpl.
  destruct (decide (status q = connected)) as [Hq|Hq].
  - by rewrite bool_decide_eq_true_2.
  - by rewrite bool_decide_eq_false_2.
Qed.

(** A message without a recipient that passes the guards is given to every
    matching subscription and, if it is a broadcast, sent to every connected
    peer. *)
Lemma broadcast_reaches_all now m st :
  accepted now m st →
  to (envelope m) = None →
  (route now m st).2
  = ((λ sub, Delivered sub m)
     <$> filter (λ sub, sub_matches m sub = true) (subscriptions st))
    ++ (if bool_decide (direction (envelope m) = broadcast)
        then (λ p, SentToPeer p (bump m))
             <$> filter (λ p, status p = connected) (peerGateways st).*2
        else []).
Proof.
  intros Hacc Hto. rewrite (route_accepted _ _ _ Hacc), Hto. simpl.
  rewrite deliverLocally_filter. f_equal.
  case_match; [|done]. unfold forwardToRemote.
  by apply forward_loop_broadcast.
Qed.

(** *** The peers *)

Lemma map_set_keys {V} k (v : V) m k' :
  k' ∈ (map_set k v m).*1 ↔ k' = k ∨ k' ∈ m.*1.
Proof.
  induction m as [|[k0 v0] m IH]; simpl.
  - rewrite list_elem_of_singleton. split; [by left|].
    by intros [?|?%elem_of_nil].
  - destruct (String.eqb_spec k0 k) as [->|Hne]; simpl.
    + rewrite !elem_of_cons. tauto.
    + rewrite !elem_of_cons, IH. tauto.
Qed.

Lemma map_set_NoDup {V} k (v : V) m : NoDup m.*1 → NoDup (map_set k v m).*1.
Proof.
  induction m as [|[k0 v0] m IH]; simpl; intros Hnd.
  - apply NoDup_singleton.
  - apply NoDup_cons in Hnd as [Hk0 Hnd].
    destruct (String.eqb_spec k0 k) as [->|Hne]; simpl.
    + by apply NoDup_cons.
    + apply NoDup_cons. split; [|by apply IH].
      rewrite map_set_keys. intros [?|?]; [congruence|done].
Qed.

Lemma map_set_Forall {V} (P : string * V → Prop) k v m :
  P (k, v) → Forall P m → Forall P (map_set k v m).
Proof.
  intros Hkv. induction 1 as [|[k0 v0] m H0 Hm IH]; simpl.
  - by constructor.
  - case_match; constructor; done.
Qed.

Lemma map_delete_sublist {V} k (m : list (string * V)) :
  map_delete k m `sublist_of` m.
Proof.
  induction m as [|[k0 v0] m IH]; simpl; [done|].
  case_match; [by apply sublist_cons|by apply sublist_skip].
Qed.

Lemma map_delete_Forall {V} (P : string * V → Prop) k m :
  Forall P m → Forall P (map_delete k m).
Proof.
  induction 1 as [|[k0 v0] m H0 Hm IH]; simpl; [done|].
  case_match; [done|by constructor].
Qed.

Lemma apply_peers_keyed op st : peers_keyed st → peers_keyed (apply st op).
Proof.
  intros [Hnd Hk]. destruct op; simpl; try done.
  - split; simpl; [by apply map_set_NoDup|by apply map_set_Forall].
  - pose proof (map_delete_sublist id (peerGateways st)) as Hsub.
    split; simpl.
    + eapply sublist_NoDup; [exact Hnd|]. by apply fmap_sublist.
    + by apply map_delete_Forall.
  - destruct (route_rest now m st) as (_ & _ & Hp & _).
    unfold peers_keyed. by rewrite Hp.
Qed.

Lemma run_peers_keyed ops st : peers_keyed st → peers_keyed (run ops st).
Proof.
  revert st. induction ops as [|op ops IH]; intros st Hst; [done|].
  simpl. by apply IH, apply_peers_keyed.
Qed.

Lemma apply_agents_keyed op st : agents_keyed st → agents_keyed (apply st op).
Proof.
  intros [Hnd Hk]. destruct op; simpl; try done.
  - split; simpl; [by apply map_set_NoDup|by apply map_set_Forall].
  - pose proof (map_delete_sublist id (localAgents st)) as Hsub.
    split; simpl.
    + eapply sublist_NoDup; [exact Hnd|]. by apply fmap_sublist.
    + by apply map_delete_Forall.
  - destruct (route_rest now m st) as (_ & _ & _ & Hp).
    unfold agents_keyed. by rewrite Hp.
Qed.

(** In every state the operations lead to from a new router, the local
    agents and the peers are each stored once, under their own id. *)
Lemma router_maps_keyed gw ops :
  agents_keyed (run ops (new gw)) ∧ peers_keyed (run ops (new gw)).
Proof.
  assert (H : agents_keyed (new gw) ∧ peers_keyed (new gw)).
  { split; split; simpl; constructor. }
  revert H. generalize (new gw).
  induction ops as [|op ops IH]; intros st [Ha Hp]; [done|].
  simpl. apply IH.
  split; [by apply apply_agents_keyed|by apply apply_peers_keyed].
Qed.

Lemma forward_loop_none bumped peers t :
  to (envelope bumped) = Some t →
  Forall (λ kp : string * PeerGateway, gatewayId kp.2 = kp.1) peers →
  Identity.gatewayId t ∉ peers.*1 →
  forward_loop bumped peers = [].
Proof.
  intros Hto. induction 1 as [|[k q] peers Hq Hk IH]; simpl; [done|].
  intros Hnot. apply not_elem_of_cons in Hnot as [Hne Hnot]. simpl in *.
  rewrite Hto. subst k.
  destruct (String.eqb_spec (Identity.gatewayId t) (gatewayId q)); [done|].
  simpl. rewrite IH by done. by case_match.
Qed.

Lemma forward_loop_at_most_one bumped peers t :
  to (envelope bumped) = Some t →
  NoDup peers.*1 →
  Forall (λ kp : string * PeerGateway, gatewayId kp.2 = kp.1) peers →
  (length (forward_loop bumped peers) ≤ 1)%nat.
Proof.
  intros Hto Hnd Hk. induction Hk as [|[k q] peers Hq Hk IH]; simpl; [lia|].
  rewrite fmap_cons in Hnd. apply NoDup_cons in Hnd as [Hfresh Hnd].
  simpl in *. rewrite Hto. subst k.
  destruct (bool_decide (status q = connected)); simpl; [|by apply IH].
  destruct (String.eqb_spec (Identity.gatewayId t) (gatewayId q)) as [Hg|Hg];
    simpl; [|by apply IH].
  rewrite (forward_loop_none bumped peers t); [simpl; lia|done..|].
  by rewrite Hg.
Qed.

(** X18: in every state the operations lead to from a new router, a
    message with a recipient is sent to one peer at most. *)
Theorem addressed_message_has_one_peer gw ops now m t :
  to (envelope m) = Some t →
  (length (forwards (route now m (run ops (new gw))).2) ≤ 1)%nat.
Proof.
  intros Hto. set (st := run ops (new gw)).
  assert (Hkeyed : peers_keyed st).
  { apply run_peers_keyed. split; simpl; constructor. }
  destruct Hkeyed as [Hnd Hk].
  unfold Router.route, forwards.
  destruct (set_has _ (seenMessages st)); [simpl; lia|].
  destruct (Router.expired _ _ _); [simpl; lia|].
  destruct (MAX_HOP_COUNT <=? _); [simpl; lia|]. simpl.
  rewrite filter_app, length_app.
  assert (Hd : ∀ l, (∀ e, e ∈ l → is_delivery e = true) →
                    filter (λ e, is_forward e = true) l = []).
  { induction l as [|e l IH]; intros Hl; [done|].
    rewrite filter_cons, decide_False.
    - apply IH. intros e' ?. apply Hl. by right.
    - specialize (Hl e (list_elem_of_here _ _)).
      destruct e; simpl in *; congruence. }
  assert (Hdel : ∀ (b : bool),
            filter (λ e, is_forward e = true)
              (if b then deliverLocally m (subscriptions st) else []) = []).
  { intros b. apply Hd. intros e. destruct b.
    - apply deliverLocally_only_delivers.
    - by intros ?%elem_of_nil. }
  rewrite Hdel. simpl. etrans; [apply length_filter|].
  case_match; [|simpl; lia].
  apply (forward_loop_at_most_one (bump m) _ t); done.
Qed.

(** *** The TTL *)

(** X19: a message older than its TTL is dropped, and its id is
    remembered; a message exactly as old as its TTL is not dropped for its
    age; and without a TTL, or with a timestamp that does not parse, the
    clock is not looked at. *)
Theorem ttl_expiry now now' m st :
  (∀ ttl t, ttlSeconds (envelope m) = Some ttl →
     Date_getTime (timestamp (envelope m)) = Some t →
     (ttl * 1000 < now - t →
      (route now m st).2 = []
      ∧ set_has (messageId (envelope m)) (seenMessages (route now m st).1)
        = true)
     ∧ (now - t ≤ ttl * 1000 → expired now (envelope m) = false))
  ∧ (ttlSeconds (envelope m) = None
     ∨ Date_getTime (timestamp (envelope m)) = None →
     route now m st = route now' m st).
Proof.
  split.
  - intros ttl t Httl Ht. split.
    + intros Hold. split; [|apply route_marks_seen].
      unfold Router.route, Router.expired. rewrite Httl, Ht.
      destruct (set_has _ _); [done|].
      by destruct (Z.ltb_spec (ttl * 1000) (now - t)); [|lia].
    + intros Hyoung. unfold Router.expired. rewrite Httl, Ht.
      by destruct (Z.ltb_spec (ttl * 1000) (now - t)); [lia|].
  - intros H. unfold Router.route, Router.expired.
    destruct H as [-> | ->]; [done|]. by destruct (ttlSeconds _).
Qed.

End WithClock.

Lemma seen_is_bounded_witness :
  Z.of_nat (length (seenMessages router1)) ≤ 10000
  ∧ seenMessages (RouterOps.run no_clock some_ops router1) = ["m0"]
  ∧ Z.of_nat (length (seenMessages (RouterOps.run no_clock some_ops router1)))
    ≤ 10000.
Proof.
  assert (H : Z.of_nat (length (seenMessages router1)) ≤ 10000) by by vm_compute.
  split; [exact H|]. split; [evaluate|].
  exact (seen_is_bounded no_clock some_ops router1 H).
Defined.

Lemma targeted_message_goes_one_way_witness :
  to (envelope (to_gw2 "m3" 0)) = Some (SecuritySpec.agent_on "b1" "gw-2")
  ∧ direction (envelope (to_gw2 "m3" 0)) ≠ broadcast
  ∧ (route no_clock 0 (to_gw2 "m3" 0) router1).2
    = [SentToPeer peer_gw2 (bump (to_gw2 "m3" 0))]
  ∧ Forall (λ e, is_forward e = true)
      (route no_clock 0 (to_gw2 "m3" 0) router1).2.
Proof.
  assert (Hd : direction (envelope (to_gw2 "m3" 0)) ≠ broadcast) by discriminate.
  split; [evaluate|]. split; [exact Hd|]. split; [evaluate|].
  exact (targeted_message_goes_one_way no_clock 0 (to_gw2 "m3" 0) router1
           (SecuritySpec.agent_on "b1" "gw-2") eq_refl Hd).
Defined.


Lemma addressed_message_has_one_peer_witness :
  to (envelope (to_gw2 "m3" 0)) = Some (SecuritySpec.agent_on "b1" "gw-2")
  ∧ length (forwards (route no_clock 0 (to_gw2 "m3" 0)
                        (RouterOps.run no_clock some_ops (new "gw-1"))).2)
    = 1%nat
  ∧ (length (forwards (route no_clock 0 (to_gw2 "m3" 0)
                         (RouterOps.run no_clock some_ops (new "gw-1"))).2)
     ≤ 1)%nat.
Proof.
  split; [evaluate|]. split; [evaluate|].
  exact (addressed_message_has_one_peer no_clock "gw-1" some_ops 0
           (to_gw2 "m3" 0) (SecuritySpec.agent_on "b1" "gw-2") eq_refl).
Defined.

(** X20: when the dedup set holds 10000 ids, a new id pushes out the 2001
    oldest and 8000 stay, the new one last. *)
Theorem full_set_forgets_oldest id seen :
  Z.of_nat (length seen) = 10000 → set_has id seen = false →
  trackSeen id seen = drop 2001 seen ++ [id]
  ∧ Z.of_nat (length (trackSeen id seen)) = 8000.
Proof.
  intros Hlen Hnew. unfold trackSeen, set_add, maxSeenSize. rewrite Hnew.
  rewrite length_app, Nat2Z.inj_add, Hlen. simpl.
  split.
  - rewrite drop_app_le by lia. done.
  - rewrite length_drop, length_app. simpl. lia.
Qed.

Lemma full_seen_length : Z.of_nat (length full_seen) = 10000.
Proof. unfold full_seen. rewrite length_fmap, length_seqZ. done. Qed.

Lemma full_seen_fresh : set_has "fresh" full_seen = false.
Proof.
  unfold full_seen. induction (seqZ 0 10000) as [|n l IH]; [done|].
  rewrite fmap_cons. simpl. exact IH.
Qed.

Lemma full_set_forgets_oldest_witness :
  Z.of_nat (length full_seen) = 10000
  ∧ set_has "fresh" full_seen = false
  ∧ trackSeen "fresh" full_seen = drop 2001 full_seen ++ ["fresh"]
  ∧ Z.of_nat (length (trackSeen "fresh" full_seen)) = 8000.
Proof.
  split; [exact full_seen_length|]. split; [exact full_seen_fresh|].
  exact (full_set_forgets_oldest "fresh" full_seen full_seen_length
           full_seen_fresh).
Defined.

End RouterMore.

(** ** Security manager: the audit log, signatures, authorization *)
Module SecurityMore.
Import Protocol Security Security.Policy SecurityExport.
Import SecuritySpec AuthorizeSpec SecurityOps.
Import RateLimitFacts CryptoFacts SigningFacts KeyedMapsFacts.
Local Open Scope Z_scope.

(** *** The audit log *)

Lemma slice_from_nonpos {A} (k : Z) (l : list A) :
  0 < k → slice_from (- k) l = drop (length l - Z.to_nat k) l.
Proof.
  intros Hk. unfold slice_from.
  destruct (Z.ltb_spec (- k) 0); [|lia]. f_equal. lia.
Qed.

(** X21: [getAuditLog(limit)] with a positive limit returns the last
    [limit] entries, all of them if there are fewer; [getAuditLog(0)] returns
    the whole log, and a negative limit drops that many of the oldest
    entries. *)
Theorem getAuditLog_slices limit st :
  let log := auditLog st in
  (0 < limit →
   getAuditLog limit st = drop (length log - Z.to_nat limit) log
   ∧ Z.of_nat (length (getAuditLog limit st))
     = Z.min limit (Z.of_nat (length log)))
  ∧ (limit = 0 → getAuditLog limit st = log)
  ∧ (limit < 0 → getAuditLog limit st = drop (Z.to_nat (- limit)) log).
Proof.
  intros log. unfold getAuditLog. fold log. split_and!.
  - intros Hl. rewrite slice_from_nonpos by done. split; [done|].
    rewrite length_drop. lia.
  - intros ->. unfold slice_from. simpl. by rewrite Z.min_l by lia.
  - intros Hl. unfold slice_from.
    destruct (Z.ltb_spec (- limit) 0); [lia|].
    destruct (Z.min_spec (- limit) (Z.of_nat (length log))) as [[_ ->]|[Hge ->]];
      [done|].
    rewrite Nat2Z.id, !drop_ge; [done|lia..].
Qed.

Lemma logAudit_auditLog e st : auditLog (logAudit e st) = auditLog st ++ [e].
Proof. done. Qed.

Lemma audit_log_bounded e st :
  Z.of_nat (length (auditLog st)) ≤ 10000 → auditTrimPending st = false →
  Z.of_nat (length (auditLog (settle (logAudit e st)))) ≤ 10000
  ∧ auditTrimPending (settle (logAudit e st)) = false
  ∧ last (auditLog (settle (logAudit e st))) = Some e.
Proof.
  intros Hlen Hpend.
  assert (Hl : Z.of_nat (length (auditLog (logAudit e st)))
               = Z.of_nat (length (auditLog st)) + 1).
  { rewrite logAudit_auditLog, length_app. simpl. lia. }
  assert (Hp : auditTrimPending (logAudit e st)
               = (10000 <? Z.of_nat (length (auditLog st)) + 1)).
  { unfold logAudit, maxAuditEntries. simpl. rewrite Hpend, andb_true_r.
    rewrite length_app. simpl. rewrite Nat2Z.inj_add. simpl.
    by destruct (10000 <? _). }
  unfold settle. rewrite Hp.
  destruct (Z.ltb_spec 10000 (Z.of_nat (length (auditLog st)) + 1)).
  - unfold auditTrim, maxAuditEntries. simpl.
    destruct (Z.ltb_spec 10000 (Z.of_nat (length (auditLog st ++ [e]))));
      rewrite length_app in *; simpl in *; [|lia].
    rewrite length_drop, length_app. simpl. split_and!; [lia|done|].
    rewrite drop_app_le by lia. apply last_snoc.
  - rewrite Hl, Hp, logAudit_auditLog.
    split_and!; [lia|done|apply last_snoc].
Qed.

Lemma auditTrim_removes_2000 st :
  10000 < Z.of_nat (length (auditLog st)) →
  auditLog (auditTrim st) = drop 2000 (auditLog st)
  ∧ Z.of_nat (length (auditLog (auditTrim st)))
    = Z.of_nat (length (auditLog st)) - 2000.
Proof.
  intros Hlen. unfold auditTrim, maxAuditEntries. simpl.
  destruct (Z.ltb_spec 10000 (Z.of_nat (length (auditLog st)))); [|lia].
  split; [done|]. rewrite length_drop. lia.
Qed.

(** X22: a log of at most 10000 entries with no trim pending has at most
    10000 entries again once an entry is logged and the synchronous run has
    ended, and the entry is its last one.  The trim that is queued removes
    the 2000 oldest entries of a log of more than 10000, whatever its
    length: what one synchronous run logs beyond that stays. *)
Theorem audit_log_trimming e st :
  (Z.of_nat (length (auditLog st)) ≤ 10000 → auditTrimPending st = false →
   Z.of_nat (length (auditLog (settle (logAudit e st)))) ≤ 10000
   ∧ auditTrimPending (settle (logAudit e st)) = false
   ∧ last (auditLog (settle (logAudit e st))) = Some e)
  ∧ (10000 < Z.of_nat (length (auditLog st)) →
     auditLog (auditTrim st) = drop 2000 (auditLog st)
     ∧ Z.of_nat (length (auditLog (auditTrim st)))
       = Z.of_nat (length (auditLog st)) - 2000).
Proof. split; [apply audit_log_bounded|apply auditTrim_removes_2000]. Qed.

(** *** Signatures *)

Lemma signMessage_decodes e p st :
  Crypto.base64_decode (signMessage e p st) = mac (messageId e) p st.
Proof.
  rewrite signMessage_mac. apply base64_roundtrip, hmac_sha256_is_byte.
Qed.

(** The signature is the base64 text of a 32-byte MAC, 44 characters long,
    and decodes to the MAC. *)
Lemma signMessage_shape e p st :
  String.length (signMessage e p st) = 44%nat
  ∧ Crypto.base64_decode (signMessage e p st)
    = Crypto.hmac_sha256 (sharedSecret st)
        (Crypto.bytes_of_string (signed_data (messageId e) p))
  ∧ length (Crypto.base64_decode (signMessage e p st)) = 32%nat.
Proof.
  split_and!.
  - rewrite signMessage_mac.
    pose proof (hmac_sha256_length (sharedSecret st)
      (Crypto.bytes_of_string (signed_data (messageId e) p))) as Hlen.
    unfold mac.
    destruct (Crypto.hmac_sha256 _ _) as [|b0 l]; [done|].
    do 31 (destruct l as [|? l]; [done|]). destruct l; [|done]. done.
  - apply signMessage_decodes.
  - rewrite signMessage_decodes. apply hmac_sha256_length.
Qed.

(** X23: an envelope without a signature, with an empty one, or with one
    that does not decode to 32 bytes does not verify. *)
Theorem verifySignature_rejects_malformed e p st :
  (truthy (signature e) = None → verifySignature e p st = false)
  ∧ (∀ sig, signature e = Some sig →
       length (Crypto.base64_decode sig) ≠ 32%nat →
       verifySignature e p st = false).
Proof.
  unfold verifySignature. split.
  - by intros ->.
  - intros sig Hsig Hlen. rewrite Hsig. simpl.
    destruct (String.eqb sig EmptyString); [done|].
    unfold Crypto.timingSafeEqual.
    rewrite (proj2 (proj2 (signMessage_shape e p st))).
    destruct (Nat.eqb_spec (length (Crypto.base64_decode sig)) 32); done.
Qed.

(** X24: the signature covers the message id and the payload and nothing
    else: two envelopes with the same id and signature are signed alike and
    verify alike, whatever their sender, recipient, timestamp, TTL and hop
    count. *)
Theorem signature_covers_id_and_payload e e' p st :
  messageId e = messageId e' → signature e = signature e' →
  signMessage e p st = signMessage e' p st
  ∧ verifySignature e p st = verifySignature e' p st.
Proof.
  intros Hid Hsig. unfold verifySignature, signMessage.
  by rewrite Hid, Hsig.
Qed.

Lemma signature_covers_id_and_payload_witness :
  messageId as_sent = messageId as_replayed
  ∧ signature as_sent = signature as_replayed
  ∧ to as_sent ≠ to as_replayed
  ∧ verifySignature as_sent heartbeat manager1
    = verifySignature as_replayed heartbeat manager1.
Proof.
  split; [evaluate|]. split; [evaluate|]. split; [discriminate|].
  exact (proj2 (signature_covers_id_and_payload as_sent as_replayed heartbeat
                  manager1 eq_refl eq_refl)).
Defined.

(** *** Authorization *)




(** X26: an authorized message has no reason and leaves no audit entry.
    A refused one has one of four reasons; the refusals for the rate limit,
    for crossing gateways and for the signature are each logged with one
    audit entry, the refusal for a missing permission is not logged. *)
Theorem authorizeMessage_verdicts m now st :
  let r := authorizeMessage m now st in
  if r.1.1
  then r.1.2 = None ∧ auditLog r.2 = auditLog st
  else (r.1.2 = Some "rate limit exceeded"
        ∧ ∃ e, auditLog r.2 = auditLog st ++ [e]
               ∧ Audit.action e = "rate-limit.exceeded")
       ∨ (r.1.2 = Some "cross-gateway communication not allowed"
          ∧ ∃ e, auditLog r.2 = auditLog st ++ [e]
                 ∧ Audit.action e = "cross-gateway.denied")
       ∨ (r.1.2 = Some "invalid message signature"
          ∧ ∃ e, auditLog r.2 = auditLog st ++ [e]
                 ∧ Audit.action e = "signature.invalid")
       ∨ (∃ perm, required m = Some perm
                  ∧ r.1.2 = Some ("missing permission: "
                                  +:+ permission_name perm)
                  ∧ auditLog r.2 = auditLog st).
Proof.
  intros r. subst r.
  unfold authorizeMessage, required, Router.payload_type.
  set (fromId := Identity.agentConfigId (from (envelope m))).
  pose proof (checkRateLimit_audit fromId now st) as Haudit.
  destruct (checkRateLimit fromId now st) as [ok st1].
  cbn [fst snd negb] in *.
  destruct ok.
  2:{ left. split; [done|]. destruct Haudit as (e & ? & ? & _). by exists e. }
  rewrite <- Haudit.
  set (cross := match to (envelope m) with
                | Some t => negb (String.eqb _ _) | None => true end).
  assert (Hperm :
    let v := match payloadToPermission
                     match Js.get (payload m) "type" with
                     | Js.Str t => Some t
                     | _ => None
                     end with
             | Some perm =>
               if negb (bool_decide (perm ∈ permissions (getPolicy fromId st)))
               then ((false, Some ("missing permission: "
                                   +:+ permission_name perm)), st1)
               else ((true, None), st1)
             | None => ((true, None), st1)
             end in
    if v.1.1 then v.1.2 = None ∧ auditLog v.2 = auditLog st1
    else ∃ perm,
      payloadToPermission
        match Js.get (payload m) "type" with
        | Js.Str t => Some t
        | _ => None
        end = Some perm
      ∧ v.1.2 = Some ("missing permission: " +:+ permission_name perm)
      ∧ auditLog v.2 = auditLog st1).
  { destruct (payloadToPermission _) as [perm|]; [|done].
    destruct (bool_decide (perm ∈ permissions (getPolicy fromId st)));
      cbn [negb fst snd]; [done|]. by exists perm. }
  cbv zeta in Hperm.
  destruct (cross && negb (allowCrossGateway (getPolicy fromId st))).
  { right. left. split; [done|]. by eexists. }
  destruct (match truthy (signature (envelope m)) with
            | Some _ => negb (verifySignature (envelope m) (payload m) st1)
            | None => false
            end).
  { right. right. left. split; [done|]. by eexists. }
  destruct (match payloadToPermission _ with Some _ => _ | None => _ end)
    as [[ok reason] st2].
  cbn [fst snd] in *. destruct ok; [done|].
  right. right. right. done.
Qed.

(** *** The states the operations lead to *)

Lemma logAudit_frame e st :
  policies (logAudit e st) = policies st
  ∧ rateLimiter (logAudit e st) = rateLimiter st.
Proof. done. Qed.

Lemma authorizeMessage_rateLimiter m now st :
  rateLimiter (authorizeMessage m now st).2
  = rateLimiter (checkRateLimit (sender m) now st).2
  ∧ policies (authorizeMessage m now st).2 = policies st.
Proof.
  unfold authorizeMessage, sender.
  set (rl := checkRateLimit _ now st).
  assert (Hp : policies rl.2 = policies st) by apply checkRateLimit_policies.
  repeat case_match; simpl; done.
Qed.

Lemma checkRateLimit_counts id now st :
  counts_positive st → counts_positive (checkRateLimit id now st).2.
Proof.
  intros Hst. unfold counts_positive.
  rewrite checkRateLimit_rateLimiter.
  apply map_Forall_insert_2; [|done]. simpl.
  unfold current_entry.
  destruct (rateLimiter st !! id) as [e|] eqn:He; [|simpl; lia].
  case_match; simpl; [lia|]. specialize (Hst id e He). simpl in Hst. lia.
Qed.

Lemma apply_invariants op st :
  KeyedMaps.keyed Policy.agentId (policies st) ∧ counts_positive st →
  KeyedMaps.keyed Policy.agentId (policies (apply st op))
  ∧ counts_positive (apply st op).
Proof.
  intros [Hp Hc]. destruct op; simpl.
  - split; [|done]. by apply map_Forall_insert_2.
  - split; [|done]. by apply map_Forall_delete.
  - split; [|done].
    apply (set_all_keyed Policy.agentId ∅ ps).
    by intros k x Hk.
  - done.
  - split.
    + by rewrite checkRateLimit_policies.
    + by apply checkRateLimit_counts.
  - destruct (authorizeMessage_rateLimiter m now st) as [Hr Hpol]. split.
    + by rewrite Hpol.
    + unfold counts_positive. rewrite Hr. by apply checkRateLimit_counts.
  - unfold settle. by case_match.
Qed.

Lemma run_invariants ops st :
  KeyedMaps.keyed Policy.agentId (policies st) ∧ counts_positive st →
  KeyedMaps.keyed Policy.agentId (policies (run ops st))
  ∧ counts_positive (run ops st).
Proof.
  revert st. induction ops as [|op ops IH]; intros st Hst; [done|].
  simpl. by apply IH, apply_invariants.
Qed.

Lemma new_invariants secret random :
  KeyedMaps.keyed Policy.agentId (policies (new secret random))
  ∧ counts_positive (new secret random).
Proof. split; intros k x Hk; simpl in Hk; by rewrite lookup_empty in Hk. Qed.

(** X27: in every state the operations lead to from a new manager, the
    policy [getPolicy] returns for an agent names that agent, and what
    [exportPolicies] returns is read back by [importPolicies] as the same
    state, whatever the order of the list. *)
Theorem policies_roundtrip secret random ops ps :
  ps ≡ₚ exportPolicies (run ops (new secret random)) →
  importPolicies ps (run ops (new secret random))
  = run ops (new secret random)
  ∧ ∀ id, Policy.agentId (getPolicy id (run ops (new secret random))) = id.
Proof.
  intros Hps.
  destruct (run_invariants ops _ (new_invariants secret random)) as [Hk _].
  set (st := run ops (new secret random)) in *. split.
  - unfold importPolicies.
    change (foldl (λ m p, <[Policy.agentId p := p]> m) ∅ ps)
      with (KeyedMaps.set_all Policy.agentId ∅ ps).
    rewrite (set_all_values Policy.agentId (policies st)) by done.
    by destruct st.
  - intros id. unfold getPolicy.
    destruct (policies st !! id) as [p|] eqn:Hp; [|done]. by apply (Hk id p).
Qed.

Lemma policies_roundtrip_witness :
  exportPolicies (run some_ops manager1)
    ≡ₚ exportPolicies (run some_ops manager1)
  ∧ exportPolicies (run some_ops manager1) = [one_per_minute]
  ∧ importPolicies (exportPolicies (run some_ops manager1))
      (run some_ops manager1)
    = run some_ops manager1.
Proof.
  split; [apply Permutation_refl|]. split; [evaluate|].
  exact (proj1 (policies_roundtrip (Some "test-secret-key") [] some_ops
                  (exportPolicies (run some_ops manager1))
                  (Permutation_refl _))).
Defined.

(** X28: in every state the operations lead to from a new manager, every
    window of the rate limiter has counted at least one call. *)
Theorem rate_windows_count_from_one secret random ops id e :
  rateLimiter (run ops (new secret random)) !! id = Some e → 1 ≤ count e.
Proof.
  destruct (run_invariants ops _ (new_invariants secret random)) as [_ Hc].
  apply (Hc id e).
Qed.

Lemma rate_windows_count_from_one_witness :
  ∃ e, rateLimiter (run some_ops manager1) !! "fast-agent" = Some e
       ∧ windowStart e = 70000 ∧ count e = 1 ∧ 1 ≤ count e.
Proof.
  eexists. split; [evaluate|]. split; [evaluate|]. split; [evaluate|].
  apply (rate_windows_count_from_one (Some "test-secret-key") [] some_ops
           "fast-agent"). evaluate.
Defined.

End SecurityMore.

(** ** Orchestrator: a task for one agent *)
Module OrchestratorMore.
Import Protocol Orchestrator OrchestratorSpec OrchestratorMoreSpec.
Import RouterOps.
Local Open Scope Z_scope.

Lemma find_agent_Some id agents a :
  find_agent id agents = Some a →
  a ∈ agents ∧ Identity.agentInstanceId a = id.
Proof.
  induction agents as [|b agents IH]; simpl; [done|].
  destruct (String.eqb_spec (Identity.agentInstanceId b) id) as [Hb|Hb].
  - intros [= <-]. split; [by left|done].
  - intros [Hin Ha]%IH. split; [by right|done].
Qed.

Lemma find_agent_None id agents :
  find_agent id agents = None ↔
  ∀ a, a ∈ agents → Identity.agentInstanceId a ≠ id.
Proof.
  induction agents as [|b agents IH]; simpl.
  - split; [|done]. by intros _ a ?%elem_of_nil.
  - destruct (String.eqb_spec (Identity.agentInstanceId b) id) as [Hb|Hb].
    + split; [done|]. intros H. destruct (H b); [by left|done].
    + rewrite IH. split.
      * intros H a [->|Ha]%elem_of_cons; auto.
      * intros H a Ha. apply H. by right.
Qed.

(** With a target agent id, [selectAgent] returns the local agent of that
    id, if there is one; the role asked for, the roles assigned and the
    loads are not looked at. *)
Lemma selectAgent_by_id rid tid id st :
  truthy tid = Some id →
  selectAgent rid tid st = find_agent id (getLocalAgents (router st))
  ∧ (∀ a, selectAgent rid tid st = Some a →
       a ∈ getLocalAgents (router st) ∧ Identity.agentInstanceId a = id)
  ∧ (selectAgent rid tid st = None ↔
     ∀ a, a ∈ getLocalAgents (router st) → Identity.agentInstanceId a ≠ id).
Proof.
  intros Htid.
  assert (Hsel : selectAgent rid tid st
                 = find_agent id (getLocalAgents (router st))).
  { unfold selectAgent. rewrite Htid.
    by destruct (getLocalAgents (router st)). }
  rewrite Hsel. split_and!; [done| |apply find_agent_None].
  intros a. apply find_agent_Some.
Qed.

Lemma find_agent_map_set a agents :
  Forall (λ ka : string * Identity.MultiAgentIdentity,
            Identity.agentInstanceId ka.2 = ka.1) agents →
  find_agent (Identity.agentInstanceId a)
    (Router.map_set (Identity.agentInstanceId a) a agents).*2 = Some a.
Proof.
  induction 1 as [|[k b] agents Hb Hk IH]; simpl.
  - by rewrite String.eqb_refl.
  - simpl in Hb. subst k.
    destruct (String.eqb_spec (Identity.agentInstanceId b)
                (Identity.agentInstanceId a)) as [Heq|Hne]; simpl.
    + by rewrite String.eqb_refl.
    + destruct (String.eqb_spec (Identity.agentInstanceId b)
                  (Identity.agentInstanceId a)); [done|]. apply IH.
Qed.

Lemma find_agent_map_delete id agents :
  NoDup agents.*1 →
  Forall (λ ka : string * Identity.MultiAgentIdentity,
            Identity.agentInstanceId ka.2 = ka.1) agents →
  find_agent id (Router.map_delete id agents).*2 = None.
Proof.
  intros Hnd Hk. induction Hk as [|[k b] agents Hb Hk IH]; simpl; [done|].
  rewrite fmap_cons in Hnd. apply NoDup_cons in Hnd as [Hfresh Hnd].
  simpl in *. subst k.
  destruct (String.eqb_spec (Identity.agentInstanceId b) id) as [Heq|Hne].
  - apply find_agent_None. intros a Ha Hid.
    apply list_elem_of_fmap in Ha as ([k a'] & -> & Hin). simpl in *.
    eapply Forall_forall in Hk; [|exact Hin]. simpl in Hk.
    apply Hfresh. rewrite Heq, <- Hid, Hk.
    apply list_elem_of_fmap. by exists (k, a').
  - simpl. destruct (String.eqb_spec (Identity.agentInstanceId b) id); [done|].
    by apply IH.
Qed.

Lemma two_coders_agents_keyed : agents_keyed (router two_coders).
Proof.
  split.
  - apply (bool_decide_unpack _). by vm_compute.
  - apply (bool_decide_unpack _). by vm_compute.
Qed.

(** X29: where the local agents are each stored once under their own id,
    an agent registered with the router is the one [selectAgent] returns for
    its id, whatever role is asked for, and once it is unregistered none
    is. *)
Theorem registered_agent_is_selected a rid st :
  agents_keyed (router st) →
  Identity.agentInstanceId a ≠ EmptyString →
  selectAgent rid (Some (Identity.agentInstanceId a))
    (with_router (Router.registerLocalAgent a (router st)) st) = Some a
  ∧ selectAgent rid (Some (Identity.agentInstanceId a))
      (with_router (Router.unregisterLocalAgent (Identity.agentInstanceId a)
                      (router st)) st) = None.
Proof.
  intros [Hnd Hk] Hid. set (id := Identity.agentInstanceId a).
  assert (Htid : truthy (Some id) = Some id).
  { simpl. by destruct (String.eqb_spec id EmptyString). }
  split.
  - destruct (selectAgent_by_id rid (Some id) id
               (with_router (Router.registerLocalAgent a (router st)) st) Htid)
      as (-> & _).
    by apply find_agent_map_set.
  - destruct (selectAgent_by_id rid (Some id) id
               (with_router (Router.unregisterLocalAgent id (router st)) st) Htid)
      as (-> & _).
    by apply find_agent_map_delete.
Qed.

Lemma registered_agent_is_selected_witness :
  agents_keyed (router two_coders)
  ∧ Identity.agentInstanceId (coder "a3") ≠ EmptyString
  ∧ selectAgent (Some "reviewer") (Some "a3") two_coders = None
  ∧ selectAgent (Some "reviewer") (Some "a3")
      (with_router (Router.registerLocalAgent (coder "a3") (router two_coders))
                   two_coders) = Some (coder "a3").
Proof.
  assert (Hne : Identity.agentInstanceId (coder "a3") ≠ EmptyString)
    by discriminate.
  split; [exact two_coders_agents_keyed|]. split; [exact Hne|].
  split; [evaluate|].
  exact (proj1 (registered_agent_is_selected (coder "a3") (Some "reviewer")
                  two_coders two_coders_agents_keyed Hne)).
Defined.

Section WithClock.
Variable Date_getTime : string → option Z.

(** X30: [submitTask] always tracks the task under the id drawn for it, as
    created by [createTask] with the default of two retries and without the
    deadline it was given, and announces it first.  With a target agent id,
    the task is put in progress with the local agent of that id, whatever
    its role, and stays pending when there is none. *)
Theorem submitTask_for_agent
    (opts : SubmitOpts) (uuid_task uuid_corr uuid_msg iso : string) (now : Z)
    (st : State) (id : string) :
  truthy (o_targetAgentInstanceId opts) = Some id →
  let r := submitTask Date_getTime opts uuid_task uuid_corr uuid_msg iso now st in
  (∃ t, r.1.1 = Some t
        ∧ WorkTracker.tasks (workTracker r.1.2) !! uuid_task = Some t
        ∧ WorkTracker.taskId t = uuid_task
        ∧ WorkTracker.task t = o_task opts
        ∧ WorkTracker.correlationId t = default uuid_corr (o_workflowPlanId opts)
        ∧ WorkTracker.priority t = default 50 (o_priority opts)
        ∧ WorkTracker.maxRetries t = 2
        ∧ WorkTracker.deadline t = None
        ∧ match find_agent id (getLocalAgents (router st)) with
          | Some a =>
            WorkTracker.status t = WorkTracker.in_progress
            ∧ WorkTracker.assignedTo t = Some a
          | None =>
            WorkTracker.status t = WorkTracker.pending
            ∧ WorkTracker.assignedTo t = None
          end)
  ∧ head r.2 = Some (Emitted (TaskCreated uuid_task))
  ∧ match find_agent id (getLocalAgents (router st)) with
    | Some a =>
      last r.2 = Some (Emitted (TaskAssigned uuid_task
                                  (Identity.agentInstanceId a)))
    | None => r.2 = [Emitted (TaskCreated uuid_task)]
    end.
Proof.
  intros Htid r.
  destruct (selectAgent_by_id (o_targetRoleId opts)
              (o_targetAgentInstanceId opts) id st Htid) as (Hsel & _).
  unfold r, submitTask.
  rewrite OrchestratorFacts.selectAgent_with_workTracker, Hsel.
  destruct (find_agent id (getLocalAgents (router st))) as [a|].
  - split_and!.
    + simpl. unfold WorkTracker.getTask, WorkTracker.startTask,
        WorkTracker.assignTask, WorkTracker.createTask. simpl.
      rewrite lookup_insert_eq. simpl. rewrite lookup_insert_eq. simpl.
      rewrite lookup_insert_eq. eexists. split_and!; done.
    + done.
    + simpl. rewrite app_comm_cons. apply last_snoc.
  - split_and!; [|done..].
    simpl. unfold WorkTracker.getTask, WorkTracker.createTask. simpl.
    rewrite lookup_insert_eq. eexists. split_and!; done.
Qed.

End WithClock.

Lemma submitTask_for_agent_witness :
  truthy (o_targetAgentInstanceId (for_agent "a1")) = Some "a1"
  ∧ find_agent "a1" (getLocalAgents (router two_coders)) = Some (coder "a1")
  ∧ ∃ t, (submitTask RouterSpec.no_clock (for_agent "a1") "t-1" "c-1" "m-1"
            "2026-01-01T00:00:00.000Z" 10 two_coders).1.1 = Some t
         ∧ WorkTracker.assignedTo t = Some (coder "a1")
         ∧ WorkTracker.deadline t = None.
Proof.
  split; [evaluate|]. split; [evaluate|].
  destruct (submitTask_for_agent RouterSpec.no_clock (for_agent "a1")
              "t-1" "c-1" "m-1" "2026-01-01T00:00:00.000Z" 10 two_coders
              "a1" eq_refl)
    as [(t & Ht & _ & _ & _ & _ & _ & _ & Hd & Hsel) _].
  exists t. split; [exact Ht|]. split; [exact (proj2 Hsel)|exact Hd].
Defined.

End OrchestratorMore.
